(** * Infinite Radio: the procedural composition engine

    A shallow embedding of [server/src/music-theory.ts] and
    [server/src/generator.ts], and of the two modules that keep the
    server's state: [server/src/session.ts] and
    [server/src/feedback-manager.ts].

    Conventions of the embedding.
    - JavaScript numbers that are always integral in the program (ticks, bar
      numbers, MIDI numbers, array indices, scale degrees) are [Z].
      Velocities, densities and the velocity trend are exact rationals [Q]:
      the rounding of their arithmetic is not modelled.
    - The seconds of a segment and the running total of a session are
      IEEE-754 doubles, the binary64 instance of [spec_float]: every [*],
      [/] and [+] on them rounds as JavaScript rounds it, and a division by
      zero gives [Infinity] or [NaN].
    - [Math.random] is the stream [Math_random : nat -> Q] read through a
      counter that every call advances; [Math.sin] is the function [Math_sin].
    - A value the program types [string] for a pitch is a [Pitch]: a string,
      the [undefined] of an out-of-range array read, or the number [NaN] that
      [undefined + n] evaluates to.  Calling a string method on the last two
      throws.  Elsewhere a value of type [string | undefined] is an
      [option string].
    - A [TypeError] is the outcome [Throw TypeError].
    - The MIDI writer library is represented by the list of events each track
      receives; the binary file it builds is outside the embedding. *)

From Stdlib Require Import ZArith QArith Qround Qminmax Qabs Bool List Lia Lqa.
From Stdlib Require Import Ascii String DecimalString DecimalZ DecimalN.
From Stdlib Require Import Floats.SpecFloat.
Import ListNotations.

Local Open Scope Z_scope.

(* ================================================================== *)
(** ** JavaScript primitives the program relies on *)

Module JS.

Inductive exn : Type := TypeError.

Inductive outcome (A : Type) : Type :=
| Ok (a : A)
| Throw (e : exn).
Arguments Ok {A} a.
Arguments Throw {A} e.

Definition obind {A B} (o : outcome A) (f : A -> outcome B) : outcome B :=
  match o with
  | Ok a => f a
  | Throw e => Throw e
  end.

(** The property names every object literal inherits from
    [Object.prototype]; each one holds a function, except [__proto__], which
    holds the prototype object itself.  All of them are truthy. *)
Definition Object_prototype_keys : list string :=
  [ "constructor"; "__defineGetter__"; "__defineSetter__"; "hasOwnProperty";
    "__lookupGetter__"; "__lookupSetter__"; "isPrototypeOf";
    "propertyIsEnumerable"; "toString"; "valueOf"; "__proto__";
    "toLocaleString" ]%string.

Definition is_prototype_key (k : string) : bool :=
  existsb (String.eqb k) Object_prototype_keys.

(** What [table[k] || fallback] evaluates to when every own value of
    [table] is truthy: an entry of the table's type, or a member inherited
    from [Object.prototype], which is not of the table's type. *)
Inductive looked_up (A : Type) : Type :=
| Entry (a : A)
| ProtoMember.
Arguments Entry {A} a.
Arguments ProtoMember {A}.

Fixpoint own {A} (tbl : list (string * A)) (k : string) : option A :=
  match tbl with
  | [] => None
  | (k', a) :: rest => if String.eqb k k' then Some a else own rest k
  end.

Definition get_or {A} (tbl : list (string * A)) (k : string) (fallback : A)
  : looked_up A :=
  match own tbl k with
  | Some a => Entry a
  | None => if is_prototype_key k then ProtoMember else Entry fallback
  end.

(** The remainder operator [%] on integers takes the sign of the dividend. *)
Definition rem (a b : Z) : Z := Z.rem a b.

(** [Math.floor (a / b)] on integers. *)
Definition floor_div (a b : Z) : Z := a / b.

(** [arr[i]] for an integral index: [undefined] out of range. *)
Definition at_index {A} (arr : list A) (i : Z) : option A :=
  if i <? 0 then None else nth_error arr (Z.to_nat i).

(** [arr.indexOf(x)]: the first position holding [x], or [-1]. *)
Fixpoint indexOf_from (arr : list string) (x : string) (i : Z) : Z :=
  match arr with
  | [] => -1
  | y :: rest => if String.eqb x y then i else indexOf_from rest x (i + 1)
  end.

Definition indexOf (arr : list string) (x : option string) : Z :=
  match x with
  | Some s => indexOf_from arr s 0
  | None => -1
  end.

(** [String(n)] for an integer [n] below 2^53 in absolute value, where
    every integer is a double and prints with all its digits. *)
Definition Number_toString (n : Z) : string :=
  NilZero.string_of_int (Z.to_int n).

(** What a variable the program types [string] holds at run time: a string,
    the [undefined] of an out-of-range array read, or the number [NaN] that
    [undefined + n] evaluates to. *)
Inductive Pitch : Type :=
| PitchName (s : string)
| PitchUndefined
| PitchNaN.

Definition pitch_of (s : option string) : Pitch :=
  match s with
  | Some s => PitchName s
  | None => PitchUndefined
  end.

(** [arr[i]] for an array of such values. *)
Definition read (arr : list Pitch) (i : Z) : Pitch :=
  match at_index arr i with
  | Some p => p
  | None => PitchUndefined
  end.

(** [s + n] for a number [n]: string concatenation when [s] is a string,
    the number [NaN] when [s] is [undefined]. *)
Definition concat_number (s : option string) (n : Z) : Pitch :=
  match s with
  | Some s => PitchName (s ++ Number_toString n)
  | None => PitchNaN
  end.

(** The numbers whose rounding the embedding follows: IEEE-754 doubles. *)
Definition Number_of_Z (z : Z) : spec_float :=
  binary_normalize 53 1024 z 0 false.

Definition Number_mul : spec_float -> spec_float -> spec_float :=
  SFmul 53 1024.

Definition Number_div : spec_float -> spec_float -> spec_float :=
  SFdiv 53 1024.

Definition Number_add : spec_float -> spec_float -> spec_float :=
  SFadd 53 1024.

(** The double a rational stands for: itself when it is a double. *)
Definition Number_of_Q (q : Q) : spec_float :=
  Number_div (Number_of_Z (Qnum q)) (Number_of_Z (Z.pos (Qden q))).

Definition is_digit (c : ascii) : bool :=
  ((48 <=? nat_of_ascii c) && (nat_of_ascii c <=? 57))%nat.

Fixpoint all_digits (s : string) : bool :=
  match s with
  | EmptyString => true
  | String c rest => is_digit c && all_digits rest
  end.

(** [\d+$] anchored at the start of [s]: [s] is a non-empty run of digits. *)
Definition is_digits1 (s : string) : bool :=
  match s with
  | EmptyString => false
  | String _ _ => all_digits s
  end.

(** [parseInt] on a string of decimal digits. *)
Definition parseInt (digits : string) : Z :=
  match NilEmpty.uint_of_string digits with
  | Some u => Z.of_N (N.of_uint u)
  | None => 0
  end.

(** [s.replace(/\d+$/, '')]: drop the digits the string ends with. *)
Fixpoint strip_trailing_digits (s : string) : string :=
  match s with
  | EmptyString => EmptyString
  | String c rest =>
      if all_digits s then EmptyString
      else String c (strip_trailing_digits rest)
  end.

End JS.

Import JS.

(* ================================================================== *)
(** ** music-theory.ts *)

Module MusicTheory.

Definition NOTES : list string :=
  [ "C"; "C#"; "D"; "D#"; "E"; "F"; "F#"; "G"; "G#"; "A"; "A#"; "B" ]%string.

(** Scale patterns (semitone intervals from root). *)
Definition SCALES : list (string * list Z) :=
  [ ("major"%string, [0; 2; 4; 5; 7; 9; 11]);
    ("minor"%string, [0; 2; 3; 5; 7; 8; 10]);
    ("dorian"%string, [0; 2; 3; 5; 7; 9; 10]);
    ("mixolydian"%string, [0; 2; 4; 5; 7; 9; 10]);
    ("pentatonic"%string, [0; 2; 4; 7; 9]);
    ("minorPentatonic"%string, [0; 3; 5; 7; 10]);
    ("blues"%string, [0; 3; 5; 6; 7; 10]);
    ("chromatic"%string, [0; 1; 2; 3; 4; 5; 6; 7; 8; 9; 10; 11]) ].

Definition SCALES_major : list Z := [0; 2; 4; 5; 7; 9; 11].

(** Chord patterns (intervals from root). *)
Definition CHORDS : list (string * list Z) :=
  [ ("major"%string, [0; 4; 7]);
    ("minor"%string, [0; 3; 7]);
    ("dim"%string, [0; 3; 6]);
    ("aug"%string, [0; 4; 8]);
    ("maj7"%string, [0; 4; 7; 11]);
    ("min7"%string, [0; 3; 7; 10]);
    ("dom7"%string, [0; 4; 7; 10]);
    ("sus2"%string, [0; 2; 7]);
    ("sus4"%string, [0; 5; 7]) ].

Definition CHORDS_major : list Z := [0; 4; 7].

(** A progression entry: (scale degree, chord type). *)
Definition ProgressionEntry : Type := (Z * string)%type.

Definition PROGRESSIONS_pop : list ProgressionEntry :=
  [ (0, "major"); (5, "major"); (3, "minor"); (4, "major") ]%string.

Definition PROGRESSIONS_ambient : list ProgressionEntry :=
  [ (0, "maj7"); (2, "minor"); (4, "major"); (3, "minor") ]%string.

Definition PROGRESSIONS : list (string * list ProgressionEntry) :=
  [ ("pop", PROGRESSIONS_pop);
    ("jazz", [ (1, "min7"); (4, "dom7"); (0, "maj7"); (0, "maj7") ]);
    ("blues",
      [ (0, "dom7"); (0, "dom7"); (0, "dom7"); (0, "dom7");
        (3, "dom7"); (3, "dom7"); (0, "dom7"); (0, "dom7");
        (4, "dom7"); (3, "dom7"); (0, "dom7"); (4, "dom7") ]);
    ("ambient", PROGRESSIONS_ambient);
    ("lofi", [ (0, "maj7"); (3, "min7"); (4, "dom7"); (0, "maj7") ]);
    ("classical", [ (0, "major"); (3, "major"); (4, "major"); (0, "major") ]);
    ("electronic", [ (0, "minor"); (5, "minor"); (3, "major"); (4, "major") ])
  ]%string.

(** The match of [/^([A-G]#?)(\d+)$/]: the note name and the octave digits. *)
Definition is_A_to_G (c : ascii) : bool :=
  ((65 <=? nat_of_ascii c) && (nat_of_ascii c <=? 71))%nat.

Definition match_pitch (note : string) : option (string * string) :=
  match note with
  | String c rest =>
      if is_A_to_G c then
        match rest with
        | String c' digits =>
            if Ascii.eqb c' "#" then
              if is_digits1 digits
              then Some (String c (String c' EmptyString), digits)
              else None
            else if is_digits1 rest then Some (String c EmptyString, rest)
            else None
        | EmptyString => None
        end
      else None
  | EmptyString => None
  end.

(** Convert note name to MIDI number. *)
Definition noteToMidi (note : string) : Z :=
  match match_pitch note with
  | None => 60 (* Default to middle C *)
  | Some (noteName, octave) =>
      let noteIndex := indexOf NOTES (Some noteName) in
      noteIndex + (parseInt octave + 1) * 12
  end.

(** Convert MIDI number to note name. *)
Definition midiToNote (midi : Z) : Pitch :=
  let octave := floor_div midi 12 - 1 in
  let noteIndex := rem midi 12 in
  concat_number (at_index NOTES noteIndex) octave.

(** The callback shared by [getScale] and [getChord]. *)
Definition note_at (rootIndex octave interval : Z) : Pitch :=
  let noteIndex := rem (rootIndex + interval) 12 in
  let noteOctave := octave + floor_div (rootIndex + interval) 12 in
  concat_number (at_index NOTES noteIndex) noteOctave.

(** Get scale notes for a given root and scale type.  An inherited member
    has no [map] method: calling it throws. *)
Definition getScale (root scaleType : string) (octave : Z)
  : outcome (list Pitch) :=
  let rootIndex := indexOf NOTES (Some root) in
  match get_or SCALES scaleType SCALES_major with
  | Entry pattern => Ok (map (note_at rootIndex octave) pattern)
  | ProtoMember => Throw TypeError
  end.

(** Get chord notes for a given root and chord type. *)
Definition getChord (root : option string) (chordType : string) (octave : Z)
  : outcome (list Pitch) :=
  let rootIndex := indexOf NOTES root in
  match get_or CHORDS chordType CHORDS_major with
  | Entry pattern => Ok (map (note_at rootIndex octave) pattern)
  | ProtoMember => Throw TypeError
  end.

(** Get chord from scale degree.  Indexing an inherited member by a number
    gives [undefined], the sum with [rootIndex] is then [NaN] and
    [NOTES[NaN]] is [undefined]. *)
Definition getChordFromDegree (root scaleType : string) (degree : Z)
    (chordType : string) (octave : Z) : outcome (list Pitch) :=
  let rootIndex := indexOf NOTES (Some root) in
  let chordRoot :=
    match get_or SCALES scaleType SCALES_major with
    | Entry scale =>
        match at_index scale (rem degree (Z.of_nat (List.length scale))) with
        | Some chordRootInterval =>
            at_index NOTES (rem (rootIndex + chordRootInterval) 12)
        | None => None
        end
    | ProtoMember => None
    end in
  getChord chordRoot chordType octave.

(** Get a chord progression for a style. *)
Definition getProgression (style : string)
  : looked_up (list ProgressionEntry) :=
  get_or PROGRESSIONS style PROGRESSIONS_pop.

Record StyleParams : Type := {
  tempo : Z * Z;
  noteDensity : Q;
  velocityRange : Z * Z;
  octaveRange : Z * Z;
  preferredScales : list string;
  rhythmPatterns : list string;
  useSustain : bool
}.

Definition STYLE_PARAMS_ambient : StyleParams :=
  {| tempo := (60, 80); noteDensity := 3 # 10; velocityRange := (40, 80);
     octaveRange := (3, 5); preferredScales := ["major"; "dorian"]%string;
     rhythmPatterns := ["sparse"; "straight"]%string; useSustain := true |}.

Definition STYLE_PARAMS : list (string * StyleParams) :=
  [ ("ambient"%string, STYLE_PARAMS_ambient);
    ("lofi"%string,
      {| tempo := (70, 90); noteDensity := 5 # 10; velocityRange := (50, 90);
         octaveRange := (3, 5);
         preferredScales := ["pentatonic"; "dorian"]%string;
         rhythmPatterns := ["syncopated"; "offbeat"]%string;
         useSustain := true |});
    ("electronic"%string,
      {| tempo := (120, 140); noteDensity := 7 # 10;
         velocityRange := (70, 110); octaveRange := (2, 6);
         preferredScales := ["minor"; "minorPentatonic"]%string;
         rhythmPatterns := ["driving"; "syncopated"]%string;
         useSustain := false |});
    ("classical"%string,
      {| tempo := (80, 120); noteDensity := 6 # 10;
         velocityRange := (50, 100); octaveRange := (3, 6);
         preferredScales := ["major"; "minor"]%string;
         rhythmPatterns := ["straight"; "triplet"]%string;
         useSustain := true |});
    ("jazz"%string,
      {| tempo := (100, 140); noteDensity := 6 # 10;
         velocityRange := (60, 100); octaveRange := (3, 5);
         preferredScales := ["dorian"; "mixolydian"]%string;
         rhythmPatterns := ["syncopated"; "triplet"]%string;
         useSustain := true |}) ].

End MusicTheory.

Import MusicTheory.

(* ================================================================== *)
(** ** generator.ts *)

Module Generator.

(** *** The MIDI writer, as the program uses it *)

(** The [duration] strings ['1'], ['2'], ['4'], ['8'] and ['16']. *)
Inductive Duration : Type := Whole | Half | Quarter | Eighth | Sixteenth.

Record NoteEvent : Type := {
  pitch : list Pitch;
  duration : Duration;
  velocity : Q;
  startTick : Z;
  channel : option Z
}.

Inductive TrackEvent : Type :=
| TempoEvent (bpm : Q)
| ProgramChangeEvent (instrument : option Z)
| Note (n : NoteEvent).

Definition Track : Type := list TrackEvent.

Definition addEvent (track : Track) (e : TrackEvent) : Track := track ++ [e].

Definition setTempo (track : Track) (bpm : Q) : Track :=
  addEvent track (TempoEvent bpm).

(** *** Numbers *)

Definition Qltb (x y : Q) : bool := negb (Qle_bool y x).

Definition Math_floor (x : Q) : Z := Qfloor x.

(** The double nearest to pi. *)
Definition Math_PI : Q := 884279719003555 # 281474976710656.

(** *** Data of the generator *)

Inductive Level : Type := soft | medium | loud.
Inductive Direction : Type := building | fading | stable.

Record Dynamics : Type := {
  level : Level;
  direction : Direction;
  velocityTrend : Q
}.

Record LastNotes : Type := {
  melody : list (Pitch * Q);
  bass : list (string * Q);
  chords : list (list Pitch * Q)
}.

Record ContinuationContext : Type := {
  ctx_key : string;
  ctx_mode : string;
  ctx_tempo : Q;
  ctx_style : string;
  ctx_progressionPosition : Z;
  ctx_currentChord : option string;
  ctx_currentChordType : option string;
  ctx_lastNotes : LastNotes;
  ctx_dynamics : Dynamics;
  ctx_totalBars : Z;
  ctx_motif : option (list Z)
}.

Inductive ExtensionDirection : Type :=
| continue | build_up | peak | wind_down | contrast.

(** Every field is optional; [None] is an absent property. *)
Record GenerationOptions : Type := {
  opt_bars : option Z;
  opt_key : option string;
  opt_mode : option string;
  opt_tempo : option Q;
  opt_style : option string;
  opt_totalBarsOffset : option Z;
  opt_extensionDirection : option ExtensionDirection
}.

Definition or_default {A} (o : option A) (d : A) : A :=
  match o with
  | Some a => a
  | None => d
  end.

Record SegmentInfo : Type := {
  bars : Z;
  durationSeconds : spec_float;
  endingNotes : LastNotes;
  endingChord : string;
  endingChordType : string;
  progressionPosition : Z;
  dynamics : Dynamics;
  motif : list Z
}.

(** The five tracks stand for [midiData] and [midiBase64], which the writer
    library derives from them. *)
Record GenerationResult : Type := {
  melodyTrack : Track;
  chordTrack : Track;
  bassTrack : Track;
  padTrack : Track;
  drumTrack : Track;
  segmentInfo : SegmentInfo
}.

(** Apply variation to a motif. *)
Definition varyMotif (motif : list Z) (variation scaleLength : Z) : list Z :=
  match rem variation 4 with
  | 0 => motif
  | 1 => map (fun n => Z.min (scaleLength - 1) (n + 2)) motif
  | 2 => rev motif
  | 3 => map (fun n => Z.max 0 (scaleLength - 1 - n)) motif
  | _ => motif
  end.

Record DrumPattern : Type := {
  kick : list Z;
  snare : list Z;
  hihat : list Z;
  ride : option (list Z)
}.

Definition DRUM_PATTERNS_ambient : DrumPattern :=
  {| kick := [1;0;0;0; 0;0;0;0; 0;0;0;0; 0;0;0;0];
     snare := [0;0;0;0; 0;0;0;0; 0;0;0;0; 0;0;0;0];
     hihat := [0;0;0;0; 0;0;0;0; 0;0;0;0; 0;0;0;0];
     ride := None |}.

Definition DRUM_PATTERNS_lofi : DrumPattern :=
  {| kick := [1;0;0;0; 0;0;0;0; 1;0;0;0; 0;0;0;0];
     snare := [0;0;0;0; 1;0;0;0; 0;0;0;0; 1;0;0;0];
     hihat := [1;0;1;0; 1;0;1;0; 1;0;1;0; 1;0;1;0];
     ride := None |}.

(** Drum patterns per style (16th notes, channel 10). *)
Definition DRUM_PATTERNS : list (string * DrumPattern) :=
  [ ("ambient"%string, DRUM_PATTERNS_ambient);
    ("lofi"%string, DRUM_PATTERNS_lofi);
    ("electronic"%string,
      {| kick := [1;0;0;0; 1;0;0;0; 1;0;0;0; 1;0;0;0];
         snare := [0;0;0;0; 1;0;0;0; 0;0;0;0; 1;0;0;0];
         hihat := [1;1;1;1; 1;1;1;1; 1;1;1;1; 1;1;1;1];
         ride := None |});
    ("classical"%string,
      {| kick := [0;0;0;0; 0;0;0;0; 0;0;0;0; 0;0;0;0];
         snare := [0;0;0;0; 0;0;0;0; 0;0;0;0; 0;0;0;0];
         hihat := [0;0;0;0; 0;0;0;0; 0;0;0;0; 0;0;0;0];
         ride := None |});
    ("jazz"%string,
      {| kick := [1;0;0;0; 0;0;1;0; 0;0;0;0; 0;0;1;0];
         snare := [0;0;0;0; 0;0;0;0; 0;0;0;0; 0;0;0;0];
         hihat := [0;0;0;0; 0;0;0;0; 0;0;0;0; 0;0;0;0];
         ride := Some [1;0;1;1; 0;1;1;0; 1;1;0;1; 1;0;1;0] |}) ].

(** Arpeggio patterns (the two the generator reads). *)
Definition ARPEGGIO_PATTERNS_up : list (list Z) := [[0]; [1]; [2]; [3]].
Definition ARPEGGIO_PATTERNS_upDown : list (list Z) :=
  [[0]; [1]; [2]; [3]; [2]; [1]].

(** Song sections - gives music structure and arc. *)
Inductive SongSection : Type := intro | verse | build | climax | outro.

Definition SongSection_eqb (a b : SongSection) : bool :=
  match a, b with
  | intro, intro | verse, verse | build, build
  | climax, climax | outro, outro => true
  | _, _ => false
  end.

(** The [drums] setting of a section other than ['none']. *)
Inductive Intensity : Type := minimal | light | full | building_up.

Record SectionConfig : Type := {
  sc_melody : bool;
  sc_chords : bool;
  sc_bass : bool;
  sc_pad : bool;
  sc_drums : option Intensity; (* [None] is ['none'] *)
  sc_density : Q;
  sc_velocityMod : Q
}.

Definition SECTION_CONFIGS (s : SongSection) : SectionConfig :=
  match s with
  | intro =>
      {| sc_melody := false; sc_chords := true; sc_bass := true;
         sc_pad := true; sc_drums := None;
         sc_density := 3 # 10; sc_velocityMod := -15 |}
  | verse =>
      {| sc_melody := true; sc_chords := true; sc_bass := true;
         sc_pad := true; sc_drums := Some light;
         sc_density := 6 # 10; sc_velocityMod := -5 |}
  | build =>
      {| sc_melody := true; sc_chords := true; sc_bass := true;
         sc_pad := true; sc_drums := Some building_up;
         sc_density := 8 # 10; sc_velocityMod := 5 |}
  | climax =>
      {| sc_melody := true; sc_chords := true; sc_bass := true;
         sc_pad := true; sc_drums := Some full;
         sc_density := 1; sc_velocityMod := 15 |}
  | outro =>
      {| sc_melody := true; sc_chords := false; sc_bass := true;
         sc_pad := true; sc_drums := Some minimal;
         sc_density := 4 # 10; sc_velocityMod := -10 |}
  end.

(** Map bar number to song section, accounting for overall song position
    and extension direction. *)
Definition getSongSection (barNumber totalBars totalBarsOffset : Z)
    (extensionDirection : ExtensionDirection) : SongSection :=
  if 0 <? totalBarsOffset then
    let localProgress := (inject_Z barNumber / inject_Z totalBars)%Q in
    match extensionDirection with
    | build_up =>
        if Qltb localProgress (3 # 10) then verse
        else if Qltb localProgress (7 # 10) then build
        else climax
    | peak =>
        if Qltb localProgress (1 # 10) then build
        else if Qltb localProgress (85 # 100) then climax
        else climax
    | wind_down =>
        if Qltb localProgress (2 # 10) then verse
        else if Qltb localProgress (6 # 10) then verse
        else outro
    | contrast =>
        if Qltb localProgress (25 # 100) then intro
        else if Qltb localProgress (5 # 10) then verse
        else if Qltb localProgress (75 # 100) then build
        else climax
    | continue =>
        let overallProgress :=
          (inject_Z (totalBarsOffset + barNumber)
           / inject_Z (totalBarsOffset + totalBars + 32))%Q in
        if Qltb overallProgress (2 # 10) then verse
        else if Qltb overallProgress (4 # 10) then build
        else if Qltb overallProgress (7 # 10) then climax
        else if Qltb overallProgress (9 # 10) then build
        else outro
    end
  else
    let progress := (inject_Z barNumber / inject_Z totalBars)%Q in
    if Qltb progress (1 # 10) then intro
    else if Qltb progress (35 # 100) then verse
    else if Qltb progress (6 # 10) then build
    else if Qltb progress (85 # 100) then climax
    else outro.

Inductive PhraseType : Type := question | answer.

Record Phrase : Type := {
  ph_type : PhraseType;
  ph_bars : Z;
  targetResolution : Z
}.

Record Instruments : Type := {
  i_melody : Z;
  i_chords : Z;
  i_bass : Z;
  i_pad : Z
}.

Definition instruments_ambient : Instruments :=
  {| i_melody := 89; i_chords := 52; i_bass := 39; i_pad := 92 |}.

(** The [instruments] table of [getInstrumentsForStyle]. *)
Definition instruments : list (string * Instruments) :=
  [ ("ambient"%string, instruments_ambient);
    ("lofi"%string,
      {| i_melody := 5; i_chords := 1; i_bass := 33; i_pad := 89 |});
    ("electronic"%string,
      {| i_melody := 81; i_chords := 63; i_bass := 38; i_pad := 95 |});
    ("classical"%string,
      {| i_melody := 41; i_chords := 49; i_bass := 43; i_pad := 49 |});
    ("jazz"%string,
      {| i_melody := 66; i_chords := 1; i_bass := 33; i_pad := 52 |}) ].

(** Get instruments for style. *)
Definition getInstrumentsForStyle (style : string) : looked_up Instruments :=
  get_or instruments style instruments_ambient.

(** A field of [instruments]; an inherited member has no such field. *)
Definition instrument_field (f : Instruments -> Z)
    (instruments : looked_up Instruments) : option Z :=
  match instruments with
  | Entry i => Some (f i)
  | ProtoMember => None
  end.

(** The [rates] table of [getProgressionRate]. *)
Definition rates : list (string * Z) :=
  [ ("ambient"%string, 4); ("lofi"%string, 2); ("electronic"%string, 2);
    ("classical"%string, 1); ("jazz"%string, 1) ].

(** Get progression rate. *)
Definition getProgressionRate (style : string) : looked_up Z :=
  get_or rates style 2.

(** The [patterns] table of the generator's own [getScale]. *)
Definition patterns : list (string * list Z) :=
  [ ("major"%string, [0; 2; 4; 5; 7; 9; 11]);
    ("minor"%string, [0; 2; 3; 5; 7; 8; 10]);
    ("dorian"%string, [0; 2; 3; 5; 7; 9; 10]);
    ("mixolydian"%string, [0; 2; 4; 5; 7; 9; 10]);
    ("pentatonic"%string, [0; 2; 4; 7; 9]) ].

Definition patterns_major : list Z := [0; 2; 4; 5; 7; 9; 11].

(** Helper to get scale (the generator's own, with five patterns). *)
Definition getScale (root mode : string) (octave : Z)
  : outcome (list Pitch) :=
  let rootIdx := indexOf NOTES (Some root) in
  match get_or patterns mode patterns_major with
  | Entry pattern => Ok (map (note_at rootIdx octave) pattern)
  | ProtoMember => Throw TypeError
  end.

(** *** Computations that draw random numbers and may throw *)

(** The state is the number of [Math.random()] calls made so far. *)
Definition M (A : Type) : Type := nat -> outcome (A * nat).

Definition ret {A} (a : A) : M A := fun n => Ok (a, n).

Definition bind {A B} (m : M A) (f : A -> M B) : M B :=
  fun n =>
    match m n with
    | Ok (a, n') => f a n'
    | Throw e => Throw e
    end.

Definition throw {A} (e : exn) : M A := fun _ => Throw e.

Definition lift {A} (o : outcome A) : M A :=
  fun n =>
    match o with
    | Ok a => Ok (a, n)
    | Throw e => Throw e
    end.

Notation "x <- m ;; k" := (bind m (fun x => k))
  (at level 61, m at next level, right associativity).

Fixpoint foldM {A S} (f : S -> A -> M S) (l : list A) (s : S) : M S :=
  match l with
  | [] => ret s
  | a :: rest => s' <- f s a ;; foldM f rest s'
  end.

(** [arr.filter(f)] for a callback that draws random numbers. *)
Fixpoint filterM {A} (f : A -> M bool) (l : list A) : M (list A) :=
  match l with
  | [] => ret []
  | a :: rest =>
      keep <- f a ;;
      rest' <- filterM f rest ;;
      ret (if keep then a :: rest' else rest')
  end.

(** The elements of an array with their positions, as [forEach] sees them. *)
Fixpoint indexed_from {A} (i : Z) (l : list A) : list (A * Z) :=
  match l with
  | [] => []
  | a :: rest => (a, i) :: indexed_from (i + 1) rest
  end.

Definition indexed {A} (l : list A) : list (A * Z) := indexed_from 0 l.

(** [0, 1, ..., n - 1]: the values of a counting [for] loop. *)
Definition upto (n : Z) : list Z := map Z.of_nat (seq 0 (Z.to_nat n)).

(** [arr.findIndex(f)]: the first position satisfying [f], or [-1]. *)
Fixpoint findIndex_from {A} (f : A -> Z -> bool) (l : list A) (i : Z) : Z :=
  match l with
  | [] => -1
  | a :: rest => if f a i then i else findIndex_from f rest (i + 1)
  end.

Definition findIndex {A} (f : A -> Z -> bool) (l : list A) : Z :=
  findIndex_from f l 0.

Definition includes (l : list Z) (x : Z) : bool := existsb (Z.eqb x) l.

(** [arr.findIndex(f)] for a callback that may throw. *)
Fixpoint findIndexM_from {A} (f : A -> Z -> M bool) (l : list A) (i : Z)
  : M Z :=
  match l with
  | [] => ret (-1)
  | a :: rest =>
      found <- f a i ;;
      if found then ret i else findIndexM_from f rest (i + 1)
  end.

Definition findIndexM {A} (f : A -> Z -> M bool) (l : list A) : M Z :=
  findIndexM_from f l 0.

(** [arr.map(f)] for a callback that may throw. *)
Fixpoint mapM {A B} (f : A -> M B) (l : list A) : M (list B) :=
  match l with
  | [] => ret []
  | a :: rest =>
      b <- f a ;;
      rest' <- mapM f rest ;;
      ret (b :: rest')
  end.

(** [noteToMidi] applied to a value that may be no string: neither
    [undefined] nor [NaN] has a [match] method to call. *)
Definition noteToMidi_of (note : Pitch) : M Z :=
  match note with
  | PitchName s => ret (noteToMidi s)
  | PitchUndefined | PitchNaN => throw TypeError
  end.

(** [note.replace(/\d+$/, '')] applied to a value that may be no string. *)
Definition without_octave (note : Pitch) : M string :=
  match note with
  | PitchName s => ret (strip_trailing_digits s)
  | PitchUndefined | PitchNaN => throw TypeError
  end.

(** [while (midi < lo) midi += 12], unrolled [fuel] times. *)
Fixpoint while_below (fuel : nat) (lo midi : Z) : Z :=
  match fuel with
  | O => midi
  | S fuel' => if midi <? lo then while_below fuel' lo (midi + 12) else midi
  end.

(** [while (midi > hi) midi -= 12], unrolled [fuel] times. *)
Fixpoint while_above (fuel : nat) (hi midi : Z) : Z :=
  match fuel with
  | O => midi
  | S fuel' => if hi <? midi then while_above fuel' hi (midi - 12) else midi
  end.

(** The two loops with as many rounds as the distance to cover allows. *)
Definition raise_octaves (lo midi : Z) : Z :=
  while_below (Z.to_nat (lo - midi)) lo midi.

Definition lower_octaves (hi midi : Z) : Z :=
  while_above (Z.to_nat (midi - hi)) hi midi.

Section Environment.

(** The successive results of [Math.random()] and the function [Math.sin]. *)
Variable Math_random : nat -> Q.
Variable Math_sin : Q -> Q.

Definition random : M Q := fun n => Ok (Math_random n, S n).

(** Humanization: add subtle timing variations (in ticks). *)
Definition humanizeTiming (tick amount : Z) : M Z :=
  r <- random ;;
  let varied := tick + Math_floor ((r - (1 # 2)) * inject_Z amount * 2) in
  ret (Z.max 0 varied).

(** Humanization: add velocity variations. *)
Definition humanizeVelocity (velocity : Q) (amount : Z) : M Q :=
  r <- random ;;
  let varied :=
    (velocity
     + inject_Z (Math_floor ((r - (1 # 2)) * inject_Z amount * 2)))%Q in
  ret (Qmin 127 (Qmax 1 varied)).

Fixpoint generateMotif_loop (n : nat) (scaleLength current : Z)
    (motif : list Z) : M (list Z) :=
  match n with
  | O => ret motif
  | S n' =>
      let motif := motif ++ [current] in
      r <- random ;;
      r' <- random ;;
      let step :=
        if Qltb r (7 # 10)
        then (if Qltb r' (1 # 2) then 1 else -1)
        else (if Qltb r' (1 # 2) then 2 else -2) in
      generateMotif_loop n' scaleLength
        (Z.max 0 (Z.min (scaleLength - 1) (current + step))) motif
  end.

(** Generate a melodic motif (short phrase that can be repeated/varied). *)
Definition generateMotif (scaleLength : Z) : M (list Z) :=
  r <- random ;;
  let motifLength := 4 + Math_floor (r * 4) in
  r' <- random ;;
  let current := Math_floor (r' * 3) + 2 in
  generateMotif_loop (Z.to_nat motifLength) scaleLength current [].

(** Get phrase type based on position within 4-bar grouping. *)
Definition getPhraseType (barNumber : Z) : M Phrase :=
  let phraseBar := rem barNumber 4 in
  r <- random ;;
  if phraseBar <? 2 then
    ret {| ph_type := question; ph_bars := 2;
           targetResolution := if Qltb (1 # 2) r then 4 else 1 |}
  else
    ret {| ph_type := answer; ph_bars := 2;
           targetResolution := if Qltb (6 # 10) r then 0 else 2 |}.

Definition levelMap (l : Level) : Q :=
  match l with
  | soft => 55
  | medium => 72
  | loud => 88
  end.

(** Get base velocity based on dynamics and position. *)
Definition getBaseVelocity (dynamics : Dynamics) (currentBar totalBars : Z)
  : Q :=
  let base := levelMap (level dynamics) in
  let phrasePos := rem currentBar 4 in
  let phraseDynamic :=
    if phrasePos <? 2 then phrasePos * 3 else (3 - phrasePos) * 3 in
  let progress := (inject_Z currentBar / inject_Z totalBars)%Q in
  let arcDynamic := (Math_sin (progress * Math_PI) * 8)%Q in
  Qmin 100
    (Qmax 40
       (base + velocityTrend dynamics * 10 + inject_Z phraseDynamic
        + arcDynamic)%Q).

Definition level_of_trend (velocityTrend : Q) : Level :=
  if Qltb (6 # 10) velocityTrend then loud
  else if Qltb velocityTrend (- (2 # 10)) then soft
  else medium.

(** Evolve dynamics. *)
Definition evolveDynamics (dynamics : Dynamics) (currentBar totalBars : Z)
  : M Dynamics :=
  let progress := (inject_Z currentBar / inject_Z totalBars)%Q in
  let trend := velocityTrend dynamics in
  dt <-
    (if Qltb progress (2 # 10) then
       ret (building, Qmin 1 (trend + (15 # 100)))
     else if Qltb progress (7 # 10) then
       r <- random ;;
       ret (stable, (trend + (r - (1 # 2)) * (1 # 10))%Q)
     else if Qltb progress (9 # 10) then
       ret (building, Qmin (12 # 10) (trend + (1 # 10)))
     else
       ret (fading, Qmax (- (3 # 10)) (trend - (1 # 10)))) ;;
  let trend' := Qmax (-1) (Qmin (12 # 10) (snd dt)) in
  ret {| level := level_of_trend trend';
         direction := fst dt;
         velocityTrend := trend' |}.

(** [arr[i]] read as a condition: a non-zero number is truthy. *)
Definition truthy_at (arr : list Z) (i : Z) : bool :=
  match at_index arr i with
  | Some v => negb (v =? 0)
  | None => false
  end.

(** One [track.addEvent(new MidiWriter.NoteEvent({...}))] whose velocity and
    start tick are humanized, in the order the object literal lists them. *)
Definition add_humanized (track : Track) (p : list Pitch) (d : Duration)
    (vel : Q) (vamount tick tamount : Z) (ch : option Z) : M Track :=
  v <- humanizeVelocity vel vamount ;;
  t <- humanizeTiming tick tamount ;;
  ret (addEvent track
         (Note {| pitch := p; duration := d; velocity := v;
                  startTick := t; channel := ch |})).

(** The same with a start tick that is not humanized. *)
Definition add_on_tick (track : Track) (p : list Pitch) (d : Duration)
    (vel : Q) (vamount tick : Z) : M Track :=
  v <- humanizeVelocity vel vamount ;;
  ret (addEvent track
         (Note {| pitch := p; duration := d; velocity := v;
                  startTick := tick; channel := None |})).

Definition floorQ (x : Q) : Q := inject_Z (Math_floor x).

Definition intensityMults (intensity : Intensity) : Q :=
  match intensity with
  | minimal => 6 # 10
  | light => 8 # 10
  | full => 1
  | building_up => 115 # 100
  end.

Definition is_minimal (intensity : Intensity) : bool :=
  match intensity with
  | minimal => true
  | _ => false
  end.

(** The body of the loop over the sixteen slots of a bar. *)
Definition generateDrums_slot (pattern : DrumPattern) (barNumber : Z)
    (style : string) (baseVelocity intensityMult densityMult : Q)
    (intensity : Intensity) (addFill : bool) (track : Track) (i : Z)
  : M Track :=
  let ticksPerSixteenth := 32 in
  let tick := barNumber * 512 + i * ticksPerSixteenth in
  if addFill && (12 <=? i) then
    (* Snare roll fill *)
    track <-
      add_humanized track [PitchName "D2"] Sixteenth
        (floorQ (baseVelocity * intensityMult
                 * ((8 # 10) + inject_Z (i - 12) * (1 # 10))))
        5 tick 2 (Some 10) ;;
    (* Tom fills *)
    if (i =? 13) || (i =? 15) then
      add_humanized track [PitchName "G2"] Sixteenth
        (floorQ (baseVelocity * intensityMult * (85 # 100)))
        5 tick 2 (Some 10)
    else ret track
  else
    (* Kick drum *)
    track <-
      (if truthy_at (kick pattern) i && (negb (is_minimal intensity) || (i =? 0))
       then add_humanized track [PitchName "C2"] Sixteenth
              (floorQ (baseVelocity * intensityMult)) 5 tick 2 (Some 10)
       else ret track) ;;
    (* Snare drum *)
    track <-
      (if truthy_at (snare pattern) i then
         r <- random ;;
         if Qltb r densityMult then
           add_humanized track [PitchName "D2"] Sixteenth
             (floorQ (baseVelocity * (9 # 10) * intensityMult))
             6 tick 3 (Some 10)
         else ret track
       else ret track) ;;
    (* Ghost notes on certain styles *)
    track <-
      (if (String.eqb style "lofi" || String.eqb style "jazz")
          && negb (is_minimal intensity) && ((i =? 6) || (i =? 10)) then
         r <- random ;;
         if Qltb (1 # 2) r then
           add_humanized track [PitchName "D2"] Sixteenth
             (floorQ (baseVelocity * (35 # 100))) 8 tick 5 (Some 10)
         else ret track
       else ret track) ;;
    (* Hi-hat - open hi-hat on builds *)
    track <-
      (if truthy_at (hihat pattern) i then
         r <- random ;;
         if Qltb r densityMult then
           let isOffbeat := rem i 2 =? 1 in
           let useOpenHihat :=
             match intensity with
             | building_up => rem i 4 =? 2
             | _ => false
             end in
           add_humanized track
             [PitchName (if useOpenHihat then "A#2" else "F#2")] Sixteenth
             (floorQ ((baseVelocity - 20)
                      * (if isOffbeat then 7 # 10 else 1) * intensityMult))
             10 tick 4 (Some 10)
         else ret track
       else ret track) ;;
    (* Ride cymbal for jazz *)
    if match ride pattern with
       | Some r => truthy_at r i
       | None => false
       end
    then
      r <- random ;;
      if Qltb r densityMult then
        add_humanized track [PitchName "D#3"] Sixteenth
          (floorQ (baseVelocity * (6 # 10) * intensityMult))
          8 tick 5 (Some 10)
      else ret track
    else ret track.

(** [DRUM_PATTERNS[style] || DRUM_PATTERNS.lofi]. *)
Definition drum_pattern (style : string) : looked_up DrumPattern :=
  get_or DRUM_PATTERNS style DRUM_PATTERNS_lofi.

(** Generate drum track for one bar with section awareness.  An inherited
    member has no [kick] array: reading slot 0 of it throws. *)
Definition generateDrums (track : Track) (barNumber : Z) (style : string)
    (baseVelocity : Q) (dynamics_direction : Direction)
    (intensity : Intensity) (addFill : bool) : M Track :=
  match drum_pattern style with
  | ProtoMember => throw TypeError
  | Entry pattern =>
      let intensityMult :=
        (intensityMults intensity
         * match dynamics_direction with
           | building => 11 # 10
           | fading => 9 # 10
           | stable => 1
           end)%Q in
      let densityMult : Q :=
        match intensity with
        | minimal => 4 # 10
        | light => 7 # 10
        | _ => 1%Q
        end in
      foldM
        (generateDrums_slot pattern barNumber style baseVelocity
           intensityMult densityMult intensity addFill)
        (upto 16) track
  end.

(** Generate pad/atmosphere. *)
Definition generatePad (track : Track) (chordNotes : list Pitch)
    (barNumber : Z) (baseVelocity : Q) : M Track :=
  add_on_tick track chordNotes Whole
    (floorQ (baseVelocity * (4 # 10))) 5 (barNumber * 512).

(** [chordNotes[idx % chordNotes.length]]. *)
Definition chord_note (chordNotes : list Pitch) (idx : Z) : Pitch :=
  read chordNotes (rem idx (Z.of_nat (List.length chordNotes))).

(** Generate chords with style-appropriate voicings and section
    awareness. *)
Definition generateChords (track : Track) (chordNotes : list Pitch)
    (barNumber : Z) (baseVelocity : Q) (style : string)
    (styleParams : looked_up StyleParams) (section : SongSection)
  : M Track :=
  let tick := barNumber * 512 in
  let sectionSparsity : Q :=
    match section with
    | intro => 5 # 10
    | outro => 6 # 10
    | climax => 12 # 10
    | _ => 1%Q
    end in
  let arpPattern :=
    match section with
    | climax => ARPEGGIO_PATTERNS_upDown
    | _ => ARPEGGIO_PATTERNS_up
    end in
  if String.eqb style "ambient" then
    (* Slow arpeggios - even slower in intro *)
    let noteDuration :=
      match section with
      | intro => 256
      | _ => 128
      end in
    foldM
      (fun track '(indices, i) =>
         add_humanized track (map (chord_note chordNotes) indices)
           match section with
           | intro => Half
           | _ => Quarter
           end
           (floorQ (baseVelocity * (6 # 10) * sectionSparsity)) 8
           (tick + i * noteDuration) 10 None)
      (indexed arpPattern) track
  else if String.eqb style "electronic" then
    (* Fast arpeggios - build intensity toward climax *)
    let noteCount :=
      match section with
      | intro => 4
      | climax => 16
      | _ => 8
      end in
    foldM
      (fun track i =>
         let noteIdx :=
           match
             at_index arpPattern (rem i (Z.of_nat (List.length arpPattern)))
           with
           | Some (idx :: _) => idx
           | _ => 0
           end in
         add_humanized track [chord_note chordNotes noteIdx] Sixteenth
           (floorQ (baseVelocity * (7 # 10) * sectionSparsity)) 10
           (tick + i * (512 / noteCount)) 3 None)
      (upto noteCount) track
  else if String.eqb style "lofi" || String.eqb style "jazz" then
    (* Syncopated chord hits - with swing feel *)
    let hits :=
      match section with
      | intro => [0; 8]
      | climax => [0; 2; 4; 6; 8; 10; 12; 14]
      | _ => [0; 3; 6; 10; 14]
      end in
    foldM
      (fun track pos =>
         r <- random ;;
         if Qltb ((3 # 10) * (2 - sectionSparsity)) r then
           (* Add swing to offbeats (delay slightly) *)
           let swingDelay :=
             if String.eqb style "jazz" && (rem pos 2 =? 1) then 8 else 0 in
           add_humanized track chordNotes Eighth
             (floorQ (baseVelocity * (65 # 100) * sectionSparsity)) 12
             (tick + pos * 32 + swingDelay) 8 None
         else ret track)
      hits track
  else
    (* Block chords (classical, default) *)
    let sustain :=
      match styleParams with
      | Entry sp => useSustain sp
      | ProtoMember => false
      end in
    if sustain || SongSection_eqb section intro
       || SongSection_eqb section outro then
      add_on_tick track chordNotes Whole
        (floorQ (baseVelocity * (7 # 10) * sectionSparsity)) 5 tick
    else
      (* Quarter note hits with varying intensity *)
      let beats :=
        match section with
        | climax => 4
        | verse => 4
        | _ => 2
        end in
      foldM
        (fun track beat =>
           add_humanized track chordNotes Quarter
             (floorQ (baseVelocity * (65 # 100) * sectionSparsity)) 8
             (tick + beat * 128) 5 None)
        (upto beats) track.

(** [chordNotes[k]?.replace(/\d+$/, '') + octave]: a pitch name, or the
    number [NaN] when the chord has no such note; [NaN] itself passes [?.]
    and has no [replace] method to call. *)
Definition bass_tone (chordNotes : list Pitch) (k octave : Z) : M Pitch :=
  match read chordNotes k with
  | PitchName s => ret (concat_number (Some (strip_trailing_digits s)) octave)
  | PitchUndefined => ret PitchNaN
  | PitchNaN => throw TypeError
  end.

(** Generate bass line with section awareness.  [progression] and
    [progressionPos] only feed [nextChord], which is never read. *)
Definition generateBass (track : Track) (bassRoot : string)
    (chordNotes : list Pitch) (barNumber : Z) (baseVelocity : Q)
    (style : string) (progression : list ProgressionEntry)
    (progressionPos : Z) (section : SongSection) : M Track :=
  let tick := barNumber * 512 in
  let rootNote := strip_trailing_digits bassRoot in
  let octave := 2 in
  (* Get chord tones in bass octave *)
  let root := concat_number (Some rootNote) octave in
  third <- bass_tone chordNotes 1 octave ;;
  fifth <- bass_tone chordNotes 2 octave ;;
  let octaveUp := concat_number (Some rootNote) (octave + 1) in
  let nextRootIdx := indexOf NOTES (Some rootNote) in
  let approachNote :=
    concat_number (at_index NOTES (rem (nextRootIdx + 11) 12)) octave in
  let bassVelocity := floorQ (baseVelocity * (85 # 100)) in
  let isClimax := SongSection_eqb section climax in
  if SongSection_eqb section intro || SongSection_eqb section outro then
    (* Sustained root notes only *)
    add_on_tick track [root] Whole (bassVelocity - 10) 5 tick
  else if String.eqb style "jazz" then
    (* Walking bass with chromatic approaches *)
    let walkingNotes :=
      if isClimax then [root; third; fifth; approachNote]
      else [root; fifth; root; approachNote] in
    foldM
      (fun track '(note, i) =>
         (* Swing feel - delay beats 2 and 4 slightly *)
         let swingDelay := if (i =? 1) || (i =? 3) then 12 else 0 in
         add_humanized track [note] Quarter bassVelocity 8
           (tick + i * 128 + swingDelay) 10 None)
      (indexed walkingNotes) track
  else if String.eqb style "lofi" then
    (* Groovy pattern - lazy timing (slightly late) *)
    let lazyOffset := 5 in
    let pattern :=
      if isClimax then
        [ (0, root, Eighth); (2, root, Sixteenth); (4, third, Eighth);
          (6, fifth, Eighth); (8, root, Eighth); (10, fifth, Sixteenth);
          (12, third, Eighth); (14, root, Eighth) ]
      else
        [ (0, root, Eighth); (3, root, Sixteenth); (6, fifth, Eighth);
          (8, root, Eighth); (11, third, Sixteenth); (14, fifth, Eighth) ] in
    foldM
      (fun track '(pos, note, dur) =>
         add_humanized track [note] dur bassVelocity 10
           (tick + pos * 32 + lazyOffset) 8 None)
      pattern track
  else if String.eqb style "electronic" then
    (* Offbeat bass - more intense in climax *)
    let noteCount := if isClimax then 16 else 8 in
    foldM
      (fun track i =>
         let note :=
           if rem i 2 =? 0 then root
           else if isClimax && (rem i 4 =? 1) then fifth else octaveUp in
         add_humanized track [note] (if isClimax then Sixteenth else Eighth)
           (bassVelocity + (if isClimax then 15 else 10)) 5
           (tick + i * (512 / noteCount)) 3 None)
      (upto noteCount) track
  else if String.eqb style "classical" then
    (* Alberti bass pattern *)
    let alberti :=
      if isClimax then [root; fifth; third; fifth; root; third; fifth; third]
      else [root; fifth; third; fifth; root; fifth; third; fifth] in
    foldM
      (fun track '(note, i) =>
         add_humanized track [note] Eighth (bassVelocity - 10) 8
           (tick + i * 64) 5 None)
      (indexed alberti) track
  else
    (* Ambient - long sustained notes with octave swells in climax *)
    if isClimax then
      track <- add_on_tick track [root] Half (bassVelocity - 10) 5 tick ;;
      add_on_tick track [octaveUp] Half (bassVelocity - 5) 5 (tick + 256)
    else
      add_on_tick track [root] Whole (bassVelocity - 15) 5 tick.

(** The variables the melody's [forEach] callback updates. *)
Record MelodyState : Type := {
  ms_track : Track;
  ms_currentNote : Pitch;
  ms_motifIdx : nat
}.

Definition strongBeats : list Z := [0; 8].
Definition allPositions : list Z := [0; 2; 4; 6; 8; 10; 12; 14].

(** The last branch of the note choice: approach the next strong beat's
    target or use a passing tone. *)
Definition melody_approach (scale chordNotes : list Pitch)
    (notePositions : list Z) (i : Z) (currentNote : Pitch)
  : M (Z * Z) :=
  currentMidi <- noteToMidi_of currentNote ;;
  let nextStrongBeatIdx :=
    findIndex (fun p idx => (i <? idx) && includes strongBeats p)
      notePositions in
  targetMidi <-
    (if negb (nextStrongBeatIdx =? -1) then
       (* Approach the target on the next strong beat *)
       nextTargetMidi <- noteToMidi_of (read chordNotes 0) ;;
       ret (currentMidi + (if currentMidi <? nextTargetMidi then 1 else -1))
     else
       (* Random scale tone, prefer stepwise motion *)
       r <- random ;;
       let step := if Qltb (1 # 2) r then 1 else -1 in
       r' <- random ;;
       ret (currentMidi + step * (if Qltb (7 # 10) r' then 2 else 1))) ;;
  targetScaleDegree <-
    findIndexM
      (fun s _ =>
         midi <- noteToMidi_of s ;; ret (rem midi 12 =? rem targetMidi 12))
      scale ;;
  ret (if targetScaleDegree =? -1 then 0 else targetScaleDegree, targetMidi).

(** [scale[targetScaleDegree % scale.length]]. *)
Definition scale_note (scale : list Pitch) (targetScaleDegree : Z)
  : Pitch :=
  read scale (rem targetScaleDegree (Z.of_nat (List.length scale))).

(** The callback of [notePositions.forEach]. *)
Definition generateMelody_note (scale chordNotes : list Pitch)
    (motif : list Z) (barNumber : Z) (baseVelocity : Q)
    (styleParams : looked_up StyleParams) (phrase : Phrase) (style : string)
    (notePositions chordMidis : list Z) (isEndOfPhrase : bool)
    (phraseTargetMidi : Z) (st : MelodyState) (pos_i : Z * Z)
  : M MelodyState :=
  let '(pos, i) := pos_i in
  let tick := barNumber * 512 in
  let currentNote := ms_currentNote st in
  let motifIdx := ms_motifIdx st in
  let isLastNoteOfPhrase :=
    (i =? Z.of_nat (List.length notePositions) - 1) && isEndOfPhrase in
  let isStrongBeat := includes strongBeats pos in
  (* Get next note from motif, approach chord tone, or resolve phrase *)
  choice <-
    (if isLastNoteOfPhrase then
       (* End of phrase - resolve to phrase target *)
       ret (targetResolution phrase, phraseTargetMidi, motifIdx)
     else if isStrongBeat then
       (* Strong beats - prefer chord tones *)
       r <- random ;;
       let chordToneIdx :=
         Math_floor (r * inject_Z (Z.of_nat (List.length chordNotes))) in
       let chordTone := read chordNotes chordToneIdx in
       found <-
         findIndexM
           (fun s _ =>
              name <- without_octave s ;;
              chordName <- without_octave chordTone ;;
              ret (String.eqb name chordName))
           scale ;;
       let '(targetScaleDegree, motifIdx) :=
         if found =? -1 then
           match nth_error motif motifIdx with
           | Some degree => (degree, S motifIdx)
           | None => (0, motifIdx)
           end
         else (found, motifIdx) in
       targetMidi <- noteToMidi_of (scale_note scale targetScaleDegree) ;;
       ret (targetScaleDegree, targetMidi, motifIdx)
     else
       match nth_error motif motifIdx with
       | Some degree =>
           r <- random ;;
           if Qltb (4 # 10) r then
             (* Use motif *)
             targetMidi <- noteToMidi_of (scale_note scale degree) ;;
             ret (degree, targetMidi, S motifIdx)
           else
             a <- melody_approach scale chordNotes notePositions i
                    currentNote ;;
             ret (a, motifIdx)
       | None =>
           a <- melody_approach scale chordNotes notePositions i
                  currentNote ;;
           ret (a, motifIdx)
       end) ;;
  let '(targetScaleDegree, targetMidi, motifIdx) := choice in
  (* Get actual note with octave adjustment *)
  let note := scale_note scale targetScaleDegree in
  midi <- (if targetMidi =? 0 then noteToMidi_of note else ret targetMidi) ;;
  (* Adjust octave to be in range and close to previous note *)
  prevMidi <- noteToMidi_of currentNote ;;
  octaveRange <-
    match styleParams with
    | Entry sp => ret (octaveRange sp)
    | ProtoMember => throw TypeError
    end ;;
  let midi := raise_octaves ((fst octaveRange + 1) * 12) midi in
  let midi := lower_octaves ((snd octaveRange + 1) * 12 + 11) midi in
  (* Prefer stepwise motion - adjust if too far *)
  let maxInterval :=
    if String.eqb style "jazz" then 9
    else if String.eqb style "classical" then 8 else 6 in
  midi <-
    (if maxInterval <? Z.abs (midi - prevMidi) then
       r <- random ;;
       if Qltb (15 # 100) r then
         let direction := if prevMidi <? midi then 1 else -1 in
         r' <- random ;;
         ret (prevMidi + direction * (if Qltb (1 # 2) r' then 3 else 2))
       else ret midi
     else ret midi) ;;
  let note := midiToNote midi in
  (* Determine velocity with phrase-level dynamics *)
  let isChordTone := includes chordMidis (rem midi 12) in
  let isDownbeat := (pos =? 0) || (pos =? 8) in
  let velocity := baseVelocity in
  (* Chord tones and downbeats get emphasis *)
  let velocity := if isChordTone then (velocity + 8)%Q else velocity in
  let velocity := if isDownbeat then (velocity + 5)%Q else velocity in
  (* Phrase dynamics - question phrases crescendo, answer phrases
     decrescendo *)
  let phraseProgress :=
    (inject_Z i
     / inject_Z (Z.max 1 (Z.of_nat (List.length notePositions) - 1)))%Q in
  let velocity :=
    match ph_type phrase with
    | question => (velocity + floorQ (phraseProgress * 8))%Q
    | answer => (velocity - floorQ (phraseProgress * 6))%Q
    end in
  (* Add style-specific timing feel *)
  timingOffset <-
    (if String.eqb style "jazz" && negb isDownbeat then ret 8
     else if String.eqb style "lofi" then
       r <- random ;; ret (Math_floor (r * 6) + 2)
     else ret 0) ;;
  velocity <- humanizeVelocity velocity 10 ;;
  (* Determine duration based on position and style; Math.random() < 1
     keeps the index into [durations] in range *)
  duration <-
    (if isLastNoteOfPhrase
        && match ph_type phrase with answer => true | question => false end
     then ret Quarter
     else if isDownbeat then
       r <- random ;; ret (if Qltb (1 # 2) r then Quarter else Eighth)
     else
       let durations :=
         if String.eqb style "ambient" then [Quarter; Half; Quarter]
         else [Eighth; Eighth; Quarter; Eighth; Sixteenth] in
       r <- random ;;
       ret (nth
              (Z.to_nat
                 (Math_floor (r * inject_Z (Z.of_nat (List.length durations)))))
              durations Quarter)) ;;
  startTick <-
    humanizeTiming (tick + pos * 32 + timingOffset)
      (if String.eqb style "lofi" then 10 else 6) ;;
  ret {| ms_track :=
           addEvent (ms_track st)
             (Note {| pitch := [note]; duration := duration;
                      velocity := velocity; startTick := startTick;
                      channel := None |});
         ms_currentNote := note;
         ms_motifIdx := motifIdx |}.

(** Generate melody using motif with phrase-based structure and
    tension-resolution.  [effectiveDensity] is [None] when the product that
    defines it is [NaN]; every comparison with it is then false. *)
Definition generateMelody (track : Track) (scale chordNotes : list Pitch)
    (motif : list Z) (barNumber : Z) (baseVelocity : Q)
    (styleParams : looked_up StyleParams) (lastNote : Pitch)
    (phrase : Phrase) (effectiveDensity : option Q) (style : string)
  : M (Track * Pitch) :=
  (* Get chord tones for emphasis *)
  midis <- mapM noteToMidi_of chordNotes ;;
  let chordMidis := map (fun n => rem n 12) midis in
  let isAnswer :=
    match ph_type phrase with
    | answer => true
    | question => false
    end in
  let isEndOfPhrase := rem (barNumber + 1) 2 =? 0 in
  let phraseDensityMod : Q :=
    if isAnswer && isEndOfPhrase then 7 # 10 else 1%Q in
  (* Filter positions based on density *)
  notePositions <-
    filterM
      (fun pos =>
         let isStrong := includes strongBeats pos in
         r <- random ;;
         ret match effectiveDensity with
             | Some density =>
                 Qltb r (if isStrong then density * (13 # 10)
                         else density * phraseDensityMod)
             | None => false
             end)
      allPositions ;;
  (* Add breathing room at end of answer phrases (rest) *)
  let notePositions :=
    if isAnswer && isEndOfPhrase && includes notePositions 14
    then removelast notePositions else notePositions in
  (* Track phrase target for resolution *)
  phraseTargetMidi <- noteToMidi_of (scale_note scale (targetResolution phrase)) ;;
  st <-
    foldM
      (generateMelody_note scale chordNotes motif barNumber baseVelocity
         styleParams phrase style notePositions chordMidis isEndOfPhrase
         phraseTargetMidi)
      (indexed notePositions)
      {| ms_track := track; ms_currentNote := lastNote; ms_motifIdx := O |} ;;
  ret (ms_track st, ms_currentNote st).

(** [STYLE_PARAMS[style] || STYLE_PARAMS.ambient]. *)
Definition style_params (style : string) : looked_up StyleParams :=
  get_or STYLE_PARAMS style STYLE_PARAMS_ambient.

(** The variables of [generateSegment] that the bar loop updates. *)
Record LoopState : Type := {
  ls_melodyTrack : Track;
  ls_chordTrack : Track;
  ls_bassTrack : Track;
  ls_padTrack : Track;
  ls_drumTrack : Track;
  ls_progressionPos : Z;
  ls_dynamics : Dynamics;
  ls_motifVariation : Z;
  ls_endingNotes : LastNotes;
  ls_lastMelodyNote : Pitch
}.

(** The progression as the array the loop body and the final chord index
    into: an inherited member has no numeric properties, so [progression[i]]
    is [undefined] and reading its components throws. *)
Definition progression_array
    (progression : looked_up (list ProgressionEntry))
  : M (list ProgressionEntry) :=
  match progression with
  | Entry p => ret p
  | ProtoMember => throw TypeError
  end.

(** [progression[i]] read for its components: [undefined] has none. *)
Definition progression_entry (p : list ProgressionEntry) (i : Z)
  : M ProgressionEntry :=
  match at_index p i with
  | Some e => ret e
  | None => throw TypeError
  end.

(** The index the loop reads the current chord from. *)
Definition current_index (progressionPos : Z) (p : list ProgressionEntry)
  : Z :=
  rem progressionPos (Z.of_nat (List.length p)).

(** The index [finalChord] is read from. *)
Definition final_index (progressionPos : Z) (p : list ProgressionEntry) : Z :=
  rem (progressionPos - 1 + Z.of_nat (List.length p))
    (Z.of_nat (List.length p)).

(** [progressionPos = (progressionPos + 1) % progression.length]. *)
Definition advance (progressionPos length : Z) : Z :=
  rem (progressionPos + 1) length.

(** [chordNotes[0].replace(/\d+$/, '')]. *)
Definition chord_root_name (chordNotes : list Pitch) : M string :=
  without_octave (read chordNotes 0).

(** [(bar + 1) % progressionRate === 0]; the remainder by an inherited
    member is [NaN]. *)
Definition progression_advances (style : string) (bar : Z) : bool :=
  match getProgressionRate style with
  | Entry progressionRate => rem (bar + 1) progressionRate =? 0
  | ProtoMember => false
  end.

(** The base velocity of a bar, as the loop hands it to the track
    generators. *)
Definition bar_baseVelocity (dynamics : Dynamics) (bar bars : Z)
    (sectionConfig : SectionConfig) : Q :=
  (getBaseVelocity dynamics bar bars + sc_velocityMod sectionConfig)%Q.

(** The body of the bar loop. *)
Definition generateSegment_bar (bars : Z) (key mode style : string)
    (totalBarsOffset : Z) (extensionDirection : ExtensionDirection)
    (styleParams : looked_up StyleParams) (scale : list Pitch)
    (progression : looked_up (list ProgressionEntry)) (motif : list Z)
    (st : LoopState) (bar : Z) : M LoopState :=
  let progressionPos := ls_progressionPos st in
  let dynamics := ls_dynamics st in
  p <- progression_array progression ;;
  chord <- progression_entry p (current_index progressionPos p) ;;
  let '(chordDegree, chordType) := chord in
  chordNotes <- lift (getChordFromDegree key mode chordDegree chordType 3) ;;
  chordNotesHigh <-
    lift (getChordFromDegree key mode chordDegree chordType 4) ;;
  rootName <- chord_root_name chordNotes ;;
  let bassRoot := (rootName ++ "2")%string in
  (* Get current song section and its configuration *)
  let section :=
    getSongSection bar bars totalBarsOffset extensionDirection in
  let sectionConfig := SECTION_CONFIGS section in
  phrase <- getPhraseType bar ;;
  (* Apply section-based velocity modification *)
  let baseVelocity := bar_baseVelocity dynamics bar bars sectionConfig in
  (* Determine if we're at a section boundary (for fills) *)
  let isLastBarOfSection :=
    negb (SongSection_eqb (getSongSection (bar + 1) bars 0 continue)
            section) in
  (* Generate drums based on section intensity *)
  drumTrack <-
    match sc_drums sectionConfig with
    | Some intensity =>
        generateDrums (ls_drumTrack st) bar style baseVelocity
          (direction dynamics) intensity isLastBarOfSection
    | None => ret (ls_drumTrack st)
    end ;;
  (* Generate pad/atmosphere based on section *)
  padTrack <-
    (if sc_pad sectionConfig
        && (String.eqb style "ambient" || String.eqb style "electronic"
            || SongSection_eqb section intro
            || SongSection_eqb section outro)
     then
       generatePad (ls_padTrack st) chordNotesHigh bar
         (baseVelocity
          * (if SongSection_eqb section climax then 11 # 10 else 9 # 10))
     else ret (ls_padTrack st)) ;;
  (* Generate chords based on section *)
  chordTrack <-
    (if sc_chords sectionConfig then
       generateChords (ls_chordTrack st) chordNotes bar baseVelocity style
         styleParams section
     else ret (ls_chordTrack st)) ;;
  (* Generate bass *)
  bassTrack <-
    (if sc_bass sectionConfig then
       generateBass (ls_bassTrack st) bassRoot chordNotes bar baseVelocity
         style p progressionPos section
     else ret (ls_bassTrack st)) ;;
  (* Generate melody using motif and phrase structure *)
  melody' <-
    (if sc_melody sectionConfig then
       let currentMotif :=
         varyMotif motif (ls_motifVariation st)
           (Z.of_nat (List.length scale)) in
       let effectiveDensity :=
         match styleParams with
         | Entry sp => Some (noteDensity sp * sc_density sectionConfig)%Q
         | ProtoMember => None
         end in
       generateMelody (ls_melodyTrack st) scale chordNotes currentMotif bar
         baseVelocity styleParams (ls_lastMelodyNote st) phrase
         effectiveDensity style
     else ret (ls_melodyTrack st, ls_lastMelodyNote st)) ;;
  let '(melodyTrack, lastMelodyNote) := melody' in
  (* Track ending notes *)
  let endingNotes :=
    if bars - 2 <=? bar then
      {| melody := melody (ls_endingNotes st) ++ [(lastMelodyNote, baseVelocity)];
         bass := bass (ls_endingNotes st) ++ [(bassRoot, baseVelocity)];
         chords := chords (ls_endingNotes st) ++ [(chordNotes, baseVelocity)] |}
    else ls_endingNotes st in
  (* Advance progression *)
  let advances := progression_advances style bar in
  let progressionPos' :=
    if advances then advance progressionPos (Z.of_nat (List.length p))
    else progressionPos in
  let motifVariation :=
    if advances then ls_motifVariation st + 1 else ls_motifVariation st in
  (* Evolve dynamics *)
  dynamics' <- evolveDynamics dynamics bar bars ;;
  ret {| ls_melodyTrack := melodyTrack;
         ls_chordTrack := chordTrack;
         ls_bassTrack := bassTrack;
         ls_padTrack := padTrack;
         ls_drumTrack := drumTrack;
         ls_progressionPos := progressionPos';
         ls_dynamics := dynamics';
         ls_motifVariation := motifVariation;
         ls_endingNotes := endingNotes;
         ls_lastMelodyNote := lastMelodyNote |}.

Definition default_dynamics : Dynamics :=
  {| level := medium; direction := stable; velocityTrend := 0 |}.

(** [continuationContext?.lastNotes?.melody?.[0]?.note] when it is truthy:
    an empty string is falsy like [undefined] and [NaN]. *)
Definition context_melody_note (continuationContext : option ContinuationContext)
  : option string :=
  match continuationContext with
  | Some c =>
      match melody (ctx_lastNotes c) with
      | (PitchName note, _) :: _ =>
          if String.eqb note "" then None else Some note
      | _ => None
      end
  | None => None
  end.

(** [scale[motif[0]]]. *)
Definition motif_start_note (scale : list Pitch) (motif : list Z) : Pitch :=
  match motif with
  | degree :: _ => read scale degree
  | [] => PitchUndefined
  end.

(** The state the bar loop starts from: everything [generateSegment] sets
    up before its [for] statement. *)
Definition generateSegment_init (tempo : Q) (style : string)
    (scale : list Pitch)
    (continuationContext : option ContinuationContext)
  : M (list Z * LoopState) :=
  (* Set up tracks, tempo and instruments *)
  let instruments := getInstrumentsForStyle style in
  let program f := ProgramChangeEvent (instrument_field f instruments) in
  let melodyTrack := addEvent (setTempo [] tempo) (program i_melody) in
  let chordTrack := addEvent [] (program i_chords) in
  let bassTrack := addEvent [] (program i_bass) in
  let padTrack := addEvent [] (program i_pad) in
  let drumTrack : Track := [] in
  (* Initialize state *)
  let progressionPos :=
    match continuationContext with
    | Some c => ctx_progressionPosition c
    | None => 0
    end in
  let dynamics :=
    match continuationContext with
    | Some c => ctx_dynamics c
    | None => default_dynamics
    end in
  (* Generate or continue motif *)
  motif <-
    match continuationContext with
    | Some {| ctx_motif := Some m |} => ret m
    | _ => generateMotif (Z.of_nat (List.length scale))
    end ;;
  let lastMelodyNote :=
    match context_melody_note continuationContext with
    | Some note => PitchName note
    | None => motif_start_note scale motif
    end in
  ret (motif,
       {| ls_melodyTrack := melodyTrack;
          ls_chordTrack := chordTrack;
          ls_bassTrack := bassTrack;
          ls_padTrack := padTrack;
          ls_drumTrack := drumTrack;
          ls_progressionPos := progressionPos;
          ls_dynamics := dynamics;
          ls_motifVariation := 0;
          ls_endingNotes := {| melody := []; bass := []; chords := [] |};
          ls_lastMelodyNote := lastMelodyNote |}).

(** Generate a complete MIDI segment. *)
Definition generateSegment (options : GenerationOptions)
    (continuationContext : option ContinuationContext) : M GenerationResult :=
  let bars := or_default (opt_bars options) 16 in
  let key := or_default (opt_key options) "C"%string in
  let mode := or_default (opt_mode options) "major"%string in
  let tempo := or_default (opt_tempo options) 90%Q in
  let style := or_default (opt_style options) "ambient"%string in
  let totalBarsOffset := or_default (opt_totalBarsOffset options) 0 in
  let extensionDirection :=
    or_default (opt_extensionDirection options) continue in
  let styleParams := style_params style in
  scale <- lift (getScale key mode 4) ;;
  (* Get progression *)
  let progression := getProgression style in
  init <- generateSegment_init tempo style scale continuationContext ;;
  let '(motif, st0) := init in
  (* Generate each bar with section awareness *)
  st <-
    foldM
      (generateSegment_bar bars key mode style totalBarsOffset
         extensionDirection styleParams scale progression motif)
      (upto bars) st0 ;;
  let progressionPos := ls_progressionPos st in
  let durationSeconds :=
    Number_mul
      (Number_div (Number_mul (Number_of_Z bars) (Number_of_Z 4))
         (Number_of_Q tempo))
      (Number_of_Z 60) in
  p <- progression_array progression ;;
  finalChord <- progression_entry p (final_index progressionPos p) ;;
  finalChordNotes <-
    lift (getChordFromDegree key mode (fst finalChord) (snd finalChord) 3) ;;
  endingChord <- chord_root_name finalChordNotes ;;
  ret {| melodyTrack := ls_melodyTrack st;
         chordTrack := ls_chordTrack st;
         bassTrack := ls_bassTrack st;
         padTrack := ls_padTrack st;
         drumTrack := ls_drumTrack st;
         segmentInfo :=
           {| bars := bars;
              durationSeconds := durationSeconds;
              endingNotes := ls_endingNotes st;
              endingChord := endingChord;
              endingChordType := snd finalChord;
              progressionPosition := progressionPos;
              dynamics := ls_dynamics st;
              motif := motif |} |}.

End Environment.

End Generator.

Import Generator.

(* ================================================================== *)
(** ** music-theory.ts and generator.ts: the two functions nothing calls *)

Module NextNotes.

Section Environment.

Variable Math_random : nat -> Q.

(** The weight [getNextMelodicNote] gives to a nearby note. *)
Definition note_weight (currentMidi : Z) (chordMidis : list Z)
    (direction : Z) (leap : bool) (midi : Z) : Z :=
  let weight := 1 in
  (* Prefer chord tones *)
  let weight :=
    if includes chordMidis (rem midi 12) then weight + 2 else weight in
  (* Apply direction preference *)
  let weight :=
    if (0 <? direction) && (currentMidi <? midi) then weight + 1
    else weight in
  let weight :=
    if (direction <? 0) && (midi <? currentMidi) then weight + 1
    else weight in
  (* Prefer stepwise motion unless leap requested *)
  let interval := Z.abs (midi - currentMidi) in
  let weight :=
    if negb leap && (interval <=? 2) then weight + 2 else weight in
  let weight :=
    if leap && (3 <=? interval) && (interval <=? 7) then weight + 2
    else weight in
  weight.

(** The loop of the weighted random selection: the first note at which the
    running [random] is used up, if there is one. *)
Fixpoint weighted_selection (weighted : list (Z * Z)) (random : Q)
  : option Z :=
  match weighted with
  | [] => None
  | (midi, weight) :: rest =>
      let random := (random - inject_Z weight)%Q in
      if Qle_bool random 0 then Some midi
      else weighted_selection rest random
  end.

(** music-theory.ts: generate a melody note that fits the current
    chord/scale. *)
Definition getNextMelodicNote (currentNote : string)
    (scale chord : list string) (direction : Z) (leap : bool) : M Pitch :=
  let currentMidi := noteToMidi currentNote in
  let scaleNotes := map noteToMidi scale in
  (* Find nearby scale notes *)
  let nearbyNotes :=
    filter
      (fun midi =>
         existsb (fun n => rem midi 12 =? rem n 12) scaleNotes)
      (map (fun k => currentMidi + (k - 12)) (upto 25)) in
  (* Weight notes based on direction preference and chord tones *)
  let chordMidis := map (fun n => rem n 12) (map noteToMidi chord) in
  let weighted :=
    map (fun midi =>
           (midi, note_weight currentMidi chordMidis direction leap midi))
      nearbyNotes in
  (* Weighted random selection *)
  let totalWeight := fold_left (fun sum w => sum + snd w) weighted 0 in
  r <- random Math_random ;;
  match weighted_selection weighted (r * inject_Z totalWeight) with
  | Some midi => ret (midiToNote midi)
  | None => ret (PitchName currentNote)
  end.

(** [arr.filter(f).pop()]: the last element kept, if any. *)
Definition last_kept (f : Z -> bool) (arr : list Z) : option Z :=
  last (map Some (filter f arr)) None.

(** [x || fallback] for a number that may be [undefined]: 0 is falsy. *)
Definition number_or (x : option Z) (fallback : Z) : Z :=
  match x with
  | Some v => if v =? 0 then fallback else v
  | None => fallback
  end.

(** generator.ts: get approach note to target. *)
Definition getApproachNote (targetMidi : Z) (scale : list string)
    (approachType : string) : M Z :=
  let scaleMidis := map noteToMidi scale in
  if String.eqb approachType "chromatic" then
    (* Half step below or above *)
    r <- random Math_random ;;
    ret (if Qltb (1 # 2) r then targetMidi - 1 else targetMidi + 1)
  else if String.eqb approachType "scale" then
    (* Find nearest scale tone below or above *)
    let below :=
      number_or (last_kept (fun m => m <? targetMidi) scaleMidis)
        (targetMidi - 2) in
    let above :=
      number_or (find (fun m => targetMidi <? m) scaleMidis)
        (targetMidi + 2) in
    r <- random Math_random ;;
    ret (if Qltb (1 # 2) r then below else above)
  else if String.eqb approachType "enclosure" then
    (* Note above then below (returns the first approach note) *)
    ret (targetMidi + 1)
  else ret (targetMidi - 1).

End Environment.

End NextNotes.

(* ================================================================== *)
(** ** The [Map] and [Set] objects the server keeps its state in *)

Module Collections.

(** A [Map] with string keys: its entries, in the order their keys were
    first set. *)
Definition Map (V : Type) : Type := list (string * V).

Fixpoint Map_get {V} (m : Map V) (k : string) : option V :=
  match m with
  | [] => None
  | (k', v) :: rest => if String.eqb k k' then Some v else Map_get rest k
  end.

Fixpoint Map_set {V} (m : Map V) (k : string) (v : V) : Map V :=
  match m with
  | [] => [(k, v)]
  | (k', v') :: rest =>
      if String.eqb k k' then (k', v) :: rest
      else (k', v') :: Map_set rest k v
  end.

Fixpoint Map_delete {V} (m : Map V) (k : string) : Map V :=
  match m with
  | [] => []
  | (k', v') :: rest =>
      if String.eqb k k' then rest else (k', v') :: Map_delete rest k
  end.

Definition Map_has {V} (m : Map V) (k : string) : bool :=
  match Map_get m k with
  | Some _ => true
  | None => false
  end.

(** A [Set] of strings: its elements, in the order they were added. *)
Definition StringSet : Type := list string.

Definition Set_has (s : StringSet) (x : string) : bool :=
  existsb (String.eqb x) s.

Definition Set_add (s : StringSet) (x : string) : StringSet :=
  if Set_has s x then s else s ++ [x].

Definition Set_delete (s : StringSet) (x : string) : StringSet :=
  filter (fun y => negb (String.eqb x y)) s.

Definition Set_size (s : StringSet) : Z := Z.of_nat (List.length s).

End Collections.

Import Collections.

(* ================================================================== *)
(** ** session.ts *)

Module Session.

(** [s.padStart(targetLength, c)] for a pad string of one character. *)
Fixpoint repeat_char (c : ascii) (n : nat) : string :=
  match n with
  | O => EmptyString
  | S n' => String c (repeat_char c n')
  end.

Definition padStart (s : string) (targetLength : nat) (c : ascii) : string :=
  (repeat_char c (targetLength - String.length s) ++ s)%string.

(** [arr.slice(start)] for an integral [start]: a negative start counts from
    the end, and [-0] is [0]. *)
Definition slice_from {A} (arr : list A) (start : Z) : list A :=
  let len := Z.of_nat (List.length arr) in
  let first := if start <? 0 then Z.max (len + start) 0 else Z.min start len in
  skipn (Z.to_nat first) arr.

(** [x % m] on numbers: the remainder takes the sign of [x]. *)
Definition Number_rem (x : Q) (m : Z) : Q :=
  let q := (x / inject_Z m)%Q in
  let truncated := if Qltb q 0 then Qceiling q else Qfloor q in
  (x - inject_Z m * inject_Z truncated)%Q.

Record GenerationParams : Type := {
  gp_key : string;
  gp_mode : string;
  gp_tempo : Q;
  gp_style : string;
  gp_bars : Z
}.

Record MusicalState : Type := {
  state_key : string;
  state_mode : string;
  state_tempo : Q;
  state_style : string;
  state_progressionPosition : Z;
  state_currentChord : option string;
  state_currentChordType : option string;
  state_lastNotes : LastNotes;
  state_dynamics : Dynamics;
  state_totalBars : Z;
  state_totalDurationSeconds : spec_float
}.

Record Segment : Type := {
  seg_id : string;
  seg_filename : string;
  seg_bars : Z;
  seg_durationSeconds : spec_float;
  seg_midiBase64 : string;
  seg_generatedAt : string
}.

(** [Omit<JourneyStep, 'timestamp'>]. *)
Record JourneyStepFields : Type := {
  step_style : string;
  step_mode : string;
  step_key : string;
  step_tempo : Q;
  step_bars : Z;
  step_direction : ExtensionDirection
}.

(** [{...step, timestamp}]. *)
Record JourneyStep : Type := {
  step_fields : JourneyStepFields;
  step_timestamp : string
}.

Record Session : Type := {
  id : string;
  projectName : string;
  state : MusicalState;
  segments : list Segment;
  journey : list JourneyStep;
  createdAt : string;
  updatedAt : string
}.

(** The in-memory session storage. *)
Definition Sessions : Type := Map Session.

(** Create initial musical state. *)
Definition createInitialState (params : GenerationParams) : MusicalState :=
  {| state_key := gp_key params;
     state_mode := gp_mode params;
     state_tempo := gp_tempo params;
     state_style := gp_style params;
     state_progressionPosition := 0;
     state_currentChord := None;
     state_currentChordType := None;
     state_lastNotes := {| melody := []; bass := []; chords := [] |};
     state_dynamics :=
       {| level := medium; direction := stable; velocityTrend := 0 |};
     state_totalBars := 0;
     state_totalDurationSeconds := Number_of_Z 0 |}.

(** Create a new session.  [uuid] is what [uuidv4()] returns, [now] and
    [now'] what the two [new Date().toISOString()] return. *)
Definition createSession (uuid now now' : string) (sessions : Sessions)
    (project : string) (params : GenerationParams) : Sessions * Session :=
  let session :=
    {| id := uuid;
       projectName := project;
       state := createInitialState params;
       segments := [];
       journey := [];
       createdAt := now;
       updatedAt := now' |} in
  (Map_set sessions (id session) session, session).

(** Get session by ID. *)
Definition getSession (sessions : Sessions) (sessionId : string)
  : option Session :=
  Map_get sessions sessionId.

(** What [updateSessionWithSegment] comes to: the [Error] it throws for a
    session it does not find, or the storage after the update with the
    segment record it returns. *)
Inductive updated : Type :=
| SessionNotFound (sessionId : string)
| Updated (sessions : Sessions) (segment : Segment).

(** Update session after generating a segment. *)
Definition updateSessionWithSegment (uuid now now' : string)
    (sessions : Sessions) (sessionId midiBase64 : string)
    (info : SegmentInfo) : updated :=
  match Map_get sessions sessionId with
  | None => SessionNotFound sessionId
  | Some session =>
      (* Create segment record *)
      let segment :=
        {| seg_id := uuid;
           seg_filename :=
             (projectName session ++ "-"
              ++ padStart
                   (Number_toString
                      (Z.of_nat (List.length (segments session)) + 1))
                   3 "0"
              ++ ".mid")%string;
           seg_bars := bars info;
           seg_durationSeconds := durationSeconds info;
           seg_midiBase64 := midiBase64;
           seg_generatedAt := now |} in
      (* Update session state *)
      let st := state session in
      let session' :=
        {| id := id session;
           projectName := projectName session;
           state :=
             {| state_key := state_key st;
                state_mode := state_mode st;
                state_tempo := state_tempo st;
                state_style := state_style st;
                state_progressionPosition := progressionPosition info;
                state_currentChord := Some (endingChord info);
                state_currentChordType := Some (endingChordType info);
                state_lastNotes := endingNotes info;
                state_dynamics := dynamics info;
                state_totalBars := state_totalBars st + bars info;
                state_totalDurationSeconds :=
                  Number_add (state_totalDurationSeconds st)
                    (durationSeconds info) |};
           segments := segments session ++ [segment];
           journey := journey session;
           createdAt := createdAt session;
           updatedAt := now' |} in
      Updated (Map_set sessions sessionId session') segment
  end.

(** Get continuation context from session.  The object it builds has no
    [motif] property. *)
Definition getContinuationContext (sessions : Sessions) (sessionId : string)
  : option ContinuationContext :=
  match Map_get sessions sessionId with
  | None => None
  | Some session =>
      let st := state session in
      if state_totalBars st =? 0 then None
      else
        Some {| ctx_key := state_key st;
                ctx_mode := state_mode st;
                ctx_tempo := state_tempo st;
                ctx_style := state_style st;
                ctx_progressionPosition := state_progressionPosition st;
                ctx_currentChord := state_currentChord st;
                ctx_currentChordType := state_currentChordType st;
                ctx_lastNotes := state_lastNotes st;
                ctx_dynamics := state_dynamics st;
                ctx_totalBars := state_totalBars st;
                ctx_motif := None |}
  end.

(** Add a journey step (for tracking infinite mode decisions). *)
Definition addJourneyStep (now : string) (sessions : Sessions)
    (sessionId : string) (step : JourneyStepFields) : Sessions :=
  match Map_get sessions sessionId with
  | None => sessions
  | Some session =>
      Map_set sessions sessionId
        {| id := id session;
           projectName := projectName session;
           state := state session;
           segments := segments session;
           journey :=
             journey session
             ++ [{| step_fields := step; step_timestamp := now |}];
           createdAt := createdAt session;
           updatedAt := updatedAt session |}
  end.

(** Get journey summary for AI decisions (last N steps). *)
Definition getJourneySummary (sessions : Sessions) (sessionId : string)
    (maxSteps : Z) : list JourneyStep :=
  match Map_get sessions sessionId with
  | None => []
  | Some session => slice_from (journey session) (- maxSteps)
  end.

(** Reset session (clear segments but keep settings). *)
Definition resetSession (now : string) (sessions : Sessions)
    (sessionId : string) : Sessions * option Session :=
  match Map_get sessions sessionId with
  | None => (sessions, None)
  | Some session =>
      let st := state session in
      let session' :=
        {| id := id session;
           projectName := projectName session;
           state :=
             {| state_key := state_key st;
                state_mode := state_mode st;
                state_tempo := state_tempo st;
                state_style := state_style st;
                state_progressionPosition := 0;
                state_currentChord := None;
                state_currentChordType := None;
                state_lastNotes :=
                  {| melody := []; bass := []; chords := [] |};
                state_dynamics :=
                  {| level := medium; direction := stable;
                     velocityTrend := 0 |};
                state_totalBars := 0;
                state_totalDurationSeconds := Number_of_Z 0 |};
           segments := [];
           journey := [];
           createdAt := createdAt session;
           updatedAt := now |} in
      (Map_set sessions sessionId session', Some session')
  end.

(** Delete session. *)
Definition deleteSession (sessions : Sessions) (sessionId : string)
  : Sessions * bool :=
  (Map_delete sessions sessionId, Map_has sessions sessionId).

(** Format duration as MM:SS.  The quotient by 60 is taken exactly; the
    digits are those the code prints while the minutes stay below 2^53. *)
Definition formatDuration (seconds : Q) : string :=
  let mins := Math_floor (seconds / 60) in
  let secs := Math_floor (Number_rem seconds 60) in
  (Number_toString mins ++ ":" ++ padStart (Number_toString secs) 2 "0")%string.

(** Cleanup old sessions (call periodically).  [now] is [Date.now()] and
    [getTime] reads an ISO string back into milliseconds; it has no answer
    for a string that is no date, and the comparison with [NaN] is then
    false. *)
Definition cleanupOldSessions (getTime : string -> option Z) (now : Z)
    (sessions : Sessions) (maxAgeMs : Z) : Sessions :=
  filter
    (fun entry =>
       match getTime (updatedAt (snd entry)) with
       | Some updated => negb (maxAgeMs <? now - updated)
       | None => true
       end)
    sessions.

End Session.

(* ================================================================== *)
(** ** feedback-manager.ts *)

Module Feedback.

Record VoteRecord : Type := {
  upvotes : StringSet;   (* WebSocket IDs who upvoted *)
  downvotes : StringSet  (* WebSocket IDs who downvoted *)
}.

Record PatternFeedback : Type := {
  patternId : string;
  fb_upvotes : Z;
  fb_downvotes : Z
}.

Definition MAX_FEEDBACK_HISTORY : Z := 20.

(** The two private fields of the class: the [Map] of vote records, in the
    order its keys were first set, and the history of feedback. *)
Record FeedbackManager : Type := {
  votes : Map VoteRecord;
  feedbackHistory : list PatternFeedback
}.

Definition new_FeedbackManager : FeedbackManager :=
  {| votes := []; feedbackHistory := [] |}.

(** [arr[i] = x] for an index inside the array. *)
Fixpoint set_at {A} (arr : list A) (i : nat) (x : A) : list A :=
  match arr, i with
  | [], _ => []
  | _ :: rest, O => x :: rest
  | a :: rest, S i' => a :: set_at rest i' x
  end.

(** Get feedback for a specific pattern. *)
Definition getFeedback (m : FeedbackManager) (pattern : string)
  : PatternFeedback :=
  let record := Map_get (votes m) pattern in
  {| patternId := pattern;
     fb_upvotes :=
       match record with
       | Some r => Set_size (upvotes r)
       | None => 0
       end;
     fb_downvotes :=
       match record with
       | Some r => Set_size (downvotes r)
       | None => 0
       end |}.

(** Update feedback history. *)
Definition updateHistory (history : list PatternFeedback)
    (feedback : PatternFeedback) : list PatternFeedback :=
  let existingIndex :=
    findIndex (fun fb _ => String.eqb (patternId fb) (patternId feedback))
      history in
  if 0 <=? existingIndex then
    set_at history (Z.to_nat existingIndex) feedback
  else
    let history := history ++ [feedback] in
    if MAX_FEEDBACK_HISTORY <? Z.of_nat (List.length history)
    then tl history else history.

(** Record a vote from a listener.  Returns the updated feedback for the
    pattern. *)
Definition recordVote (m : FeedbackManager) (pattern listenerId : string)
    (value : Z) : FeedbackManager * PatternFeedback :=
  let record :=
    match Map_get (votes m) pattern with
    | Some r => r
    | None => {| upvotes := []; downvotes := [] |}
    end in
  (* Remove any existing vote from this listener *)
  let up := Set_delete (upvotes record) listenerId in
  let down := Set_delete (downvotes record) listenerId in
  (* Add new vote *)
  let record :=
    if value =? 1 then {| upvotes := Set_add up listenerId; downvotes := down |}
    else {| upvotes := up; downvotes := Set_add down listenerId |} in
  let m :=
    {| votes := Map_set (votes m) pattern record;
       feedbackHistory := feedbackHistory m |} in
  let feedback := getFeedback m pattern in
  ({| votes := votes m;
      feedbackHistory := updateHistory (feedbackHistory m) feedback |},
   feedback).

(** Check if a listener has voted on a pattern. *)
Definition getListenerVote (m : FeedbackManager)
    (pattern listenerId : string) : option Z :=
  match Map_get (votes m) pattern with
  | None => None
  | Some record =>
      if Set_has (upvotes record) listenerId then Some 1
      else if Set_has (downvotes record) listenerId then Some (-1)
      else None
  end.

(** Get recent feedback for AI prompt context. *)
Definition getRecentFeedback (m : FeedbackManager) : list PatternFeedback :=
  feedbackHistory m.

Inductive Sentiment : Type := positive | negative | neutral.

(** Get overall sentiment (positive, negative, or neutral). *)
Definition getOverallSentiment (m : FeedbackManager) : Sentiment * Q :=
  let totalScore :=
    fold_left (fun total fb => total + (fb_upvotes fb - fb_downvotes fb))
      (feedbackHistory m) 0 in
  let totalVotes :=
    fold_left (fun total fb => total + (fb_upvotes fb + fb_downvotes fb))
      (feedbackHistory m) 0 in
  if totalVotes =? 0 then (neutral, 0%Q)
  else
    let avgScore := (inject_Z totalScore / inject_Z totalVotes)%Q in
    if Qltb (2 # 10) avgScore then (positive, avgScore)
    else if Qltb avgScore (- (2 # 10)) then (negative, avgScore)
    else (neutral, avgScore).

(** Clean up votes when a listener disconnects. *)
Definition removeListener (m : FeedbackManager) (listenerId : string)
  : FeedbackManager :=
  {| votes :=
       map (fun entry =>
              (fst entry,
               {| upvotes := Set_delete (upvotes (snd entry)) listenerId;
                  downvotes := Set_delete (downvotes (snd entry)) listenerId |}))
         (votes m);
     feedbackHistory := feedbackHistory m |}.

(** Clean up old pattern votes to prevent memory leaks. *)
Definition cleanup (m : FeedbackManager) (activePatternIds : list string)
  : FeedbackManager :=
  {| votes :=
       filter (fun entry => Set_has activePatternIds (fst entry)) (votes m);
     feedbackHistory := feedbackHistory m |}.

End Feedback.

(* ================================================================== *)
(** ** Vocabulary of the statements *)

(** The number of notes [SCALES] gives each mode name. *)
Definition notes_in_mode (scaleType : string) : nat :=
  if String.eqb scaleType "pentatonic" then 5
  else if String.eqb scaleType "minorPentatonic" then 5
  else if String.eqb scaleType "blues" then 6
  else if String.eqb scaleType "chromatic" then 12
  else 7.

(** The MIDI number of a value that is a pitch name. *)
Definition midi_of (note : Pitch) : option Z :=
  match note with
  | PitchName s => Some (noteToMidi s)
  | PitchUndefined | PitchNaN => None
  end.

(** The value of a double that is a number, as a rational. *)
Definition Number_value (x : spec_float) : option Q :=
  match x with
  | S754_zero _ => Some 0%Q
  | S754_finite s m e =>
      Some (inject_Z (if s then Z.neg m else Z.pos m) * Qpower 2 e)%Q
  | S754_infinity _ | S754_nan => None
  end.

(** What a computation guarantees about its result when it returns. *)
Definition ensures {A} (P : A -> Prop) (m : M A) : Prop :=
  forall n a n', m n = Ok (a, n') -> P a.

(** A computation that returns, whatever the random numbers drawn before
    it, with a result satisfying [P]. *)
Definition returns {A} (P : A -> Prop) (m : M A) : Prop :=
  forall n, exists a n', m n = Ok (a, n') /\ P a.

(** [Math.random()] giving the same number at every call. *)
Definition constant_random (r : Q) : nat -> Q := fun _ => r.

(** A rational sine to run the model with: Bhaskara's approximation on
    the interval from 0 to pi, where the generator takes its sines; it is
    exact at 0. *)
Definition rational_sin (x : Q) : Q :=
  let t := (x / Math_PI)%Q in
  (16 * t * (1 - t) / (5 - 4 * t * (1 - t)))%Q.


(** The options [{ bars, style }]. *)
Definition bars_and_style (bars : Z) (style : string) : GenerationOptions :=
  {| opt_bars := Some bars; opt_key := None; opt_mode := None;
     opt_tempo := None; opt_style := Some style;
     opt_totalBarsOffset := None; opt_extensionDirection := None |}.

(** A continuation context at progression position [position] with the
    dynamics and motif given, in C major. *)
Definition context_at (style : string) (position : Z) (d : Dynamics)
    (m : option (list Z)) : ContinuationContext :=
  {| ctx_key := "C"; ctx_mode := "major"; ctx_tempo := 90;
     ctx_style := style; ctx_progressionPosition := position;
     ctx_currentChord := Some "C"%string;
     ctx_currentChordType := Some "maj7"%string;
     ctx_lastNotes :=
       {| melody := [(PitchName "E4", 70%Q)]; bass := [("C2"%string, 70%Q)];
          chords :=
            [([PitchName "C3"; PitchName "E3"; PitchName "G3";
               PitchName "B3"], 70%Q)] |};
     ctx_dynamics := d; ctx_totalBars := 16; ctx_motif := m |}.

(** The result of a run, when there is one. *)
Definition result_of {A} (o : outcome (A * nat)) : option A :=
  match o with
  | Ok (a, _) => Some a
  | Throw _ => None
  end.

(** The note events of a track. *)
Definition notes_of (track : Track) : list NoteEvent :=
  flat_map (fun e => match e with Note n => [n] | _ => [] end) track.

(** A rational that is an integer. *)
Definition integral (q : Q) : Prop := exists z, (q == inject_Z z)%Q.

Definition is_integral (q : Q) : bool := Z.pos (Qden (Qred q)) =? 1.

(** A note event with a velocity from 1 to 127 and a start tick that is not
    negative. *)
Definition in_range (e : NoteEvent) : Prop :=
  (1 <= velocity e <= 127)%Q /\ 0 <= startTick e.

(** The same with an integral velocity. *)
Definition well_formed (e : NoteEvent) : Prop :=
  in_range e /\ integral (velocity e).

(** The note events of the five tracks of a loop state are in range, and
    those of the chord, bass, pad and drum tracks have integral
    velocities. *)
Definition tracks_in_range (st : LoopState) : Prop :=
  Forall in_range (notes_of (ls_melodyTrack st))
  /\ Forall well_formed (notes_of (ls_chordTrack st))
  /\ Forall well_formed (notes_of (ls_bassTrack st))
  /\ Forall well_formed (notes_of (ls_padTrack st))
  /\ Forall well_formed (notes_of (ls_drumTrack st)).

(** A track that has received further events. *)
Definition extends (track track' : Track) : Prop :=
  exists more, track' = track ++ more.


(** A note that is defined and not the empty string: what [a || b] keeps
    of its left operand. *)
Definition defined_note (note : Pitch) : Prop :=
  exists s, note = PitchName s /\ s <> ""%string.


(** The context a session builds from the [SegmentInfo] of the segment
    before, motif included. *)
Definition next_context (key mode style : string) (tempo : Q)
    (totalBars : Z) (info : SegmentInfo) : ContinuationContext :=
  {| ctx_key := key; ctx_mode := mode; ctx_tempo := tempo;
     ctx_style := style;
     ctx_progressionPosition := progressionPosition info;
     ctx_currentChord := Some (endingChord info);
     ctx_currentChordType := Some (endingChordType info);
     ctx_lastNotes := endingNotes info;
     ctx_dynamics := dynamics info;
     ctx_totalBars := totalBars;
     ctx_motif := Some (motif info) |}.

(** A sequence whose neighbours are at most [k] apart. *)
Fixpoint stepwise (k : Z) (l : list Z) : Prop :=
  match l with
  | a :: (b :: _) as rest => Z.abs (b - a) <= k /\ stepwise k rest
  | _ => True
  end.

(** The place of a section in the arc of a first segment. *)
Definition arc_position (s : SongSection) : Z :=
  match s with
  | intro => 0
  | verse => 1
  | build => 2
  | climax => 3
  | outro => 4
  end.

(** [track'] is [track] followed by note events that all satisfy [P]. *)
Definition appends (P : NoteEvent -> Prop) (track track' : Track) : Prop :=
  exists notes, track' = track ++ map Note notes /\ Forall P notes.

(** A note event that starts in the window of a bar of 512 ticks: at most
    [early] ticks before the bar's first tick and at most [late] ticks
    after it. *)
Definition starts_in_bar (bar early late : Z) (e : NoteEvent) : Prop :=
  512 * bar - early <= startTick e <= 512 * bar + late.

(** The six percussion pitches [generateDrums] writes. *)
Definition drum_names : list string :=
  ["C2"; "D2"; "G2"; "F#2"; "A#2"; "D#3"]%string.

(** A note event on MIDI channel 10 with one of these pitches. *)
Definition drum_event (e : NoteEvent) : Prop :=
  channel e = Some 10
  /\ exists name, pitch e = [PitchName name] /\ In name drum_names.

(** The latest start of a chord event after the first tick of its bar: the
    slow arpeggios of the ambient style run into the bar that follows. *)
Definition chord_late (style : string) : Z :=
  if String.eqb style "ambient" then 778 else 511.

(** The configuration of the section a bar of a segment is in. *)
Definition bar_config (bars totalBarsOffset : Z)
    (extensionDirection : ExtensionDirection) (bar : Z) : SectionConfig :=
  SECTION_CONFIGS (getSongSection bar bars totalBarsOffset extensionDirection).

(** The note events a segment puts on its tracks, each with a bar of the
    segment it belongs to. *)
Record segment_events (bars totalBarsOffset : Z)
    (extensionDirection : ExtensionDirection) (style : string)
    (before after : LoopState) : Prop := {
  melody_events :
    appends
      (fun e => exists bar,
           0 <= bar < bars
           /\ sc_melody (bar_config bars totalBarsOffset extensionDirection bar)
              = true
           /\ channel e = None /\ starts_in_bar bar 10 511 e)
      (ls_melodyTrack before) (ls_melodyTrack after);
  chord_events :
    appends
      (fun e => exists bar,
           0 <= bar < bars
           /\ sc_chords (bar_config bars totalBarsOffset extensionDirection bar)
              = true
           /\ channel e = None /\ starts_in_bar bar 10 (chord_late style) e)
      (ls_chordTrack before) (ls_chordTrack after);
  bass_events :
    appends
      (fun e => exists bar,
           0 <= bar < bars
           /\ channel e = None /\ starts_in_bar bar 10 511 e)
      (ls_bassTrack before) (ls_bassTrack after);
  pad_events :
    appends
      (fun e => exists bar,
           0 <= bar < bars
           /\ channel e = None /\ starts_in_bar bar 0 0 e)
      (ls_padTrack before) (ls_padTrack after);
  drum_events :
    appends
      (fun e => exists bar,
           0 <= bar < bars
           /\ sc_drums (bar_config bars totalBarsOffset extensionDirection bar)
              <> None
           /\ drum_event e /\ starts_in_bar bar 5 511 e)
      (ls_drumTrack before) (ls_drumTrack after)
}.

(** The bars and the seconds of a list of segment records. *)
Definition sum_bars (l : list Session.Segment) : Z :=
  fold_right (fun seg total => Session.seg_bars seg + total) 0 l.

Definition sum_seconds (l : list Session.Segment) : spec_float :=
  fold_left (fun total seg => Number_add total (Session.seg_durationSeconds seg))
    l (Number_of_Z 0).

(** The file name of the segment recorded after [count] others. *)
Definition segment_filename (project : string) (count : nat) : string :=
  (project ++ "-"
   ++ Session.padStart (Number_toString (Z.of_nat count + 1)) 3 "0"
   ++ ".mid")%string.

(** A session as the functions of session.ts keep it: stored under its own
    id, with totals that are those of its segment records, and with segment
    files numbered from 1 in the order of the records. *)
Record well_kept (key : string) (s : Session.Session) : Prop := {
  kept_id : Session.id s = key;
  kept_bars :
    Session.state_totalBars (Session.state s)
    = sum_bars (Session.segments s);
  kept_seconds :
    Session.state_totalDurationSeconds (Session.state s)
    = sum_seconds (Session.segments s);
  kept_filenames :
    map Session.seg_filename (Session.segments s)
    = map (segment_filename (Session.projectName s))
        (seq 0 (List.length (Session.segments s)))
}.

(** The storages the exported functions of session.ts make of the empty
    one, whatever they are called with. *)
Inductive reachable (getTime : string -> option Z)
  : Session.Sessions -> Prop :=
| reach_empty : reachable getTime []
| reach_create uuid now now' sessions project params :
    reachable getTime sessions ->
    reachable getTime
      (fst (Session.createSession uuid now now' sessions project params))
| reach_update uuid now now' sessions sessionId midiBase64 info sessions'
    segment :
    reachable getTime sessions ->
    Session.updateSessionWithSegment uuid now now' sessions sessionId
      midiBase64 info
    = Session.Updated sessions' segment ->
    reachable getTime sessions'
| reach_journey now sessions sessionId step :
    reachable getTime sessions ->
    reachable getTime (Session.addJourneyStep now sessions sessionId step)
| reach_reset now sessions sessionId :
    reachable getTime sessions ->
    reachable getTime (fst (Session.resetSession now sessions sessionId))
| reach_delete sessions sessionId :
    reachable getTime sessions ->
    reachable getTime (fst (Session.deleteSession sessions sessionId))
| reach_cleanup now sessions maxAgeMs :
    reachable getTime sessions ->
    reachable getTime
      (Session.cleanupOldSessions getTime now sessions maxAgeMs).

(** The two decimal digits of a number from 0 to 99. *)
Definition two_digits (n : Z) : string :=
  (Number_toString (n / 10) ++ Number_toString (n mod 10))%string.

(** The states of the feedback manager its methods make of a new one. *)
Inductive voted : Feedback.FeedbackManager -> Prop :=
| voted_new : voted Feedback.new_FeedbackManager
| voted_recordVote m pattern listenerId value :
    voted m -> voted (fst (Feedback.recordVote m pattern listenerId value))
| voted_removeListener m listenerId :
    voted m -> voted (Feedback.removeListener m listenerId)
| voted_cleanup m activePatternIds :
    voted m -> voted (Feedback.cleanup m activePatternIds).

(** A vote record in which nobody votes twice. *)
Definition one_vote_each (r : Feedback.VoteRecord) : Prop :=
  NoDup (Feedback.upvotes r) /\ NoDup (Feedback.downvotes r)
  /\ forall listenerId,
       In listenerId (Feedback.upvotes r) ->
       ~ In listenerId (Feedback.downvotes r).

(** What the feedback manager keeps true of its state. *)
Record votes_in_order (m : Feedback.FeedbackManager) : Prop := {
  patterns_distinct : NoDup (map fst (Feedback.votes m));
  nobody_votes_twice :
    Forall (fun entry => one_vote_each (snd entry)) (Feedback.votes m);
  history_bounded : (List.length (Feedback.feedbackHistory m) <= 20)%nat;
  history_distinct :
    NoDup (map Feedback.patternId (Feedback.feedbackHistory m));
  history_counts :
    Forall (fun fb => 0 <= Feedback.fb_upvotes fb
                      /\ 0 <= Feedback.fb_downvotes fb)
      (Feedback.feedbackHistory m)
}.

(* ================================================================== *)
(** ** Properties of the JavaScript primitives *)

Section Primitives.

Lemma all_digits_string_of_uint (d : Decimal.uint) :
  all_digits (NilEmpty.string_of_uint d) = true.
Proof. induction d; simpl; auto. Qed.

Lemma to_uint_not_Nil (n : N) : N.to_uint n <> Decimal.Nil.
Proof.
  destruct n as [|p]; simpl; [discriminate|].
  apply DecimalPos.Unsigned.to_uint_nonnil.
Qed.

(** The print form of a natural number is its decimal digits. *)
Lemma Number_toString_nonneg (n : Z) :
  0 <= n ->
  Number_toString n = NilEmpty.string_of_uint (N.to_uint (Z.to_N n)).
Proof.
  intros Hn. unfold Number_toString.
  destruct n as [|p|p]; [reflexivity| |lia].
  simpl. generalize (DecimalPos.Unsigned.to_uint_nonnil p).
  destruct (Pos.to_uint p); simpl; congruence.
Qed.

Lemma is_digits1_Number_toString (n : Z) :
  0 <= n -> is_digits1 (Number_toString n) = true.
Proof.
  intros Hn. rewrite Number_toString_nonneg by assumption.
  generalize (to_uint_not_Nil (Z.to_N n)).
  generalize (all_digits_string_of_uint (N.to_uint (Z.to_N n))).
  destruct (N.to_uint (Z.to_N n)); simpl; congruence.
Qed.

(** [parseInt] undoes the printing of a natural number. *)
Lemma parseInt_Number_toString (n : Z) :
  0 <= n -> parseInt (Number_toString n) = n.
Proof.
  intros Hn. unfold parseInt.
  rewrite Number_toString_nonneg, NilEmpty.usu by assumption.
  rewrite DecimalN.Unsigned.of_to. lia.
Qed.

Lemma digit_is_not_sharp (c : ascii) :
  is_digit c = true -> Ascii.eqb c "#" = false.
Proof.
  intros H. destruct (Ascii.eqb_spec c "#"%char); [subst; discriminate|reflexivity].
Qed.

Lemma digits1_head (s : string) :
  is_digits1 s = true ->
  exists c rest, s = String c rest /\ Ascii.eqb c "#" = false.
Proof.
  destruct s as [|c rest]; simpl; [discriminate|].
  intros H. apply andb_prop in H. destruct H as [H _].
  exists c, rest. split; [reflexivity|]. now apply digit_is_not_sharp.
Qed.

End Primitives.

(* ================================================================== *)
(** ** Properties of music-theory.ts *)

Section PitchNames.

Example noteToMidi_C4 : noteToMidi "C4" = 60.
Proof. reflexivity. Qed.

Example noteToMidi_F_sharp_3 : noteToMidi "F#3" = 54.
Proof. reflexivity. Qed.

(** A flat is outside the grammar and gets the default pitch. *)
Example noteToMidi_B_flat_2 :
  noteToMidi "Bb2" = 60 /\ midiToNote (noteToMidi "Bb2") = PitchName "C4".
Proof. split; reflexivity. Qed.

Example midiToNote_54 : midiToNote 54 = PitchName "F#3".
Proof. reflexivity. Qed.

(** Below MIDI number 0 there is no note name to print: [NOTES[-1]] is
    [undefined], and its sum with the octave is [NaN]. *)
Example midiToNote_negative : midiToNote (-1) = PitchNaN.
Proof. reflexivity. Qed.

(** A key that is no note name of [NOTES] gives a scale whose first entry
    is [NaN]. *)
Example getScale_unknown_root :
  Generator.getScale "H" "major" 4
  = Ok [PitchNaN; PitchName "C#4"; PitchName "D#4"; PitchName "E4";
        PitchName "F#4"; PitchName "G#4"; PitchName "A#4"].
Proof. reflexivity. Qed.

(** The regular expression splits a note name of [NOTES] followed by digits
    into these two parts. *)
Lemma match_pitch_note (noteName digits : string) :
  In noteName NOTES -> is_digits1 digits = true ->
  match_pitch (noteName ++ digits) = Some (noteName, digits).
Proof.
  intros Hin Hd.
  destruct (digits1_head digits Hd) as (c & rest & -> & Hc).
  assert (Hd' : is_digit c && all_digits rest = true) by exact Hd.
  simpl in Hin.
  repeat (destruct Hin as [<-|Hin];
          [simpl; rewrite ?Hc; rewrite Hd'; reflexivity|]).
  contradiction.
Qed.

Lemma indexOf_NOTES (noteName : string) :
  In noteName NOTES ->
  0 <= indexOf NOTES (Some noteName) < 12
  /\ at_index NOTES (indexOf NOTES (Some noteName)) = Some noteName.
Proof.
  simpl. intros Hin.
  repeat (destruct Hin as [<-|Hin]; [vm_compute; intuition congruence|]).
  contradiction.
Qed.

(** [midiToNote] on a MIDI number split into note index and octave. *)
Lemma midiToNote_split (noteIndex octave : Z) :
  0 <= noteIndex < 12 -> 0 <= octave ->
  midiToNote (noteIndex + (octave + 1) * 12)
  = concat_number (at_index NOTES noteIndex) octave.
Proof.
  intros Hi Ho. unfold midiToNote, floor_div, rem.
  rewrite Z.div_add by lia.
  rewrite Z.rem_mod_nonneg by lia.
  rewrite Z.mod_add by lia.
  rewrite Z.div_small, Z.mod_small by lia.
  f_equal. lia.
Qed.

Lemma indexOf_from_lower (arr : list string) (x : string) (i : Z) :
  0 <= i -> -1 <= indexOf_from arr x i.
Proof.
  revert i. induction arr as [|y arr IH]; intros i Hi; simpl; [lia|].
  destruct (String.eqb x y); [lia|]. apply IH. lia.
Qed.

(** No pitch name, whatever the string, is given a MIDI number below 11. *)
Lemma noteToMidi_lower (note : string) : 11 <= noteToMidi note.
Proof.
  unfold noteToMidi. destruct (match_pitch note) as [[name octave]|]; [|lia].
  pose proof (indexOf_from_lower NOTES name 0 ltac:(lia)) as Hi.
  unfold indexOf.
  assert (Ho : 0 <= parseInt octave).
  { unfold parseInt. destruct (NilEmpty.uint_of_string octave); lia. }
  nia.
Qed.

End PitchNames.

Section RoundTrip.

(** C4, as stated, fails: the grammar [[A-G](#)?[digits]] accepts [E#4],
    which is not a name of [NOTES] and comes back as [B3], and [C04], whose
    octave comes back without its leading zero. *)
Lemma pitch_round_trip_fails_on_E_sharp :
  match_pitch "E#4" = Some ("E#", "4")%string
  /\ midiToNote (noteToMidi "E#4") = PitchName "B3"
  /\ midiToNote (noteToMidi "E#4") <> PitchName "E#4"
  /\ match_pitch "C04" = Some ("C", "04")%string
  /\ midiToNote (noteToMidi "C04") <> PitchName "C04".
Proof. repeat split; vm_compute; congruence. Qed.

(** C4 (amended): for each of the twelve note names of [NOTES] followed by
    the decimal form of an octave number (no leading zeros) whose MIDI number
    stays below 2^53, where JavaScript numbers are exact integers,
    [midiToNote (noteToMidi p)] is [p] again. *)
Theorem pitch_round_trip (noteName : string) (octave : Z) :
  In noteName NOTES -> 0 <= octave -> (octave + 1) * 12 + 11 < 2 ^ 53 ->
  noteToMidi (noteName ++ Number_toString octave)
  = indexOf NOTES (Some noteName) + (octave + 1) * 12
  /\ midiToNote (noteToMidi (noteName ++ Number_toString octave))
     = PitchName (noteName ++ Number_toString octave).
Proof.
  intros Hin Ho _.
  assert (Hmidi : noteToMidi (noteName ++ Number_toString octave)
                  = indexOf NOTES (Some noteName) + (octave + 1) * 12).
  { unfold noteToMidi.
    rewrite match_pitch_note by auto using is_digits1_Number_toString.
    now rewrite parseInt_Number_toString. }
  split; [exact Hmidi|].
  destruct (indexOf_NOTES noteName Hin) as [Hrange Hat].
  rewrite Hmidi, midiToNote_split, Hat by assumption.
  reflexivity.
Qed.

Lemma pitch_round_trip_witness :
  noteToMidi ("F#" ++ Number_toString 3) = 54
  /\ midiToNote (noteToMidi ("F#" ++ Number_toString 3)) = PitchName "F#3".
Proof.
  apply (pitch_round_trip "F#" 3).
  - simpl. repeat (first [left; reflexivity | right]).
  - lia.
  - vm_compute. reflexivity.
Defined.

End RoundTrip.

Section Scales.

Lemma get_or_cases {A} (tbl : list (string * A)) (k : string) (d a : A) :
  get_or tbl k d = Entry a -> a = d \/ In a (map snd tbl).
Proof.
  unfold get_or. destruct (own tbl k) as [a'|] eqn:Hown.
  - intros [= <-]. right.
    induction tbl as [|[k' x] tbl IH]; simpl in *; [discriminate|].
    destruct (String.eqb k k'); [left; congruence|right; auto].
  - destruct (is_prototype_key k); [discriminate|]. intros [= <-]. now left.
Qed.

Lemma get_or_fallback {A} (tbl : list (string * A)) (k : string) (d : A) :
  is_prototype_key k = false -> own tbl k = None -> get_or tbl k d = Entry d.
Proof. unfold get_or. now intros -> ->. Qed.

Lemma get_or_Entry {A} (tbl : list (string * A)) (k : string) (d : A) :
  is_prototype_key k = false -> exists a, get_or tbl k d = Entry a.
Proof.
  unfold get_or. intros ->. destruct (own tbl k); eauto.
Qed.

Lemma get_or_ProtoMember {A} (tbl : list (string * A)) (k : string) (d : A) :
  get_or tbl k d = ProtoMember -> is_prototype_key k = true.
Proof.
  unfold get_or. destruct (own tbl k); [discriminate|].
  now destruct (is_prototype_key k).
Qed.

(** Every position of [NOTES] holds a name that [indexOf] finds there. *)
Lemma NOTES_at (k : Z) :
  0 <= k < 12 ->
  exists name,
    at_index NOTES k = Some name /\ In name NOTES
    /\ indexOf NOTES (Some name) = k.
Proof.
  intros Hk.
  assert (Hcases : k = 0 \/ k = 1 \/ k = 2 \/ k = 3 \/ k = 4 \/ k = 5 \/ k = 6
                   \/ k = 7 \/ k = 8 \/ k = 9 \/ k = 10 \/ k = 11) by lia.
  repeat (destruct Hcases as [->|Hcases];
          [eexists; split; [reflexivity|];
           split; [simpl; repeat (first [left; reflexivity | right])
                  |reflexivity]|]).
  subst k. eexists. split; [reflexivity|].
  split; [simpl; repeat (first [left; reflexivity | right])|reflexivity].
Qed.

(** The note [interval] semitones above the root, in MIDI numbers. *)
Lemma noteToMidi_note_at (root : string) (octave interval : Z) :
  In root NOTES -> 0 <= octave -> 0 <= interval < 12 ->
  midi_of (note_at (indexOf NOTES (Some root)) octave interval)
  = Some (noteToMidi (root ++ Number_toString octave) + interval).
Proof.
  intros Hin Ho Hi.
  destruct (indexOf_NOTES root Hin) as [Hrange _].
  set (rootIndex := indexOf NOTES (Some root)) in *.
  assert (Hroot : noteToMidi (root ++ Number_toString octave)
                  = rootIndex + (octave + 1) * 12).
  { unfold noteToMidi.
    rewrite match_pitch_note by auto using is_digits1_Number_toString.
    now rewrite parseInt_Number_toString. }
  rewrite Hroot. unfold note_at, rem, floor_div.
  rewrite Z.rem_mod_nonneg by lia.
  pose proof (Z.mod_pos_bound (rootIndex + interval) 12 ltac:(lia)) as Hm.
  pose proof (Z.div_mod (rootIndex + interval) 12 ltac:(lia)) as Hdm.
  assert (Hq : 0 <= (rootIndex + interval) / 12)
    by (apply Z.div_pos; lia).
  destruct (NOTES_at ((rootIndex + interval) mod 12) Hm)
    as (name & Hat & Hname & Hidx).
  rewrite Hat. cbn [concat_number midi_of]. unfold noteToMidi.
  rewrite match_pitch_note
    by (auto using is_digits1_Number_toString with zarith).
  rewrite parseInt_Number_toString, Hidx by lia.
  f_equal. lia.
Qed.

(** The patterns of [SCALES] hold semitone offsets from 0 to 11. *)
Lemma SCALES_offsets (scaleType : string) (pattern : list Z) :
  get_or SCALES scaleType SCALES_major = Entry pattern ->
  Forall (fun interval => 0 <= interval < 12) pattern.
Proof.
  intros H. apply get_or_cases in H. simpl in H.
  repeat (destruct H as [H'|H];
          [subst pattern; repeat (apply Forall_cons; [lia|]); constructor|]).
  contradiction.
Qed.

Lemma SCALES_length (scaleType : string) (pattern : list Z) :
  get_or SCALES scaleType SCALES_major = Entry pattern ->
  List.length pattern = notes_in_mode scaleType.
Proof.
  unfold get_or, notes_in_mode, SCALES, own.
  repeat match goal with
         | |- context [String.eqb scaleType ?s] =>
             destruct (String.eqb_spec scaleType s); [subst scaleType|]
         end;
    try (intros [= <-]; reflexivity);
    destruct (is_prototype_key scaleType); intros [= <-]; reflexivity.
Qed.

(** The patterns of [CHORDS] hold semitone offsets from 0 to 11. *)
Lemma CHORDS_offsets (chordType : string) (pattern : list Z) :
  get_or CHORDS chordType CHORDS_major = Entry pattern ->
  Forall (fun interval => 0 <= interval < 12) pattern
  /\ (3 <= List.length pattern <= 4)%nat.
Proof.
  intros H. apply get_or_cases in H. simpl in H.
  repeat (destruct H as [H'|H];
          [subst pattern; split;
           [repeat (apply Forall_cons; [lia|]); constructor|simpl; lia]|]).
  contradiction.
Qed.


Lemma append_nonempty (s t : string) :
  t <> ""%string -> (s ++ t)%string <> ""%string.
Proof. destruct s; simpl; [auto|discriminate]. Qed.

Lemma Number_toString_nonempty n : Number_toString n <> ""%string.
Proof.
  unfold Number_toString. destruct (Z.to_int n) as [d|d]; simpl;
    [destruct d|]; discriminate.
Qed.

(** A string followed by a number is a pitch name of the model. *)
Lemma concat_number_defined s n : defined_note (concat_number (Some s) n).
Proof.
  eexists. split; [reflexivity|].
  apply append_nonempty, Number_toString_nonempty.
Qed.


(** So does every MIDI number that is not negative. *)
Lemma midiToNote_defined midi : 0 <= midi -> defined_note (midiToNote midi).
Proof.
  intros Hm. unfold midiToNote, rem.
  rewrite Z.rem_mod_nonneg by lia.
  destruct (NOTES_at (midi mod 12) (Z.mod_pos_bound _ 12 ltac:(lia)))
    as (name & -> & _).
  apply concat_number_defined.
Qed.

(** C9, as stated, fails: the [blues] mode has six notes (and [chromatic]
    twelve), and a mode name that [SCALES] inherits from [Object.prototype]
    is not replaced by the major pattern. *)
Lemma getScale_blues_has_six_notes :
  MusicTheory.getScale "C" "blues" 4
  = Ok (map PitchName ["C4"; "D#4"; "F4"; "F#4"; "G4"; "A#4"]%string)
  /\ (exists l, MusicTheory.getScale "C" "chromatic" 4 = Ok l
                /\ List.length l = 12%nat)
  /\ MusicTheory.getScale "C" "constructor" 4 = Throw TypeError.
Proof.
  split; [reflexivity|]. split; [|reflexivity].
  eexists. split; reflexivity.
Qed.

(** C9 (amended): for every root of [NOTES] and every mode name that is not
    inherited from [Object.prototype], [getScale] returns one pitch name per
    offset of the mode's pattern, in order: 7 names for major, minor, dorian,
    mixolydian and any name unknown to [SCALES] (which falls back to the
    major pattern), 5 for pentatonic and minorPentatonic, 6 for blues and 12
    for chromatic; from octave 0 on, the note at each position lies the
    pattern's offset in semitones above the root. *)
Theorem getScale_follows_pattern (root scaleType : string) (octave : Z) :
  In root NOTES -> is_prototype_key scaleType = false ->
  exists pattern,
    get_or SCALES scaleType SCALES_major = Entry pattern
    /\ (own SCALES scaleType = None -> pattern = SCALES_major)
    /\ MusicTheory.getScale root scaleType octave
       = Ok (map (note_at (indexOf NOTES (Some root)) octave) pattern)
    /\ List.length (map (note_at (indexOf NOTES (Some root)) octave) pattern)
       = notes_in_mode scaleType
    /\ (0 <= octave ->
        map midi_of
          (map (note_at (indexOf NOTES (Some root)) octave) pattern)
        = map (fun interval =>
                 Some (noteToMidi (root ++ Number_toString octave)
                       + interval))
            pattern).
Proof.
  intros Hroot Hproto.
  destruct (get_or_Entry SCALES scaleType SCALES_major Hproto)
    as [pattern Hget].
  exists pattern. split; [exact Hget|]. split.
  { intros Hown. rewrite (get_or_fallback _ _ _ Hproto Hown) in Hget.
    congruence. }
  split; [unfold MusicTheory.getScale; now rewrite Hget|].
  split; [rewrite length_map; now apply SCALES_length|].
  intros Ho. rewrite map_map. apply map_ext_Forall.
  eapply Forall_impl; [|exact (SCALES_offsets _ _ Hget)].
  intros interval Hi. now apply noteToMidi_note_at.
Qed.

Lemma getScale_follows_pattern_witness :
  exists pattern,
    get_or SCALES "dorian" SCALES_major = Entry pattern
    /\ (own SCALES "dorian" = None -> pattern = SCALES_major)
    /\ MusicTheory.getScale "D" "dorian" 4
       = Ok (map (note_at (indexOf NOTES (Some "D"%string)) 4) pattern)
    /\ List.length (map (note_at (indexOf NOTES (Some "D"%string)) 4) pattern)
       = notes_in_mode "dorian"
    /\ (0 <= 4 ->
        map midi_of
          (map (note_at (indexOf NOTES (Some "D"%string)) 4) pattern)
        = map (fun interval =>
                 Some (noteToMidi ("D" ++ Number_toString 4) + interval))
            pattern).
Proof.
  apply (getScale_follows_pattern "D" "dorian" 4).
  - simpl. repeat (first [left; reflexivity | right]).
  - reflexivity.
Defined.


End Scales.

(* ================================================================== *)
(** ** Reasoning about computations *)

Section Computations.

Context {A B : Type}.

Lemma bind_inv (m : M A) (f : A -> M B) n b n' :
  bind m f n = Ok (b, n') ->
  exists a n1, m n = Ok (a, n1) /\ f a n1 = Ok (b, n').
Proof.
  unfold bind. destruct (m n) as [[a n1]|e]; [eauto|discriminate].
Qed.

Lemma ret_inv (a b : A) n n' : ret a n = Ok (b, n') -> b = a /\ n' = n.
Proof. unfold ret. now intros [= -> ->]. Qed.

Lemma lift_inv (o : outcome A) n a n' :
  lift o n = Ok (a, n') -> o = Ok a /\ n' = n.
Proof. unfold lift. destruct o; [now intros [= -> ->]|discriminate]. Qed.

Lemma ensures_ret (P : A -> Prop) (a : A) : P a -> ensures P (ret a).
Proof. intros H n a' n' E. apply ret_inv in E. destruct E as [-> _]. exact H. Qed.

Lemma ensures_throw (P : A -> Prop) e : ensures P (throw e).
Proof. intros n a n' E. discriminate. Qed.

Lemma ensures_bind (P : A -> Prop) (Q : B -> Prop) (m : M A) (f : A -> M B) :
  ensures P m -> (forall a, P a -> ensures Q (f a)) -> ensures Q (bind m f).
Proof.
  intros Hm Hf n b n' E. apply bind_inv in E.
  destruct E as (a & n1 & Em & Ef). eapply Hf; eauto.
Qed.

Lemma ensures_bind_any (Q : B -> Prop) (m : M A) (f : A -> M B) :
  (forall a, ensures Q (f a)) -> ensures Q (bind m f).
Proof.
  intros Hf. apply ensures_bind with (P := fun _ => True); [easy|auto].
Qed.

Lemma ensures_weaken (P P' : A -> Prop) (m : M A) :
  ensures P m -> (forall a, P a -> P' a) -> ensures P' m.
Proof. intros H HP n a n' E. eauto. Qed.

Lemma returns_ret (P : A -> Prop) (a : A) : P a -> returns P (ret a).
Proof. intros H n. exists a, n. now split. Qed.

Lemma returns_bind (P : A -> Prop) (Q : B -> Prop) (m : M A) (f : A -> M B) :
  returns P m -> (forall a, P a -> returns Q (f a)) -> returns Q (bind m f).
Proof.
  intros Hm Hf n. destruct (Hm n) as (a & n1 & Em & Pa).
  destruct (Hf a Pa n1) as (b & n2 & Ef & Qb).
  exists b, n2. unfold bind. rewrite Em. now split.
Qed.

Lemma returns_weaken (P P' : A -> Prop) (m : M A) :
  returns P m -> (forall a, P a -> P' a) -> returns P' m.
Proof.
  intros H HP n. destruct (H n) as (a & n' & E & Pa). eauto.
Qed.

End Computations.

Section Loops.

Context {A St : Type}.

Lemma foldM_app (f : St -> A -> M St) (l1 l2 : list A) (s : St) :
  forall n, foldM f (l1 ++ l2) s n
            = bind (foldM f l1 s) (foldM f l2) n.
Proof.
  revert s. induction l1 as [|a l1 IH]; intros s n; simpl.
  - reflexivity.
  - unfold bind. destruct (f s a n) as [[s1 n1]|e]; [|reflexivity].
    rewrite IH. reflexivity.
Qed.

Lemma ensures_foldM (I : St -> Prop) (f : St -> A -> M St) (l : list A) :
  (forall s a, I s -> ensures I (f s a)) ->
  forall s, I s -> ensures I (foldM f l s).
Proof.
  intros Hf. induction l as [|a l IH]; intros s Hs; simpl.
  - now apply ensures_ret.
  - eapply ensures_bind; [apply Hf; exact Hs|]. intros s' Hs'. now apply IH.
Qed.


End Loops.

Section CountingLoops.

Context {St : Type}.

Lemma upto_succ (k : Z) : 0 <= k -> upto (k + 1) = upto k ++ [k].
Proof.
  intros Hk. unfold upto.
  replace (Z.to_nat (k + 1)) with (Z.to_nat k + 1)%nat by lia.
  rewrite seq_app, map_app. simpl. f_equal. f_equal. lia.
Qed.

Lemma upto_nonpos (k : Z) : k <= 0 -> upto k = [].
Proof.
  intros Hk. unfold upto. now replace (Z.to_nat k) with 0%nat by lia.
Qed.

Lemma In_upto (k n : Z) : In k (upto n) <-> 0 <= k < n.
Proof.
  unfold upto. rewrite in_map_iff. split.
  - intros (i & <- & Hi). apply in_seq in Hi. lia.
  - intros Hk. exists (Z.to_nat k). split; [lia|]. apply in_seq. lia.
Qed.



(** A loop invariant that depends on the number of rounds made. *)
Lemma ensures_foldM_upto (I : Z -> St -> Prop) (f : St -> Z -> M St) (n : Z) :
  (forall k s, 0 <= k < n -> I k s -> ensures (I (k + 1)) (f s k)) ->
  forall s, I 0 s -> ensures (I (Z.max 0 n)) (foldM f (upto n) s).
Proof.
  intros Hf s Hs.
  destruct (Z.le_gt_cases n 0) as [Hn|Hn].
  { rewrite upto_nonpos by assumption.
    replace (Z.max 0 n) with 0 by lia. now apply ensures_ret. }
  replace (Z.max 0 n) with n by lia.
  assert (Hgen : forall m, (m <= Z.to_nat n)%nat ->
            ensures (I (Z.of_nat m)) (foldM f (upto (Z.of_nat m)) s)).
  { induction m as [|m IH]; intros Hm.
    - simpl. now apply ensures_ret.
    - replace (Z.of_nat (S m)) with (Z.of_nat m + 1) by lia.
      rewrite upto_succ by lia.
      intros n0 s' n' E. rewrite foldM_app in E.
      apply bind_inv in E. destruct E as (s1 & n1 & E1 & E2).
      simpl in E2. apply bind_inv in E2.
      destruct E2 as (s2 & n2 & E2 & E3). apply ret_inv in E3.
      destruct E3 as [-> _].
      eapply Hf; [|eapply IH; [lia|exact E1]|exact E2]. lia. }
  specialize (Hgen (Z.to_nat n) (Nat.le_refl _)).
  now rewrite Z2Nat.id in Hgen by lia.
Qed.

End CountingLoops.

(* ================================================================== *)
(** ** The segment orchestrator *)

Section Segment.

Variable Math_random : nat -> Q.
Variable Math_sin : Q -> Q.

Ltac bind_inv H :=
  let a := fresh "a" in
  let n := fresh "n" in
  let E := fresh "E" in
  apply bind_inv in H; destruct H as (a & n & E & H); cbv beta in H.

Ltac binds_inv H :=
  repeat first
    [ bind_inv H
    | match type of H with
      | (let '(_, _) := ?x in _) _ = _ => destruct x; cbv beta iota in H
      end ].

Lemma progression_array_inv progression n p n' :
  progression_array progression n = Ok (p, n') -> progression = Entry p.
Proof.
  unfold progression_array. destruct progression; [|discriminate].
  intros E. apply ret_inv in E. destruct E. congruence.
Qed.

Lemma progression_entry_inv p i n e n' :
  progression_entry p i n = Ok (e, n') -> at_index p i = Some e.
Proof.
  unfold progression_entry. destruct (at_index p i); [|discriminate].
  intros E. apply ret_inv in E. destruct E. congruence.
Qed.

(** What one round of the bar loop does to the progression position and to
    the ending notes. *)
Lemma generateSegment_bar_inv bars key mode style totalBarsOffset
    extensionDirection styleParams scale progression motif st bar n st' n' :
  generateSegment_bar Math_random Math_sin bars key mode style
    totalBarsOffset extensionDirection styleParams scale progression motif
    st bar n = Ok (st', n') ->
  let baseVelocity :=
    bar_baseVelocity Math_sin (ls_dynamics st) bar bars
      (SECTION_CONFIGS
         (getSongSection bar bars totalBarsOffset extensionDirection)) in
  exists p chord chordNotes bassRoot lastMelodyNote,
    progression = Entry p
    /\ at_index p (current_index (ls_progressionPos st) p) = Some chord
    /\ getChordFromDegree key mode (fst chord) (snd chord) 3 = Ok chordNotes
    /\ ls_progressionPos st'
       = (if progression_advances style bar
          then advance (ls_progressionPos st) (Z.of_nat (List.length p))
          else ls_progressionPos st)
    /\ ls_endingNotes st'
       = (if bars - 2 <=? bar
          then {| melody := melody (ls_endingNotes st)
                            ++ [(lastMelodyNote, baseVelocity)];
                  bass := bass (ls_endingNotes st)
                          ++ [(bassRoot, baseVelocity)];
                  chords := chords (ls_endingNotes st)
                            ++ [(chordNotes, baseVelocity)] |}
          else ls_endingNotes st).
Proof.
  unfold generateSegment_bar. intros H. cbv zeta.
  binds_inv H.
  apply ret_inv in H. destruct H as [-> _].
  apply progression_array_inv in E. apply progression_entry_inv in E0.
  apply lift_inv in E1. destruct E1 as [E1 _].
  eexists _, (_, _), _, _, _. cbn [fst snd].
  split; [exact E|]. split; [exact E0|]. split; [exact E1|].
  split; reflexivity.
Qed.


Lemma without_octave_inv note n name n' :
  without_octave note n = Ok (name, n') ->
  exists s, note = PitchName s /\ name = strip_trailing_digits s /\ n' = n.
Proof.
  destruct note as [s| |]; try discriminate.
  intros E. apply ret_inv in E. destruct E as [-> ->]. eauto.
Qed.

Lemma noteToMidi_of_inv note n midi n' :
  noteToMidi_of note n = Ok (midi, n') ->
  exists s, note = PitchName s /\ midi = noteToMidi s /\ n' = n.
Proof.
  destruct note as [s| |]; try discriminate.
  intros E. apply ret_inv in E. destruct E as [-> ->]. eauto.
Qed.

Lemma read_name chordNotes i s :
  read chordNotes i = PitchName s ->
  at_index chordNotes i = Some (PitchName s).
Proof.
  unfold read. destruct (at_index chordNotes i); [congruence|discriminate].
Qed.

Lemma chord_root_name_inv chordNotes n name n' :
  chord_root_name chordNotes n = Ok (name, n') ->
  exists first, at_index chordNotes 0 = Some (PitchName first)
                /\ name = strip_trailing_digits first.
Proof.
  unfold chord_root_name. intros E.
  apply without_octave_inv in E. destruct E as (s & Hs & -> & _).
  apply read_name in Hs. eauto.
Qed.

(** What the code before the bar loop sets up. *)
Lemma generateSegment_init_inv tempo style scale continuationContext n m st0
    n' :
  generateSegment_init Math_random tempo style scale continuationContext n
  = Ok ((m, st0), n') ->
  ls_progressionPos st0
  = match continuationContext with
    | Some c => ctx_progressionPosition c
    | None => 0
    end
  /\ ls_dynamics st0
     = match continuationContext with
       | Some c => ctx_dynamics c
       | None => default_dynamics
       end
  /\ ls_endingNotes st0 = {| melody := []; bass := []; chords := [] |}
  /\ ls_motifVariation st0 = 0
  /\ ls_lastMelodyNote st0
     = match context_melody_note continuationContext with
       | Some note => PitchName note
       | None => motif_start_note scale m
       end
  /\ match continuationContext with
     | Some {| ctx_motif := Some m' |} => m = m' /\ n' = n
     | _ => generateMotif Math_random (Z.of_nat (List.length scale)) n
            = Ok (m, n')
     end.
Proof.
  unfold generateSegment_init. intros H. bind_inv H.
  apply ret_inv in H. destruct H as [H ->].
  injection H as Hm Hst. subst m st0. cbn.
  repeat split.
  destruct continuationContext as [[? ? ? ? ? ? ? ? ? ? [m'|]]|]; auto.
  apply ret_inv in E. destruct E. auto.
Qed.

(** The steps of a call that returns. *)
Lemma generateSegment_inv options continuationContext n res n' :
  generateSegment Math_random Math_sin options continuationContext n
  = Ok (res, n') ->
  let bars := or_default (opt_bars options) 16 in
  let key := or_default (opt_key options) "C"%string in
  let mode := or_default (opt_mode options) "major"%string in
  let tempo := or_default (opt_tempo options) 90%Q in
  let style := or_default (opt_style options) "ambient"%string in
  let totalBarsOffset := or_default (opt_totalBarsOffset options) 0 in
  let extensionDirection :=
    or_default (opt_extensionDirection options) continue in
  exists scale p m st0 n1 st n2 finalChord finalChordNotes first,
    Generator.getScale key mode 4 = Ok scale
    /\ getProgression style = Entry p
    /\ generateSegment_init Math_random tempo style scale
         continuationContext n = Ok ((m, st0), n1)
    /\ foldM
         (generateSegment_bar Math_random Math_sin bars key mode style
            totalBarsOffset extensionDirection (style_params style) scale
            (getProgression style) m)
         (upto bars) st0 n1 = Ok (st, n2)
    /\ at_index p (final_index (ls_progressionPos st) p) = Some finalChord
    /\ getChordFromDegree key mode (fst finalChord) (snd finalChord) 3
       = Ok finalChordNotes
    /\ at_index finalChordNotes 0 = Some (PitchName first)
    /\ segmentInfo res
       = {| Generator.bars := bars;
            durationSeconds :=
              Number_mul
                (Number_div (Number_mul (Number_of_Z bars) (Number_of_Z 4))
                   (Number_of_Q tempo))
                (Number_of_Z 60);
            endingNotes := ls_endingNotes st;
            endingChord := strip_trailing_digits first;
            endingChordType := snd finalChord;
            progressionPosition := ls_progressionPos st;
            dynamics := ls_dynamics st;
            motif := m |}
    /\ melodyTrack res = ls_melodyTrack st
    /\ chordTrack res = ls_chordTrack st
    /\ bassTrack res = ls_bassTrack st
    /\ padTrack res = ls_padTrack st
    /\ drumTrack res = ls_drumTrack st.
Proof.
  unfold generateSegment. intros H. cbv zeta.
  binds_inv H.
  apply ret_inv in H. destruct H as [-> _].
  apply lift_inv in E. destruct E as [E ->].
  apply progression_array_inv in E2. apply progression_entry_inv in E3.
  apply lift_inv in E4. destruct E4 as [E4 _].
  apply chord_root_name_inv in E5. destruct E5 as (first & Hfirst & ->).
  eexists _, _, _, _, _, _, _, _, _, first.
  cbn [segmentInfo melodyTrack chordTrack bassTrack padTrack drumTrack].
  split; [exact E|]. split; [exact E2|]. split; [exact E0|].
  split; [exact E1|]. split; [exact E3|]. split; [exact E4|].
  split; [exact Hfirst|]. repeat split.
Qed.

(** C8: whenever a call returns, [durationSeconds] is the double that
    [(bars * 4 / tempo) * 60] evaluates to, each operation rounded as
    JavaScript rounds it, for every number of bars and every tempo; a tempo
    of 0 is not refused and gives [Infinity], or [NaN] for no bars.  On the
    grid of bars 1, 8, 16, 32, 64 and tempos 60, 90, 120, 140 that double is
    the exact quotient [240 * bars / tempo] at tempos 60 and 120; at tempos
    90 and 140, where the quotient is no double, it differs from it by less
    than one part in 2^52. *)
Theorem duration_law options continuationContext n res n' :
  generateSegment Math_random Math_sin options continuationContext n
  = Ok (res, n') ->
  let bars := or_default (opt_bars options) 16 in
  let tempo := or_default (opt_tempo options) 90%Q in
  durationSeconds (segmentInfo res)
  = Number_mul
      (Number_div (Number_mul (Number_of_Z bars) (Number_of_Z 4))
         (Number_of_Q tempo))
      (Number_of_Z 60)
  /\ Generator.bars (segmentInfo res) = bars
  /\ (tempo = 0%Q ->
      (bars = 0 -> durationSeconds (segmentInfo res) = S754_nan)
      /\ (In bars [1; 8; 16; 32; 64] ->
          durationSeconds (segmentInfo res) = S754_infinity false))
  /\ (forall t,
        In bars [1; 8; 16; 32; 64] -> In t [60; 90; 120; 140] ->
        tempo = inject_Z t ->
        exists seconds,
          Number_value (durationSeconds (segmentInfo res)) = Some seconds
          /\ (Qabs (seconds * inject_Z t - inject_Z (240 * bars))
                * inject_Z (2 ^ 52)
              <= inject_Z (240 * bars))%Q
          /\ (t = 60 \/ t = 120 ->
              (seconds * inject_Z t == inject_Z (240 * bars))%Q)).
Proof.
  intros H bars tempo.
  apply generateSegment_inv in H. cbv zeta in H.
  destruct H as (scale & p & m & st0 & n1 & st & n2 & fc & fcn & first & H).
  destruct H as (_ & _ & _ & _ & _ & _ & _ & Hinfo & _).
  rewrite Hinfo. cbn [durationSeconds Generator.bars].
  fold bars tempo.
  split; [reflexivity|]. split; [reflexivity|]. split.
  - intros ->. split; [intros ->; reflexivity|].
    simpl. intros Hbars.
    repeat (destruct Hbars as [<-|Hbars]; [reflexivity|]). contradiction.
  - intros t Hbars Ht ->. simpl in Hbars, Ht.
    repeat (destruct Hbars as [<-|Hbars]; [|]);
      try contradiction;
      repeat (destruct Ht as [<-|Ht]; [|]);
      try contradiction;
      (eexists; split; [vm_compute; reflexivity|];
       split; [vm_compute; discriminate|];
       intros [Heq|Heq]; try discriminate Heq; reflexivity).
Qed.

(** *** The bass line of a bar starts on the root of its chord *)

Lemma all_digits_after_strip rest x :
  all_digits rest = false ->
  all_digits (strip_trailing_digits rest ++ x) = false.
Proof.
  induction rest as [|d r IH]; [discriminate|].
  intros Hd. cbn [strip_trailing_digits]. rewrite Hd.
  cbn [append all_digits]. cbn [all_digits] in Hd.
  destruct (is_digit d); [|reflexivity]. cbn [andb] in *. now apply IH.
Qed.

(** Stripping the octave from a root name given octave 2 gives the root
    name back. *)
Lemma strip_octave_2 s :
  strip_trailing_digits (strip_trailing_digits s ++ "2")
  = strip_trailing_digits s.
Proof.
  induction s as [|c rest IH]; [reflexivity|].
  cbn [strip_trailing_digits].
  destruct (all_digits (String c rest)) eqn:Hd; [reflexivity|].
  cbn [append strip_trailing_digits]. rewrite IH.
  replace (all_digits (String c (strip_trailing_digits rest ++ "2")))
    with false; [reflexivity|].
  cbn [all_digits] in *. destruct (is_digit c); [|reflexivity].
  cbn [andb] in *. symmetry. now apply all_digits_after_strip.
Qed.

Lemma extends_refl track : extends track track.
Proof. exists []. now rewrite app_nil_r. Qed.

Lemma extends_trans t1 t2 t3 : extends t1 t2 -> extends t2 t3 -> extends t1 t3.
Proof.
  intros [m1 ->] [m2 ->]. exists (m1 ++ m2). now rewrite app_assoc.
Qed.

Lemma add_humanized_inv track p d vel vamount tick tamount ch n track' n' :
  add_humanized Math_random track p d vel vamount tick tamount ch n
  = Ok (track', n') ->
  exists e, track' = track ++ [Note e] /\ pitch e = p.
Proof.
  unfold add_humanized. intros H. binds_inv H.
  apply ret_inv in H. destruct H as [-> _]. eexists. split; reflexivity.
Qed.

Lemma add_on_tick_inv track p d vel vamount tick n track' n' :
  add_on_tick Math_random track p d vel vamount tick n = Ok (track', n') ->
  exists e, track' = track ++ [Note e] /\ pitch e = p.
Proof.
  unfold add_on_tick. intros H. binds_inv H.
  apply ret_inv in H. destruct H as [-> _]. eexists. split; reflexivity.
Qed.

Lemma foldM_extends {A} (f : Track -> A -> M Track) l :
  (forall t a n t' n', f t a n = Ok (t', n') -> extends t t') ->
  forall t n t' n', foldM f l t n = Ok (t', n') -> extends t t'.
Proof.
  intros Hf. induction l as [|a l IH]; intros t n t' n' H; simpl in H.
  - apply ret_inv in H. destruct H as [-> _]. apply extends_refl.
  - apply bind_inv in H. destruct H as (t1 & n1 & H1 & H2).
    eapply extends_trans; [eapply Hf; exact H1|eapply IH; exact H2].
Qed.

(** A loop over a list that is not empty, whose first round adds a note of
    pitch [p] and whose other rounds only add events. *)
Lemma foldM_first_note {A} (f : Track -> A -> M Track) a l p t n t' n' :
  (forall t n t' n', f t a n = Ok (t', n') ->
                     exists e, t' = t ++ [Note e] /\ pitch e = p) ->
  (forall t b n t' n', f t b n = Ok (t', n') -> extends t t') ->
  foldM f (a :: l) t n = Ok (t', n') ->
  exists e more, t' = t ++ Note e :: more /\ pitch e = p.
Proof.
  intros Hfirst Hrest H. simpl in H.
  apply bind_inv in H. destruct H as (t1 & n1 & H1 & H2).
  apply Hfirst in H1. destruct H1 as (e & -> & Hp).
  apply (foldM_extends f l Hrest) in H2. destruct H2 as [more ->].
  exists e, more. split; [now rewrite <- app_assoc|exact Hp].
Qed.

Lemma add_humanized_extends track p d vel vamount tick tamount ch n track' n' :
  add_humanized Math_random track p d vel vamount tick tamount ch n
  = Ok (track', n') -> extends track track'.
Proof.
  intros H. apply add_humanized_inv in H. destruct H as (e & -> & _).
  now eexists.
Qed.

Lemma bass_tone_inv chordNotes k octave n tone n' :
  bass_tone chordNotes k octave n = Ok (tone, n') -> n' = n.
Proof.
  unfold bass_tone. destruct (read chordNotes k); try discriminate;
    intros E; apply ret_inv in E; now destruct E.
Qed.

Lemma generateBass_first_note track bassRoot chordNotes barNumber
    baseVelocity style progression progressionPos section n track' n' :
  generateBass Math_random track bassRoot chordNotes barNumber baseVelocity
    style progression progressionPos section n = Ok (track', n') ->
  exists e more,
    track' = track ++ Note e :: more
    /\ pitch e
       = [concat_number (Some (strip_trailing_digits bassRoot)) 2].
Proof.
  unfold generateBass. intros H.
  apply bind_inv in H. destruct H as (third & n1 & H1 & H).
  apply bind_inv in H. destruct H as (fifth & n2 & H2 & H).
  apply bass_tone_inv in H1. apply bass_tone_inv in H2. subst n1 n2.
  assert (Hloop :
    forall A (f : Track -> A -> M Track) a l,
      foldM f (a :: l) track n = Ok (track', n') ->
      (forall t n t' n', f t a n = Ok (t', n') ->
         exists e, t' = t ++ [Note e]
                   /\ pitch e
                      = [concat_number
                           (Some (strip_trailing_digits bassRoot)) 2]) ->
      (forall t b n t' n', f t b n = Ok (t', n') -> extends t t') ->
      exists e more,
        track' = track ++ Note e :: more
        /\ pitch e
           = [concat_number (Some (strip_trailing_digits bassRoot)) 2]).
  { intros A f a l Hfold Hfirst Hrest.
    exact (foldM_first_note f a l _ _ _ _ _ Hfirst Hrest Hfold). }
  assert (Hone :
    forall p d vel vamount tick,
      add_on_tick Math_random track
        [concat_number (Some (strip_trailing_digits bassRoot)) 2]
        d vel vamount tick n = Ok (track', n') ->
      p = [concat_number (Some (strip_trailing_digits bassRoot)) 2]
      -> exists e more, track' = track ++ Note e :: more /\ pitch e = p).
  { intros p d vel vamount tick Hadd ->. apply add_on_tick_inv in Hadd.
    destruct Hadd as (e & -> & Hp). now exists e, []. }
  destruct (_ || _).
  { eapply Hone; [exact H|reflexivity]. }
  destruct (SongSection_eqb section climax);
    repeat match type of H with
           | (if ?b then _ else _) _ = _ => destruct b
           end;
    try (eapply Hone; [exact H|reflexivity]);
    try (change (upto 16) with (0 :: map Z.of_nat (seq 1 15)) in H);
    try (change (upto 8) with (0 :: map Z.of_nat (seq 1 7)) in H);
    try (eapply Hloop;
         [exact H
         |intros ? ? ? ? Hs; apply add_humanized_inv in Hs; exact Hs
         |intros ? b ? ? ? Hs; try destruct b as [[? ?] ?];
          try destruct b as [? ?];
          apply add_humanized_extends in Hs; exact Hs]).
  (* Ambient in a climax: the root, then its octave *)
  apply bind_inv in H. destruct H as (t1 & n1 & H1 & H2).
  apply add_on_tick_inv in H1. destruct H1 as (e & -> & Hp).
  apply add_on_tick_inv in H2. destruct H2 as (e2 & -> & _).
  exists e, [Note e2]. split; [now rewrite <- app_assoc|exact Hp].
Qed.

Lemma sc_bass_always section : sc_bass (SECTION_CONFIGS section) = true.
Proof. now destruct section. Qed.

(** Every bar adds to the bass track, first of all a note on the root of
    the chord it resolved. *)
Lemma generateSegment_bar_bass bars key mode style totalBarsOffset
    extensionDirection styleParams scale progression motif st bar n st' n' :
  generateSegment_bar Math_random Math_sin bars key mode style
    totalBarsOffset extensionDirection styleParams scale progression motif
    st bar n = Ok (st', n') ->
  exists p chord chordNotes first e more,
    progression = Entry p
    /\ at_index p (current_index (ls_progressionPos st) p) = Some chord
    /\ getChordFromDegree key mode (fst chord) (snd chord) 3 = Ok chordNotes
    /\ at_index chordNotes 0 = Some (PitchName first)
    /\ ls_bassTrack st' = ls_bassTrack st ++ Note e :: more
    /\ pitch e = [PitchName (strip_trailing_digits first ++ "2")].
Proof.
  unfold generateSegment_bar. intros H.
  binds_inv H.
  apply ret_inv in H. destruct H as [-> _].
  apply progression_array_inv in E. apply progression_entry_inv in E0.
  apply lift_inv in E1. destruct E1 as [E1 _].
  apply chord_root_name_inv in E3. destruct E3 as (first & Hfirst & ->).
  rewrite sc_bass_always in E8.
  apply generateBass_first_note in E8. destruct E8 as (e & more & -> & Hp).
  rewrite strip_octave_2 in Hp.
  eexists _, (_, _), _, first, e, more. cbn [fst snd ls_bassTrack].
  split; [exact E|]. split; [exact E0|]. split; [exact E1|].
  split; [exact Hfirst|]. split; [reflexivity|exact Hp].
Qed.

Lemma generateSegment_loop_bass bars key mode style totalBarsOffset
    extensionDirection styleParams scale progression motif l st n st' n' :
  foldM
    (generateSegment_bar Math_random Math_sin bars key mode style
       totalBarsOffset extensionDirection styleParams scale progression
       motif)
    l st n = Ok (st', n') ->
  extends (ls_bassTrack st) (ls_bassTrack st').
Proof.
  revert st n. induction l as [|bar l IH]; intros st n H; simpl in H.
  - apply ret_inv in H. destruct H as [-> _]. apply extends_refl.
  - apply bind_inv in H. destruct H as (st1 & n1 & H1 & H2).
    apply generateSegment_bar_bass in H1.
    destruct H1 as (p & chord & cn & first & e & more & _ & _ & _ & _ & Hb
                    & _).
    eapply extends_trans; [|eapply IH; exact H2].
    rewrite Hb. now eexists.
Qed.

(** C1: when B's context takes its [progressionPosition] and [motif] from
    the [SegmentInfo] that A returned, B's bar loop starts at A's ending
    position, so that B's first bar reads its chord from the progression of
    the style at that position (modulo the length, as every bar does): the
    first note of B's bass track is the root of that chord.  And B returns
    A's motif itself. *)
Theorem continuation_continuity optionsA contextA nA resA nA'
    optionsB contextB nB resB nB' :
  generateSegment Math_random Math_sin optionsA contextA nA
  = Ok (resA, nA') ->
  or_default (opt_style optionsB) "ambient"%string
  = or_default (opt_style optionsA) "ambient"%string ->
  ctx_progressionPosition contextB = progressionPosition (segmentInfo resA) ->
  ctx_motif contextB = Some (motif (segmentInfo resA)) ->
  generateSegment Math_random Math_sin optionsB (Some contextB) nB
  = Ok (resB, nB') ->
  let bars := or_default (opt_bars optionsB) 16 in
  let key := or_default (opt_key optionsB) "C"%string in
  let mode := or_default (opt_mode optionsB) "major"%string in
  let tempo := or_default (opt_tempo optionsB) 90%Q in
  let style := or_default (opt_style optionsA) "ambient"%string in
  let positionA := progressionPosition (segmentInfo resA) in
  motif (segmentInfo resB) = motif (segmentInfo resA)
  /\ exists p scale st0,
       getProgression style = Entry p
       /\ Generator.getScale key mode 4 = Ok scale
       /\ generateSegment_init Math_random tempo style scale (Some contextB)
            nB = Ok ((motif (segmentInfo resA), st0), nB)
       /\ ls_progressionPos st0 = positionA
       /\ (0 < bars ->
           exists chord chordNotes first e rest,
             at_index p (current_index positionA p) = Some chord
             /\ (0 <= positionA < Z.of_nat (List.length p) ->
                 at_index p positionA = Some chord)
             /\ getChordFromDegree key mode (fst chord) (snd chord) 3
                = Ok chordNotes
             /\ at_index chordNotes 0 = Some (PitchName first)
             /\ notes_of (bassTrack resB) = e :: rest
             /\ pitch e = [PitchName (strip_trailing_digits first ++ "2")]).
Proof.
  intros HA Hstyle Hpos Hmotif HB bars key mode tempo style positionA.
  apply generateSegment_inv in HB. cbv zeta in HB.
  destruct HB as (scale & p & m & st0 & n1 & st & n2 & fc & fcn & first & HB).
  destruct HB as (Hscale & Hp & Hinit & Hloop & _ & _ & _ & Hinfo & _ & _
                  & Hbass & _).
  rewrite Hstyle in Hp, Hinit, Hloop. fold style in Hp, Hinit, Hloop.
  pose proof (generateSegment_init_inv _ _ _ _ _ _ _ _ Hinit) as Hi.
  destruct Hi as (Hpos0 & _ & _ & _ & _ & Hm).
  assert (Hbass0 : notes_of (ls_bassTrack st0) = []).
  { unfold generateSegment_init in Hinit.
    apply bind_inv in Hinit. destruct Hinit as (m' & n3 & _ & Hret).
    apply ret_inv in Hret. destruct Hret as [Hret _].
    injection Hret as _ ->. reflexivity. }
  destruct contextB as [? ? ? ? posB ? ? ? ? ? motifB].
  cbn in Hpos, Hmotif, Hpos0, Hm. subst motifB. destruct Hm as [-> ->].
  split; [rewrite Hinfo; reflexivity|].
  exists p, scale, st0. split; [exact Hp|]. split; [exact Hscale|].
  split; [exact Hinit|].
  split; [subst positionA; congruence|].
  intros Hbars.
  assert (Hupto : upto bars = 0 :: map Z.of_nat (seq 1 (Z.to_nat bars - 1))).
  { unfold upto. destruct (Z.to_nat bars) as [|k] eqn:Hk; [lia|].
    simpl. now rewrite Nat.sub_0_r. }
  fold bars key mode in Hloop. rewrite Hupto in Hloop. simpl in Hloop.
  apply bind_inv in Hloop. destruct Hloop as (st1 & n3 & Hbar & Hrest).
  rewrite Hp in Hbar.
  apply generateSegment_bar_bass in Hbar.
  destruct Hbar as (p' & chord & cn & first' & e & more & Hp' & Hchord & Hcn
                    & Hfirst & Hb1 & Hpitch).
  injection Hp' as <-.
  rewrite Hpos0, Hpos in Hchord.
  apply generateSegment_loop_bass in Hrest. destruct Hrest as [more' Hb].
  exists chord, cn, first', e,
    (notes_of more ++ notes_of more').
  split; [exact Hchord|]. split.
  { intros Hrange. unfold current_index, rem in Hchord.
    rewrite Z.rem_small in Hchord by exact Hrange. exact Hchord. }
  split; [exact Hcn|]. split; [exact Hfirst|]. split; [|exact Hpitch].
  rewrite Hbass, Hb, Hb1. unfold notes_of in *.
  rewrite !flat_map_app, Hbass0. cbn. reflexivity.
Qed.

Lemma rate_positive style rate :
  getProgressionRate style = Entry rate -> 0 < rate.
Proof.
  intros H. apply get_or_cases in H. simpl in H.
  repeat (destruct H as [H'|H]; [subst rate; lia|]).
  contradiction.
Qed.

Lemma advance_below pos len : 0 < len -> advance pos len < len.
Proof.
  intros Hlen. unfold advance, rem.
  pose proof (Z.rem_bound_abs (pos + 1) len ltac:(lia)). lia.
Qed.

Lemma advance_nonneg pos len : 0 <= pos -> 0 < len -> 0 <= advance pos len.
Proof. intros Hp Hl. unfold advance, rem. apply Z.rem_nonneg; lia. Qed.

Lemma at_index_Some_length {A} (l : list A) i a :
  at_index l i = Some a -> 0 <= i < Z.of_nat (List.length l).
Proof.
  unfold at_index. destruct (Z.ltb_spec i 0) as [Hi|Hi]; [discriminate|].
  intros H. assert (Hn : nth_error l (Z.to_nat i) <> None) by congruence.
  apply nth_error_Some in Hn. lia.
Qed.

(** Advancing [k] times from a position inside the progression. *)
Lemma advance_iter len pos k :
  0 <= pos < len ->
  Nat.iter (S k) (fun x => advance x len) pos
  = (pos + Z.of_nat (S k)) mod len.
Proof.
  intros Hpos. induction k as [|k IH].
  - simpl. unfold advance, rem. rewrite Z.rem_mod_nonneg by lia.
    f_equal.
  - change (Nat.iter (S (S k)) (fun x => advance x len) pos)
      with (advance (Nat.iter (S k) (fun x => advance x len) pos) len).
    rewrite IH. unfold advance, rem.
    pose proof (Z.mod_pos_bound (pos + Z.of_nat (S k)) len ltac:(lia)).
    rewrite Z.rem_mod_nonneg by lia.
    rewrite Zplus_mod_idemp_l. f_equal. lia.
Qed.

(** C6, as stated, fails: a position handed in by the context beyond the
    end of the progression comes back unchanged when the segment is shorter
    than the style's progression rate (here 2 bars of ambient, whose
    progression has 4 entries and advances every 4 bars). *)
Lemma progression_position_can_exceed_length :
  match
    result_of
      (generateSegment (constant_random (1 # 2)) rational_sin
         (bars_and_style 2 "ambient")
         (Some (context_at "ambient" 9 default_dynamics None)) 0%nat)
  with
  | Some res => progressionPosition (segmentInfo res) = 9
  | None => False
  end
  /\ getProgression "ambient" = Entry PROGRESSIONS_ambient
  /\ Z.of_nat (List.length PROGRESSIONS_ambient) = 4.
Proof. vm_compute. auto. Qed.

(** C6 (amended): the returned [progressionPosition] is below the length of
    the style's progression whenever there is no context, or the context's
    position is below that length, or the segment has at least as many bars
    as the style's progression rate (so that the position advances at least
    once); and advancing a position inside the progression as many times as
    the progression is long leads back to it. *)
Theorem progression_position_bound options continuationContext n res n' p
    rate :
  generateSegment Math_random Math_sin options continuationContext n
  = Ok (res, n') ->
  let bars := or_default (opt_bars options) 16 in
  let style := or_default (opt_style options) "ambient"%string in
  getProgression style = Entry p ->
  getProgressionRate style = Entry rate ->
  continuationContext = None
  \/ (exists c, continuationContext = Some c
                /\ ctx_progressionPosition c < Z.of_nat (List.length p))
  \/ rate <= bars ->
  progressionPosition (segmentInfo res) < Z.of_nat (List.length p)
  /\ forall position, 0 <= position < Z.of_nat (List.length p) ->
       Nat.iter (List.length p)
         (fun x => advance x (Z.of_nat (List.length p))) position
       = position.
Proof.
  intros H bars style Hp Hrate Hcases.
  apply generateSegment_inv in H. cbv zeta in H.
  destruct H as (scale & p' & m & st0 & n1 & st & n2 & fc & fcn & first & H).
  destruct H as (_ & Hp' & Hinit & Hloop & Hfinal & _ & _ & Hinfo & _).
  fold style in Hp', Hinit, Hloop. fold bars in Hloop.
  rewrite Hp in Hp'. injection Hp' as <-.
  apply at_index_Some_length in Hfinal.
  set (len := Z.of_nat (List.length p)) in *.
  assert (Hlen : 0 < len) by lia.
  split.
  - rewrite Hinfo. cbn [progressionPosition].
    pose proof (rate_positive _ _ Hrate) as Hrpos.
    apply generateSegment_init_inv in Hinit.
    destruct Hinit as (Hpos0 & _).
    pose (pos0 := ls_progressionPos st0).
    pose (I := fun (k : Z) (s : LoopState) =>
                 (k < rate /\ ls_progressionPos s = pos0)
                 \/ ls_progressionPos s < len).
    assert (Hinv : I (Z.max 0 bars) st).
    { eapply (ensures_foldM_upto I); [|left; split; [lia|reflexivity]
                                      |exact Hloop].
      intros k s Hk HI n0 s' n'0 Hbar.
      apply generateSegment_bar_inv in Hbar. cbv zeta in Hbar.
      destruct Hbar as (p' & chord & cn & br & lm & Hp' & _ & _ & Hpos' & _).
      rewrite Hp in Hp'. injection Hp' as <-. fold len in Hpos'.
      unfold progression_advances in Hpos'. rewrite Hrate in Hpos'.
      unfold I. rewrite Hpos'. unfold rem.
      destruct (Z.eqb_spec (Z.rem (k + 1) rate) 0) as [Hadv|Hadv].
      - right. now apply advance_below.
      - destruct HI as [[Hlt Heq]|Hlt]; [|now right].
        left. split; [|exact Heq].
        assert (Hne : k + 1 <> rate); [|lia].
        intros Hk1. apply Hadv. rewrite Hk1. apply Z.rem_same. lia. }
    destruct Hinv as [[Hlt Heq]|Hlt]; [|exact Hlt].
    rewrite Heq. unfold pos0. rewrite Hpos0.
    destruct Hcases as [->|[(c & -> & Hc)|Hr]]; [lia|exact Hc|lia].
  - intros position Hposition.
    destruct (List.length p) as [|k] eqn:Hk; [subst len; simpl in Hlen; lia|].
    rewrite advance_iter by (subst len; lia).
    subst len.
    replace (position + Z.of_nat (S k))
      with (position + 1 * Z.of_nat (S k)) by lia.
    rewrite Z_mod_plus_full. apply Z.mod_small. lia.
Qed.

End Segment.

(* ================================================================== *)
(** ** The ending chord *)

Section EndingChord.

Variable Math_random : nat -> Q.
Variable Math_sin : Q -> Q.

Lemma rem_nonneg_mod a b : 0 <= a -> 0 < b -> rem a b = a mod b.
Proof. intros Ha Hb. unfold rem. apply Z.rem_mod_nonneg; lia. Qed.

(** After an advance, the index one step behind is the index advanced
    from. *)
Lemma final_index_after_advance pos len :
  0 <= pos -> 0 < len ->
  rem (advance pos len - 1 + len) len = rem pos len.
Proof.
  intros Hpos Hlen. unfold advance.
  rewrite (rem_nonneg_mod (pos + 1)) by lia.
  pose proof (Z.mod_pos_bound (pos + 1) len Hlen) as Hb.
  rewrite !rem_nonneg_mod by lia.
  replace ((pos + 1) mod len - 1 + len)
    with ((pos + 1) mod len + (len - 1)) by lia.
  rewrite Zplus_mod_idemp_l.
  replace (pos + 1 + (len - 1)) with (pos + 1 * len) by lia.
  apply Z_mod_plus_full.
Qed.

(** Without an advance, the index one step behind is another index as soon
    as the progression has two entries. *)
Lemma final_index_without_advance pos len :
  0 <= pos -> 1 < len ->
  rem (pos - 1 + len) len <> rem pos len.
Proof.
  intros Hpos Hlen. rewrite !rem_nonneg_mod by lia.
  pose proof (Z.mod_pos_bound pos len ltac:(lia)) as Hb.
  replace (pos - 1 + len) with (pos + (len - 1)) by lia.
  rewrite <- Zplus_mod_idemp_l.
  destruct (Z.eq_dec (pos mod len) 0) as [Hz|Hz].
  - rewrite Hz. rewrite Z.mod_small by lia. lia.
  - replace (pos mod len + (len - 1)) with (pos mod len - 1 + 1 * len)
      by lia.
    rewrite Z_mod_plus_full, Z.mod_small by lia. lia.
Qed.

Lemma loop_position_nonneg bars key mode style totalBarsOffset
    extensionDirection styleParams scale progression m l st0 n1 st n2 :
  foldM
    (generateSegment_bar Math_random Math_sin bars key mode style
       totalBarsOffset extensionDirection styleParams scale progression m)
    l st0 n1 = Ok (st, n2) ->
  0 <= ls_progressionPos st0 -> 0 <= ls_progressionPos st.
Proof.
  intros Hloop H0.
  eapply (ensures_foldM (fun s => 0 <= ls_progressionPos s));
    [|exact H0|exact Hloop].
  intros s a Hs n s' n' Hbar.
  apply generateSegment_bar_inv in Hbar. cbv zeta in Hbar.
  destruct Hbar as (p & chord & cn & br & lm & _ & Hchord & _ & Hpos' & _).
  apply at_index_Some_length in Hchord.
  rewrite Hpos'. destruct (progression_advances style a); [|exact Hs].
  apply advance_nonneg; lia.
Qed.

(** C10, as stated, fails in its last part: a lofi segment of one bar (the
    lofi rate is 2, and 1 is not a multiple of it) resolves its only bar
    from entry 0 of the progression and computes the ending chord from entry
    3; both entries are the major seventh chord on degree 0, so the ending
    chord is the chord of the final bar all the same. *)
Lemma ending_chord_of_one_lofi_bar :
  match
    result_of
      (generateSegment (constant_random (1 # 2)) rational_sin
         (bars_and_style 1 "lofi") None 0%nat)
  with
  | Some res =>
      progressionPosition (segmentInfo res) = 0
      /\ endingChord (segmentInfo res) = "C"%string
      /\ endingChordType (segmentInfo res) = "maj7"%string
      /\ map fst (chords (endingNotes (segmentInfo res)))
         = [map PitchName ["C3"; "E3"; "G3"; "B3"]%string]
  | None => False
  end
  /\ getChordFromDegree "C" "major" 0 "maj7" 3
     = Ok (map PitchName ["C3"; "E3"; "G3"; "B3"]%string)
  /\ (exists p, getProgression "lofi" = Entry p
                /\ at_index p 0 = Some (0, "maj7"%string)
                /\ at_index p 3 = Some (0, "maj7"%string))
  /\ getProgressionRate "lofi" = Entry 2
  /\ rem 1 2 <> 0.
Proof.
  vm_compute. repeat split; try congruence.
  eexists. repeat split.
Qed.

(** A style whose progression can be read has a progression rate. *)
Lemma getProgression_rate style p :
  getProgression style = Entry p ->
  exists rate, getProgressionRate style = Entry rate.
Proof.
  intros Hp. destruct (is_prototype_key style) eqn:Hk.
  - exfalso. unfold is_prototype_key in Hk.
    apply existsb_exists in Hk. destruct Hk as (k & Hin & Heq).
    apply String.eqb_eq in Heq. subst k. simpl in Hin.
    repeat (destruct Hin as [<-|Hin]; [vm_compute in Hp; discriminate|]).
    contradiction.
  - unfold getProgressionRate. now apply get_or_Entry.
Qed.

(** C10 (amended): in every call that returns, a call for no bars
    included, [endingChord] and [endingChordType] are computed from the
    progression entry at index
    [(progressionPosition - 1 + length) mod length], one step behind the
    returned position.  For a segment of at least one bar starting from a
    non-negative position: when [bars] is a multiple of the style's
    progression rate, that index is the one the final bar resolved its chord
    from, and the two chords are the same; when it is not, the returned
    position is the one the final bar used and that index lies one step
    behind it, a different index as soon as the progression has two entries
    (the entry found there may still be an equal chord). *)
Theorem ending_chord_entry options continuationContext n res n' :
  generateSegment Math_random Math_sin options continuationContext n
  = Ok (res, n') ->
  let bars := or_default (opt_bars options) 16 in
  let key := or_default (opt_key options) "C"%string in
  let mode := or_default (opt_mode options) "major"%string in
  let style := or_default (opt_style options) "ambient"%string in
  let position := progressionPosition (segmentInfo res) in
  exists p finalChord finalChordNotes first,
    let len := Z.of_nat (List.length p) in
    getProgression style = Entry p
    /\ at_index p (rem (position - 1 + len) len) = Some finalChord
    /\ endingChordType (segmentInfo res) = snd finalChord
    /\ getChordFromDegree key mode (fst finalChord) (snd finalChord) 3
       = Ok finalChordNotes
    /\ at_index finalChordNotes 0 = Some (PitchName first)
    /\ endingChord (segmentInfo res) = strip_trailing_digits first
    /\ (0 < bars ->
        match continuationContext with
        | Some c => 0 <= ctx_progressionPosition c
        | None => True
        end ->
        exists rate lastPosition barChord barChordNotes velocity earlier,
          getProgressionRate style = Entry rate
          /\ at_index p (rem lastPosition len) = Some barChord
          /\ getChordFromDegree key mode (fst barChord) (snd barChord) 3
             = Ok barChordNotes
          /\ chords (endingNotes (segmentInfo res))
             = earlier ++ [(barChordNotes, velocity)]
          /\ (rem bars rate = 0 ->
              rem (position - 1 + len) len = rem lastPosition len
              /\ finalChord = barChord /\ finalChordNotes = barChordNotes)
          /\ (rem bars rate <> 0 ->
              position = lastPosition
              /\ (1 < len ->
                  rem (position - 1 + len) len <> rem lastPosition len))).
Proof.
  intros H bars key mode style position.
  apply generateSegment_inv in H. cbv zeta in H.
  destruct H as (scale & p & m & st0 & n1 & st & n2 & fc & fcn & first & H).
  destruct H as (_ & Hp & Hinit & Hloop & Hfinal & Hfcn & Hfirst & Hinfo & _).
  fold style in Hp, Hinit, Hloop. fold bars key mode in Hloop.
  fold key mode in Hfcn.
  exists p, fc, fcn, first. cbv zeta.
  set (len := Z.of_nat (List.length p)).
  unfold final_index in Hfinal. fold len in Hfinal.
  subst position. rewrite Hinfo.
  cbn [progressionPosition endingChordType endingChord endingNotes].
  split; [exact Hp|]. split; [exact Hfinal|]. split; [reflexivity|].
  split; [exact Hfcn|]. split; [exact Hfirst|]. split; [reflexivity|].
  intros Hbars Hctx.
  destruct (getProgression_rate _ _ Hp) as [rate Hrate].
  apply generateSegment_init_inv in Hinit. destruct Hinit as (Hpos0 & _).
  assert (H0 : 0 <= ls_progressionPos st0).
  { rewrite Hpos0. destruct continuationContext; [exact Hctx|lia]. }
  replace bars with (bars - 1 + 1) in Hloop at 2 by lia.
  rewrite upto_succ, foldM_app in Hloop by lia.
  apply bind_inv in Hloop. destruct Hloop as (stp & n3 & Hprev & Hlast).
  pose proof (loop_position_nonneg _ _ _ _ _ _ _ _ _ _ _ _ _ _ _ Hprev H0)
    as Hposp.
  simpl in Hlast. apply bind_inv in Hlast.
  destruct Hlast as (st' & n4 & Hbar & Hret).
  apply ret_inv in Hret. destruct Hret as [-> _].
  apply generateSegment_bar_inv in Hbar. cbv zeta in Hbar.
  destruct Hbar as (p' & chord & cn & br & lm & Hp' & Hchord & Hcn & Hpos'
                    & Hending).
  rewrite Hp in Hp'. injection Hp' as <-.
  pose proof (at_index_Some_length _ _ _ Hchord) as Hlen.
  fold len in Hpos', Hlen.
  unfold current_index in Hchord. fold len in Hchord.
  assert (Hadv : progression_advances style (bars - 1)
                 = (rem bars rate =? 0)).
  { unfold progression_advances. rewrite Hrate. do 2 f_equal. lia. }
  rewrite Hadv in Hpos'.
  replace (bars - 2 <=? bars - 1) with true in Hending by lia.
  rewrite Hending. cbn [chords].
  eexists rate, (ls_progressionPos stp), chord, cn, _, _.
  split; [exact Hrate|]. split; [exact Hchord|]. split; [exact Hcn|].
  split; [reflexivity|].
  split.
  - intros Hrem. rewrite Hpos' in *. rewrite Hrem in *. simpl in *.
    assert (Hidx : rem (advance (ls_progressionPos stp) len - 1 + len) len
                   = rem (ls_progressionPos stp) len)
      by (apply final_index_after_advance; lia).
    split; [exact Hidx|].
    rewrite Hidx in Hfinal.
    assert (fc = chord) by congruence. subst fc.
    split; [reflexivity|congruence].
  - intros Hrem. apply Z.eqb_neq in Hrem. rewrite Hrem in Hpos'.
    split; [exact Hpos'|].
    intros Hlen1. rewrite Hpos'. apply final_index_without_advance; lia.
Qed.

End EndingChord.

(* ================================================================== *)
(** ** The base velocity of a bar *)

Section BaseVelocity.

Variable Math_random : nat -> Q.
Variable Math_sin : Q -> Q.

Lemma getBaseVelocity_range dynamics currentBar totalBars :
  (40 <= getBaseVelocity Math_sin dynamics currentBar totalBars <= 100)%Q.
Proof.
  unfold getBaseVelocity. split.
  - apply Q.min_glb; [discriminate|apply Q.le_max_l].
  - apply Q.le_min_l.
Qed.

Lemma velocityMod_range section :
  (-15 <= sc_velocityMod (SECTION_CONFIGS section) <= 15)%Q.
Proof. destruct section; split; discriminate. Qed.



(** The base velocities a segment records in its ending notes are base
    velocities of its bars: they lie in [25,115]. *)
Lemma ending_velocities_bounded options continuationContext n res n' :
  generateSegment Math_random Math_sin options continuationContext n
  = Ok (res, n') ->
  Forall (fun e => 25 <= snd e <= 115)%Q
    (bass (endingNotes (segmentInfo res))).
Proof.
  intros H. apply generateSegment_inv in H. cbv zeta in H.
  destruct H as (scale & p & m & st0 & n1 & st & n2 & fc & fcn & first & H).
  destruct H as (_ & _ & Hinit & Hloop & _ & _ & _ & Hinfo & _).
  rewrite Hinfo. cbn [endingNotes].
  apply generateSegment_init_inv in Hinit.
  destruct Hinit as (_ & _ & Hending0 & _).
  eapply (ensures_foldM
            (fun s => Forall (fun e => 25 <= snd e <= 115)%Q
                        (bass (ls_endingNotes s))));
    [|rewrite Hending0; constructor|exact Hloop].
  intros s bar Hs n0 s' n0' Hbar.
  apply generateSegment_bar_inv in Hbar. cbv zeta in Hbar.
  destruct Hbar as (p' & chord & cn & br & lm & _ & _ & _ & _ & Hending).
  rewrite Hending. destruct (_ <=? bar); [|exact Hs].
  cbn [bass]. apply Forall_app. split; [exact Hs|].
  constructor; [|constructor]. cbn [snd].
  unfold bar_baseVelocity.
  pose proof (getBaseVelocity_range (ls_dynamics s) bar
                (or_default (opt_bars options) 16)) as Hr.
  pose proof (velocityMod_range
                (getSongSection bar (or_default (opt_bars options) 16)
                   (or_default (opt_totalBarsOffset options) 0)
                   (or_default (opt_extensionDirection options) continue)))
    as Hm.
  lra.
Qed.

End BaseVelocity.

(* ================================================================== *)
(** ** Style-keyed tables *)

Section StyleTables.

(** C3, as stated, fails: for a style name no table knows, the drum grid is
    lofi's and the chord progression is the pop progression, neither of
    which is ambient's; the progression rate is 2, where ambient's is 4. *)
Lemma unknown_style_gets_lofi_drums_and_pop_chords :
  drum_pattern "reggae" = Entry DRUM_PATTERNS_lofi
  /\ DRUM_PATTERNS_lofi <> DRUM_PATTERNS_ambient
  /\ getProgression "reggae" = Entry PROGRESSIONS_pop
  /\ PROGRESSIONS_pop <> PROGRESSIONS_ambient
  /\ getProgressionRate "reggae" = Entry 2
  /\ getProgressionRate "ambient" = Entry 4.
Proof. repeat split; try reflexivity; discriminate. Qed.

(** C3 (amended): for a style name that is not a member inherited from
    [Object.prototype], every style-keyed lookup yields an entry of its
    table and none throws; when the name is not a key of the table, the
    entry is ambient's for the style parameters and the instrument
    assignments, lofi's for the drum patterns, the pop progression for the
    chord progressions, and 2 for the progression rate. *)
Theorem style_lookups_fall_back (style : string) :
  is_prototype_key style = false ->
  ((exists sp, style_params style = Entry sp)
   /\ (own STYLE_PARAMS style = None ->
       style_params style = Entry STYLE_PARAMS_ambient))
  /\ ((exists i, getInstrumentsForStyle style = Entry i)
      /\ (own instruments style = None ->
          getInstrumentsForStyle style = Entry instruments_ambient))
  /\ ((exists d, drum_pattern style = Entry d)
      /\ (own DRUM_PATTERNS style = None ->
          drum_pattern style = Entry DRUM_PATTERNS_lofi))
  /\ ((exists p, getProgression style = Entry p)
      /\ (own PROGRESSIONS style = None ->
          getProgression style = Entry PROGRESSIONS_pop))
  /\ ((exists r, getProgressionRate style = Entry r)
      /\ (own rates style = None -> getProgressionRate style = Entry 2)).
Proof.
  intros Hproto.
  unfold style_params, getInstrumentsForStyle, drum_pattern, getProgression,
    getProgressionRate.
  repeat split;
    (apply get_or_Entry || apply get_or_fallback); assumption.
Qed.

Lemma style_lookups_fall_back_witness :
  ((exists sp, style_params "reggae" = Entry sp)
   /\ (own STYLE_PARAMS "reggae" = None ->
       style_params "reggae" = Entry STYLE_PARAMS_ambient))
  /\ ((exists i, getInstrumentsForStyle "reggae" = Entry i)
      /\ (own instruments "reggae" = None ->
          getInstrumentsForStyle "reggae" = Entry instruments_ambient))
  /\ ((exists d, drum_pattern "reggae" = Entry d)
      /\ (own DRUM_PATTERNS "reggae" = None ->
          drum_pattern "reggae" = Entry DRUM_PATTERNS_lofi))
  /\ ((exists p, getProgression "reggae" = Entry p)
      /\ (own PROGRESSIONS "reggae" = None ->
          getProgression "reggae" = Entry PROGRESSIONS_pop))
  /\ ((exists r, getProgressionRate "reggae" = Entry r)
      /\ (own rates "reggae" = None -> getProgressionRate "reggae" = Entry 2)).
Proof. apply (style_lookups_fall_back "reggae"). reflexivity. Defined.


End StyleTables.

(* ================================================================== *)
(** ** Totality *)

Section Totality.

Variable Math_random : nat -> Q.
Variable Math_sin : Q -> Q.

(** [Math.random()] returns a number from 0 inclusive to 1 exclusive. *)
Hypothesis Math_random_range : forall k, (0 <= Math_random k < 1)%Q.

Local Abbreviation runs m := (returns (fun _ => True) m).





Lemma returns_random : returns (fun r => 0 <= r < 1)%Q (random Math_random).
Proof. intros n. exists (Math_random n), (S n). split; [reflexivity|auto]. Qed.











Lemma at_index_In {A} (l : list A) i a : at_index l i = Some a -> In a l.
Proof.
  unfold at_index. destruct (i <? 0); [discriminate|]. apply nth_error_In.
Qed.






Lemma floor_index (r : Q) (len : Z) :
  (0 <= r < 1)%Q -> 0 < len ->
  0 <= Math_floor (r * inject_Z len) < len.
Proof.
  intros [Hr0 Hr1] Hlen. unfold Math_floor.
  assert (Hl : (0 < inject_Z len)%Q)
    by (change 0%Q with (inject_Z 0); now rewrite <- Zlt_Qlt).
  split.
  - change 0 with (Qfloor 0). apply Qfloor_resp_le.
    apply Qmult_le_0_compat; [exact Hr0|now apply Qlt_le_weak].
  - rewrite Zlt_Qlt. eapply Qle_lt_trans; [apply Qfloor_le|].
    rewrite <- (Qmult_1_l (inject_Z len)) at 2.
    apply Qmult_lt_compat_r; assumption.
Qed.

Lemma at_index_in_range {A} (l : list A) (i : Z) :
  0 <= i < Z.of_nat (List.length l) -> exists a, at_index l i = Some a.
Proof.
  intros Hi. unfold at_index.
  destruct (Z.ltb_spec i 0) as [Hneg|_]; [lia|].
  destruct (nth_error l (Z.to_nat i)) as [a|] eqn:E; [eauto|].
  apply nth_error_None in E. lia.
Qed.

Lemma at_index_rem {A} (l : list A) (d : Z) :
  l <> [] -> 0 <= d ->
  exists a, at_index l (rem d (Z.of_nat (List.length l))) = Some a.
Proof.
  intros Hl Hd. apply at_index_in_range.
  assert (0 < Z.of_nat (List.length l)) by (destruct l; [easy|simpl; lia]).
  rewrite rem_nonneg_mod by lia. now apply Z.mod_pos_bound.
Qed.



Lemma findIndex_from_range {A} (f : A -> Z -> bool) (l : list A) (i : Z) :
  findIndex_from f l i = -1 \/ i <= findIndex_from f l i.
Proof.
  revert i. induction l as [|a l IH]; intros i; simpl; [now left|].
  destruct (f a i); [right; lia|].
  destruct (IH (i + 1)) as [H|H]; [now left|right; lia].
Qed.

Lemma findIndex_range {A} (f : A -> Z -> bool) (l : list A) :
  findIndex f l = -1 \/ 0 <= findIndex f l.
Proof. apply findIndex_from_range. Qed.












Section Melody.

Variables scale chordNotes : list Pitch.
Variable motif : list Z.
Hypothesis scale_nonempty : scale <> [].
Hypothesis scale_names : Forall defined_note scale.
Hypothesis chordNotes_nonempty : chordNotes <> [].
Hypothesis chordNotes_names : Forall defined_note chordNotes.
Hypothesis motif_nonneg : Forall (fun d => 0 <= d) motif.








End Melody.












End Totality.

(* ================================================================== *)
(** ** The note events *)

Section NoteEvents.

Variable Math_random : nat -> Q.
Variable Math_sin : Q -> Q.

Lemma notes_of_addEvent track n :
  notes_of (addEvent track (Note n)) = notes_of track ++ [n].
Proof. unfold notes_of, addEvent. now rewrite flat_map_app. Qed.

Lemma integral_inject_Z z : integral (inject_Z z).
Proof. exists z. reflexivity. Qed.

Lemma integral_floorQ x : integral (floorQ x).
Proof. apply integral_inject_Z. Qed.

Lemma integral_plus x y : integral x -> integral y -> integral (x + y).
Proof.
  intros [a Ha] [b Hb]. exists (a + b).
  now rewrite Ha, Hb, inject_Z_plus.
Qed.

Lemma integral_minus x y : integral x -> integral y -> integral (x - y).
Proof.
  intros [a Ha] [b Hb]. exists (a - b).
  rewrite Ha, Hb. unfold Z.sub, Qminus.
  now rewrite inject_Z_plus, inject_Z_opp.
Qed.

Lemma Qmin_cases x y : Qmin x y = x \/ Qmin x y = y.
Proof.
  unfold Qmin, GenericMinMax.gmin. destruct (x ?= y)%Q; auto.
Qed.

Lemma Qmax_cases x y : Qmax x y = x \/ Qmax x y = y.
Proof.
  unfold Qmax, GenericMinMax.gmax. destruct (x ?= y)%Q; auto.
Qed.

Lemma clamp_range x : (1 <= Qmin 127 (Qmax 1 x) <= 127)%Q.
Proof.
  split.
  - apply Q.min_glb; [discriminate|apply Q.le_max_l].
  - apply Q.le_min_l.
Qed.

Lemma clamp_integral x : integral x -> integral (Qmin 127 (Qmax 1 x)).
Proof.
  intros Hx.
  destruct (Qmin_cases 127 (Qmax 1 x)) as [-> | ->];
    [apply (integral_inject_Z 127)|].
  destruct (Qmax_cases 1 x) as [-> | ->];
    [apply (integral_inject_Z 1)|exact Hx].
Qed.

(** [humanizeVelocity] clamps into the range from 1 to 127, and keeps an
    integral velocity integral. *)
Lemma ensures_humanizeVelocity velocity amount :
  ensures
    (fun v => (1 <= v <= 127)%Q /\ (integral velocity -> integral v))
    (humanizeVelocity Math_random velocity amount).
Proof.
  unfold humanizeVelocity. apply ensures_bind_any. intros r.
  apply ensures_ret. split; [apply clamp_range|].
  intros Hv. apply clamp_integral.
  apply integral_plus; [exact Hv|apply integral_inject_Z].
Qed.

(** [humanizeTiming] never goes negative. *)
Lemma ensures_humanizeTiming tick amount :
  ensures (fun t => 0 <= t) (humanizeTiming Math_random tick amount).
Proof.
  unfold humanizeTiming. apply ensures_bind_any. intros r.
  apply ensures_ret. lia.
Qed.

Lemma ensures_add_humanized track p d vel vamount tick tamount ch :
  Forall well_formed (notes_of track) -> integral vel ->
  ensures (fun t => Forall well_formed (notes_of t))
    (add_humanized Math_random track p d vel vamount tick tamount ch).
Proof.
  intros Htrack Hvel. unfold add_humanized.
  eapply ensures_bind; [apply ensures_humanizeVelocity|].
  intros v [Hv Hint].
  eapply ensures_bind; [apply ensures_humanizeTiming|]. intros t Ht.
  apply ensures_ret. rewrite notes_of_addEvent.
  apply Forall_app. split; [exact Htrack|].
  constructor; [|constructor]. split; [split; assumption|]. cbn. auto.
Qed.

Lemma ensures_add_on_tick track p d vel vamount tick :
  Forall well_formed (notes_of track) -> integral vel -> 0 <= tick ->
  ensures (fun t => Forall well_formed (notes_of t))
    (add_on_tick Math_random track p d vel vamount tick).
Proof.
  intros Htrack Hvel Htick. unfold add_on_tick.
  eapply ensures_bind; [apply ensures_humanizeVelocity|].
  intros v [Hv Hint].
  apply ensures_ret. rewrite notes_of_addEvent.
  apply Forall_app. split; [exact Htrack|].
  constructor; [|constructor]. split; [split; assumption|]. cbn. auto.
Qed.

Ltac integrality :=
  repeat match goal with
    | |- integral (floorQ _) => apply integral_floorQ
    | |- integral (_ + _) => apply integral_plus
    | |- integral (_ - _) => apply integral_minus
    | |- integral (if ?b then _ else _) => destruct b
    | |- integral 10 => apply (integral_inject_Z 10)
    | |- integral 15 => apply (integral_inject_Z 15)
    | |- integral 5 => apply (integral_inject_Z 5)
    end.

Ltac track_step :=
  match goal with
  | |- ensures _ (ret _) => apply ensures_ret; try assumption
  | |- ensures _ (bind (random _) _) => apply ensures_bind_any; intros ?
  | |- ensures _ (bind _ _) =>
      eapply ensures_bind
        with (P := fun t => Forall well_formed (notes_of t));
      [|intros ? ?]
  | |- ensures _ (foldM _ _ _) =>
      apply ensures_foldM
        with (I := fun t => Forall well_formed (notes_of t));
      [intros ? ? ?|try assumption]
  | |- ensures _ (add_humanized _ _ _ _ _ _ _ _ _) =>
      apply ensures_add_humanized; [assumption|integrality]
  | |- ensures _ (add_on_tick _ _ _ _ _ _ _) =>
      apply ensures_add_on_tick; [assumption|integrality|lia]
  | |- ensures _ (if ?b then _ else _) => destruct b
  | |- ensures _ (match ?x with _ => _ end) => destruct x
  end.

Lemma ensures_generateDrums track barNumber style baseVelocity dir intensity
    addFill :
  Forall well_formed (notes_of track) ->
  ensures (fun t => Forall well_formed (notes_of t))
    (generateDrums Math_random track barNumber style baseVelocity dir
       intensity addFill).
Proof.
  intros Htrack. unfold generateDrums.
  destruct (drum_pattern style); [|apply ensures_throw].
  apply ensures_foldM with (I := fun t => Forall well_formed (notes_of t));
    [|exact Htrack].
  intros t i Ht. unfold generateDrums_slot. repeat track_step.
Qed.

Lemma ensures_generatePad track chordNotes barNumber baseVelocity :
  Forall well_formed (notes_of track) -> 0 <= barNumber ->
  ensures (fun t => Forall well_formed (notes_of t))
    (generatePad Math_random track chordNotes barNumber baseVelocity).
Proof. intros Htrack Hbar. unfold generatePad. repeat track_step. Qed.

Lemma ensures_generateChords track chordNotes barNumber baseVelocity style
    styleParams section :
  Forall well_formed (notes_of track) -> 0 <= barNumber ->
  ensures (fun t => Forall well_formed (notes_of t))
    (generateChords Math_random track chordNotes barNumber baseVelocity
       style styleParams section).
Proof. intros Htrack Hbar. unfold generateChords. repeat track_step. Qed.

Lemma ensures_generateBass track bassRoot chordNotes barNumber baseVelocity
    style progression progressionPos section :
  Forall well_formed (notes_of track) -> 0 <= barNumber ->
  ensures (fun t => Forall well_formed (notes_of t))
    (generateBass Math_random track bassRoot chordNotes barNumber
       baseVelocity style progression progressionPos section).
Proof.
  intros Htrack Hbar. unfold generateBass.
  do 2 (apply ensures_bind_any; intros ?). repeat track_step.
Qed.

Lemma ensures_generateMelody_note scale chordNotes motif barNumber
    baseVelocity styleParams phrase style notePositions chordMidis
    isEndOfPhrase phraseTargetMidi st pos_i :
  Forall in_range (notes_of (ms_track st)) ->
  ensures (fun st' => Forall in_range (notes_of (ms_track st')))
    (generateMelody_note Math_random scale chordNotes motif barNumber
       baseVelocity styleParams phrase style notePositions chordMidis
       isEndOfPhrase phraseTargetMidi st pos_i).
Proof.
  intros Htrack. unfold generateMelody_note. destruct pos_i as [pos i].
  apply ensures_bind_any. intros [[targetScaleDegree targetMidi] motifIdx].
  do 5 (apply ensures_bind_any; intros ?).
  eapply ensures_bind; [apply ensures_humanizeVelocity|].
  intros velocity [Hvelocity _].
  apply ensures_bind_any. intros duration.
  eapply ensures_bind; [apply ensures_humanizeTiming|].
  intros startTick HstartTick.
  apply ensures_ret. cbn [ms_track]. rewrite notes_of_addEvent.
  apply Forall_app. split; [exact Htrack|].
  constructor; [|constructor]. split; assumption.
Qed.

Lemma ensures_generateMelody track scale chordNotes motif barNumber
    baseVelocity styleParams lastNote phrase effectiveDensity style :
  Forall in_range (notes_of track) ->
  ensures (fun r => Forall in_range (notes_of (fst r)))
    (generateMelody Math_random track scale chordNotes motif barNumber
       baseVelocity styleParams lastNote phrase effectiveDensity style).
Proof.
  intros Htrack. unfold generateMelody.
  do 3 (apply ensures_bind_any; intros ?).
  eapply ensures_bind.
  - apply ensures_foldM
      with (I := fun st => Forall in_range (notes_of (ms_track st)));
      [|exact Htrack].
    intros st pos_i Hst. now apply ensures_generateMelody_note.
  - intros st Hst. now apply ensures_ret.
Qed.

Lemma ensures_generateSegment_bar bars key mode style totalBarsOffset
    extensionDirection styleParams scale progression motif st bar :
  0 <= bar -> tracks_in_range st ->
  ensures tracks_in_range
    (generateSegment_bar Math_random Math_sin bars key mode style
       totalBarsOffset extensionDirection styleParams scale progression
       motif st bar).
Proof.
  intros Hbar (Hmelody & Hchord & Hbass & Hpad & Hdrum).
  unfold generateSegment_bar.
  apply ensures_bind_any. intros p.
  apply ensures_bind_any. intros [chordDegree chordType].
  do 4 (apply ensures_bind_any; intros ?).
  eapply ensures_bind with (P := fun t => Forall well_formed (notes_of t)).
  { destruct (sc_drums _);
      [now apply ensures_generateDrums|now apply ensures_ret]. }
  intros drumTrack HdrumTrack.
  eapply ensures_bind with (P := fun t => Forall well_formed (notes_of t)).
  { destruct (_ && _);
      [now apply ensures_generatePad|now apply ensures_ret]. }
  intros padTrack HpadTrack.
  eapply ensures_bind with (P := fun t => Forall well_formed (notes_of t)).
  { destruct (sc_chords _);
      [now apply ensures_generateChords|now apply ensures_ret]. }
  intros chordTrack HchordTrack.
  eapply ensures_bind with (P := fun t => Forall well_formed (notes_of t)).
  { destruct (sc_bass _);
      [now apply ensures_generateBass|now apply ensures_ret]. }
  intros bassTrack HbassTrack.
  eapply ensures_bind
    with (P := fun r => Forall in_range (notes_of (fst r))).
  { destruct (sc_melody _);
      [now apply ensures_generateMelody|now apply ensures_ret]. }
  intros [melodyTrack lastMelodyNote] HmelodyTrack.
  apply ensures_bind_any. intros dynamics'.
  apply ensures_ret. repeat split; assumption.
Qed.

Lemma ensures_foldM_In {A St} (I : St -> Prop) (f : St -> A -> M St)
    (l : list A) :
  (forall s a, In a l -> I s -> ensures I (f s a)) ->
  forall s, I s -> ensures I (foldM f l s).
Proof.
  induction l as [|a l IH]; intros Hf s Hs; simpl.
  - now apply ensures_ret.
  - eapply ensures_bind; [apply Hf; [now left|exact Hs]|].
    intros s' Hs'. apply IH; [|exact Hs'].
    intros s0 a0 Hin. apply Hf. now right.
Qed.

(** X27: every note event of a returned segment has a velocity from 1 to
    127 and a start tick that is not negative; on the chord, bass, pad and
    drum tracks the velocity is an integer as well. *)
Theorem note_events_in_range options continuationContext n res n' :
  generateSegment Math_random Math_sin options continuationContext n
  = Ok (res, n') ->
  Forall in_range (notes_of (melodyTrack res))
  /\ Forall well_formed (notes_of (chordTrack res))
  /\ Forall well_formed (notes_of (bassTrack res))
  /\ Forall well_formed (notes_of (padTrack res))
  /\ Forall well_formed (notes_of (drumTrack res)).
Proof.
  intros H. apply generateSegment_inv in H. cbv zeta in H.
  destruct H as (scale & p & m & st0 & n1 & st & n2 & fc & fcn & first & H).
  destruct H as (_ & _ & Hinit & Hloop & _ & _ & _ & _ & -> & -> & -> & ->
                 & ->).
  assert (H0 : tracks_in_range st0).
  { unfold generateSegment_init in Hinit.
    apply bind_inv in Hinit. destruct Hinit as (m' & n3 & _ & Hret).
    apply ret_inv in Hret. destruct Hret as [Hret _].
    injection Hret as _ ->. repeat split; cbn; constructor. }
  eapply (ensures_foldM_In tracks_in_range); [|exact H0|exact Hloop].
  intros s bar Hin Hs. apply In_upto in Hin.
  apply ensures_generateSegment_bar; [lia|exact Hs].
Qed.

(** C7 fails on the melody track: continuing in C major from a velocity
    trend of 0.25, with [Math.random()] giving 0.125 at every call, the base
    velocity of bar 0 is 69.5 and the eight melody notes of the bar get the
    velocities 74.5, 70.5, 63.5, 64.5, 78.5, 74.5, 67.5 and 69.5. *)
Lemma melody_velocity_not_integral :
  match
    result_of
      (generateSegment (constant_random (1 # 8)) rational_sin
         {| opt_bars := Some 1; opt_key := None; opt_mode := None;
            opt_tempo := None; opt_style := None;
            opt_totalBarsOffset := Some 16;
            opt_extensionDirection := Some build_up |}
         (Some (context_at "ambient" 0
                  {| level := medium; direction := stable;
                     velocityTrend := 1 # 4 |}
                  (Some [2; 3; 4; 3]))) 0%nat)
  with
  | Some res =>
      map (fun e => Qred (velocity e)) (notes_of (melodyTrack res))
      = [149 # 2; 141 # 2; 127 # 2; 129 # 2; 157 # 2; 149 # 2; 135 # 2;
         139 # 2]%Q
      /\ forallb (fun e => is_integral (velocity e))
           (notes_of (melodyTrack res)) = false
  | None => False
  end.
Proof. vm_compute. split; reflexivity. Qed.

End NoteEvents.

(* ================================================================== *)
(** ** The theorems at concrete inputs *)

Section Runs.

Lemma constant_random_half_range k :
  (0 <= constant_random (1 # 2) k < 1)%Q.
Proof. unfold constant_random. split; [discriminate|reflexivity]. Qed.

Lemma duration_law_witness :
  match
    generateSegment (constant_random (1 # 2)) rational_sin
      {| opt_bars := Some 1; opt_key := None; opt_mode := None;
         opt_tempo := Some 90%Q; opt_style := None;
         opt_totalBarsOffset := None; opt_extensionDirection := None |}
      None 0%nat
  with
  | Ok (res, _) =>
      durationSeconds (segmentInfo res)
      = S754_finite false 6004799503160662 (-51)
  | Throw _ => False
  end.
Proof.
  destruct (generateSegment _ _ _ _ _) as [[res n']|e] eqn:E.
  - pose proof (duration_law _ _ _ _ _ _ _ E) as W.
    cbv zeta in W. destruct W as (W & _). rewrite W. reflexivity.
  - vm_compute in E. discriminate.
Defined.

Lemma continuation_continuity_witness :
  match
    generateSegment (constant_random (1 # 2)) rational_sin
      (bars_and_style 2 "lofi") None 0%nat
  with
  | Ok (resA, nA') =>
      match
        generateSegment (constant_random (1 # 2)) rational_sin
          (bars_and_style 1 "lofi")
          (Some (next_context "C" "major" "lofi" 90 2 (segmentInfo resA)))
          nA'
      with
      | Ok (resB, _) => motif (segmentInfo resB) = motif (segmentInfo resA)
      | Throw _ => False
      end
  | Throw _ => False
  end.
Proof.
  destruct (generateSegment _ _ (bars_and_style 2 "lofi") _ _)
    as [[resA nA']|e] eqn:EA.
  - destruct (generateSegment _ _ (bars_and_style 1 "lofi") _ _)
      as [[resB nB']|e] eqn:EB.
    + exact (proj1 (continuation_continuity _ _ _ _ _ _ _
                      (bars_and_style 1 "lofi")
                      (next_context "C" "major" "lofi" 90 2
                         (segmentInfo resA))
                      _ _ _ EA eq_refl eq_refl eq_refl EB)).
    + vm_compute in EA. injection EA as <- <-.
      vm_compute in EB. discriminate.
  - vm_compute in EA. discriminate.
Defined.

Lemma progression_position_bound_witness :
  match
    generateSegment (constant_random (1 # 2)) rational_sin
      (bars_and_style 2 "lofi") None 0%nat
  with
  | Ok (res, _) => progressionPosition (segmentInfo res) < 4
  | Throw _ => False
  end.
Proof.
  destruct (generateSegment _ _ _ _ _) as [[res n']|e] eqn:E.
  - exact (proj1 (progression_position_bound _ _ _ _ _ _ _
                    [(0, "maj7"); (3, "min7"); (4, "dom7"); (0, "maj7")]%string
                    2 E eq_refl eq_refl (or_introl eq_refl))).
  - vm_compute in E. discriminate.
Defined.

Lemma ending_chord_entry_witness :
  match
    generateSegment (constant_random (1 # 2)) rational_sin
      (bars_and_style 0 "ambient") None 0%nat
  with
  | Ok (res, _) =>
      exists finalChord,
        at_index PROGRESSIONS_ambient
          (rem (progressionPosition (segmentInfo res) - 1 + 4) 4)
        = Some finalChord
        /\ endingChordType (segmentInfo res) = snd finalChord
  | Throw _ => False
  end.
Proof.
  destruct (generateSegment _ _ _ _ _) as [[res n']|e] eqn:E.
  - destruct (ending_chord_entry _ _ _ _ _ _ _ E)
      as (p & finalChord & notes & first & Hp & Hentry & Htype & _).
    injection Hp as <-.
    exists finalChord. split; [exact Hentry|exact Htype].
  - vm_compute in E. discriminate.
Defined.



End Runs.

(* ================================================================== *)
(** ** MIDI numbers and pitch names *)

Section MidiNumbers.



Lemma noteToMidi_name_octave (name : string) (octave : Z) :
  In name NOTES -> 0 <= octave ->
  noteToMidi (name ++ Number_toString octave)
  = indexOf NOTES (Some name) + (octave + 1) * 12.
Proof.
  intros Hin Ho. unfold noteToMidi.
  rewrite match_pitch_note by auto using is_digits1_Number_toString.
  now rewrite parseInt_Number_toString.
Qed.


(** X2: the chord on a scale degree.  For a key of [NOTES], a mode and a
    chord type that are not inherited names, a degree and an octave that are
    not negative, [getChordFromDegree] reads the degree modulo the length of
    the scale, puts the chord root in the octave asked for whatever the key
    (the root wraps around past B instead of rising), and stacks the chord
    type's offsets on it; the chord has three or four notes. *)
Theorem chord_from_degree_midi (key mode chordType : string)
    (degree octave : Z) :
  In key NOTES ->
  is_prototype_key mode = false -> is_prototype_key chordType = false ->
  0 <= degree -> 0 <= octave ->
  exists scale pattern interval notes,
    get_or SCALES mode SCALES_major = Entry scale
    /\ get_or CHORDS chordType CHORDS_major = Entry pattern
    /\ at_index scale (degree mod Z.of_nat (List.length scale))
       = Some interval
    /\ getChordFromDegree key mode degree chordType octave = Ok notes
    /\ map midi_of notes
       = map (fun offset =>
                Some ((indexOf NOTES (Some key) + interval) mod 12
                      + (octave + 1) * 12 + offset)) pattern
    /\ (3 <= List.length notes <= 4)%nat.
Proof.
  intros Hkey Hmode Htype Hdegree Hoctave.
  destruct (get_or_Entry SCALES mode SCALES_major Hmode) as [scale Hscale].
  destruct (get_or_Entry CHORDS chordType CHORDS_major Htype)
    as [pattern Hpattern].
  pose proof (SCALES_length _ _ Hscale) as Hlen.
  assert (Hpos : 0 < Z.of_nat (List.length scale)).
  { rewrite Hlen. unfold notes_in_mode.
    repeat match goal with |- context [if ?b then _ else _] => destruct b end;
      lia. }
  assert (Hne : scale <> []) by (destruct scale; [simpl in Hpos; lia|easy]).
  destruct (at_index_rem scale degree Hne Hdegree) as [interval Hinterval].
  pose proof (SCALES_offsets _ _ Hscale) as Hoffsets.
  rewrite Forall_forall in Hoffsets.
  pose proof (Hoffsets _ (at_index_In _ _ _ Hinterval)) as Hi.
  destruct (indexOf_NOTES key Hkey) as [Hrange _].
  set (rootIndex := indexOf NOTES (Some key)) in *.
  pose proof (Z.mod_pos_bound (rootIndex + interval) 12 ltac:(lia)) as Hm.
  destruct (NOTES_at _ Hm) as (chordRoot & Hat & HchordRoot & Hidx).
  destruct (CHORDS_offsets _ _ Hpattern) as [Hchord Hsize].
  exists scale, pattern, interval,
    (map (note_at (indexOf NOTES (Some chordRoot)) octave) pattern).
  split; [exact Hscale|]. split; [exact Hpattern|].
  split; [rewrite <- rem_nonneg_mod by lia; exact Hinterval|].
  split.
  { unfold getChordFromDegree. fold rootIndex. rewrite Hscale, Hinterval.
    unfold rem at 1. rewrite Z.rem_mod_nonneg by lia. rewrite Hat.
    unfold getChord. now rewrite Hpattern. }
  split; [|now rewrite length_map].
  rewrite map_map. apply map_ext_Forall.
  eapply Forall_impl; [|exact Hchord].
  intros i Hi'. cbv beta.
  rewrite noteToMidi_note_at by assumption.
  rewrite noteToMidi_name_octave by assumption. now rewrite Hidx.
Qed.

Lemma chord_from_degree_midi_witness :
  exists scale pattern interval notes,
    get_or SCALES "major" SCALES_major = Entry scale
    /\ get_or CHORDS "dom7" CHORDS_major = Entry pattern
    /\ at_index scale (11 mod Z.of_nat (List.length scale)) = Some interval
    /\ getChordFromDegree "A" "major" 11 "dom7" 3 = Ok notes
    /\ map midi_of notes
       = map (fun offset =>
                Some ((indexOf NOTES (Some "A"%string) + interval) mod 12
                      + (3 + 1) * 12 + offset)) pattern
    /\ (3 <= List.length notes <= 4)%nat.
Proof.
  apply (chord_from_degree_midi "A" "major" "dom7" 11 3).
  - simpl. repeat (first [left; reflexivity | right]).
  - reflexivity.
  - reflexivity.
  - lia.
  - lia.
Defined.

End MidiNumbers.

(* ================================================================== *)
(** ** Humanization and motifs *)

Section Humanization.

Variable Math_random : nat -> Q.
Hypothesis Math_random_range : forall k, (0 <= Math_random k < 1)%Q.

Lemma Qltb_true x y : Qltb x y = true <-> (x < y)%Q.
Proof.
  unfold Qltb. rewrite negb_true_iff. split.
  - intros H. apply Qnot_le_lt. intros Hle.
    apply Qle_bool_iff in Hle. congruence.
  - intros H. destruct (Qle_bool y x) eqn:E; [|reflexivity].
    apply Qle_bool_iff in E. apply Qlt_not_le in H. contradiction.
Qed.

Lemma Qltb_false x y : Qltb x y = false <-> (y <= x)%Q.
Proof.
  unfold Qltb. rewrite negb_false_iff. apply Qle_bool_iff.
Qed.

(** The offset humanization adds lies within [amount] of zero. *)
Lemma humanize_offset (r : Q) (amount : Z) :
  (0 <= r < 1)%Q -> 0 <= amount ->
  - amount <= Math_floor ((r - (1 # 2)) * inject_Z amount * 2) <= amount.
Proof.
  intros [Hr0 Hr1] Ha. unfold Math_floor.
  assert (Hq : (0 <= inject_Z amount)%Q)
    by (change 0%Q with (inject_Z 0); now rewrite <- Zle_Qle).
  split.
  - rewrite <- (Qfloor_Z (- amount)). apply Qfloor_resp_le.
    rewrite inject_Z_opp. nra.
  - rewrite <- (Qfloor_Z amount) at 2. apply Qfloor_resp_le. nra.
Qed.

(** X3: humanization stays close and in range.  With [Math.random()] in
    0..1 and an amount that is not negative, [humanizeTiming] returns a
    tick that is never negative and at most [amount] away from the tick it
    was given (from 0 when that is nearer), and [humanizeVelocity] returns a
    velocity from 1 to 127 that is at most [amount] away from the one it was
    given whenever that leaves it room. *)
Theorem humanization_bounds (tick amount : Z) (velocity : Q) :
  0 <= amount ->
  returns
    (fun t => 0 <= t /\ Z.max 0 (tick - amount) <= t <= Z.max 0 (tick + amount))
    (humanizeTiming Math_random tick amount)
  /\ returns
       (fun v =>
          (1 <= v <= 127)%Q
          /\ ((1 + inject_Z amount <= velocity)%Q ->
              (velocity <= 127 - inject_Z amount)%Q ->
              (velocity - inject_Z amount <= v <= velocity + inject_Z amount)%Q))
       (humanizeVelocity Math_random velocity amount).
Proof.
  intros Ha. split.
  - unfold humanizeTiming.
    eapply returns_bind; [apply (returns_random _ Math_random_range)|].
    intros r Hr. apply returns_ret.
    pose proof (humanize_offset r amount Hr Ha). lia.
  - unfold humanizeVelocity.
    eapply returns_bind; [apply (returns_random _ Math_random_range)|].
    intros r Hr. apply returns_ret.
    pose proof (humanize_offset r amount Hr Ha) as [Hlo Hhi].
    set (offset := Math_floor ((r - (1 # 2)) * inject_Z amount * 2)) in *.
    split; [apply clamp_range|]. intros Hroom Hroom'.
    assert (Hlo' : (- inject_Z amount <= inject_Z offset)%Q)
      by (rewrite <- inject_Z_opp, <- Zle_Qle; exact Hlo).
    assert (Hhi' : (inject_Z offset <= inject_Z amount)%Q)
      by (rewrite <- Zle_Qle; exact Hhi).
    rewrite Q.max_r by lra. rewrite Q.min_r by lra. lra.
Qed.

(** The loop of [generateMotif]: [n] further degrees, each within the
    scale and at most two steps from the one before. *)
Lemma generateMotif_loop_shape n scaleLength :
  forall current acc,
    0 <= current < scaleLength ->
    returns
      (fun m => exists rest,
           m = acc ++ rest /\ List.length rest = n
           /\ Forall (fun d => 0 <= d < scaleLength) rest
           /\ stepwise 2 (current :: rest)
           /\ (n <> O -> exists t, rest = current :: t))
      (generateMotif_loop Math_random n scaleLength current acc).
Proof.
  induction n as [|n IH]; intros current acc Hc; simpl.
  - apply returns_ret. exists []. rewrite app_nil_r.
    repeat split; [constructor|congruence].
  - eapply returns_bind; [apply (returns_random _ Math_random_range)|].
    intros r _.
    eapply returns_bind; [apply (returns_random _ Math_random_range)|].
    intros r' _.
    set (step := if Qltb r (7 # 10)
                 then if Qltb r' (1 # 2) then 1 else -1
                 else if Qltb r' (1 # 2) then 2 else -2).
    assert (Hstep : -2 <= step <= 2)
      by (unfold step; destruct (Qltb r _), (Qltb r' _); lia).
    set (next := Z.max 0 (Z.min (scaleLength - 1) (current + step))).
    assert (Hnext : 0 <= next < scaleLength /\ Z.abs (next - current) <= 2)
      by (unfold next; lia).
    eapply returns_weaken; [apply (IH next (acc ++ [current])); tauto|].
    intros m (rest & -> & Hlen & Hrange & Hsteps & Hhead).
    exists (current :: rest). rewrite <- app_assoc.
    split; [reflexivity|]. split; [simpl; now rewrite Hlen|].
    split; [now constructor|]. split; [|eauto].
    destruct n as [|n'].
    + destruct rest; [|discriminate]. simpl. lia.
    + destruct (Hhead ltac:(congruence)) as [t ->].
      cbn [stepwise] in *. repeat split; try tauto. lia.
Qed.

(** X4: a fresh motif.  For a scale of at least five notes,
    [generateMotif] returns from four to seven scale degrees, every one an
    index into the scale, the first from 2 to 4 and each at most two scale
    steps from the one before. *)
Theorem generateMotif_shape (scaleLength : Z) :
  5 <= scaleLength ->
  returns
    (fun m => (4 <= List.length m <= 7)%nat
              /\ Forall (fun d => 0 <= d < scaleLength) m
              /\ stepwise 2 m
              /\ exists first rest, m = first :: rest /\ 2 <= first <= 4)
    (generateMotif Math_random scaleLength).
Proof.
  intros Hlen. unfold generateMotif.
  eapply returns_bind; [apply (returns_random _ Math_random_range)|].
  intros r Hr.
  eapply returns_bind; [apply (returns_random _ Math_random_range)|].
  intros r' Hr'.
  pose proof (floor_index r 4 Hr ltac:(lia)) as H4.
  pose proof (floor_index r' 3 Hr' ltac:(lia)) as H3.
  unfold inject_Z in H4, H3.
  eapply returns_weaken; [apply generateMotif_loop_shape; lia|].
  intros m (rest & -> & Hcount & Hrange & Hsteps & Hhead).
  cbn [app]. split; [lia|]. split; [exact Hrange|].
  destruct (Hhead ltac:(lia)) as [t ->].
  split; [cbn [stepwise] in Hsteps; tauto|].
  exists (Math_floor (r' * 3) + 2), t. split; [reflexivity|lia].
Qed.

End Humanization.

Lemma humanization_bounds_witness :
  returns
    (fun t => 0 <= t /\ Z.max 0 (3 - 5) <= t <= Z.max 0 (3 + 5))
    (humanizeTiming (constant_random (1 # 2)) 3 5)
  /\ returns
       (fun v =>
          (1 <= v <= 127)%Q
          /\ ((1 + inject_Z 5 <= 70)%Q ->
              (70 <= 127 - inject_Z 5)%Q ->
              (70 - inject_Z 5 <= v <= 70 + inject_Z 5)%Q))
       (humanizeVelocity (constant_random (1 # 2)) 70 5).
Proof.
  apply (humanization_bounds (constant_random (1 # 2))
           constant_random_half_range 3 5 70).
  lia.
Defined.

Lemma generateMotif_shape_witness :
  returns
    (fun m => (4 <= List.length m <= 7)%nat
              /\ Forall (fun d => 0 <= d < 7) m
              /\ stepwise 2 m
              /\ exists first rest, m = first :: rest /\ 2 <= first <= 4)
    (generateMotif (constant_random (1 # 2)) 7).
Proof.
  apply (generateMotif_shape (constant_random (1 # 2))
           constant_random_half_range 7).
  lia.
Defined.

Section MotifVariations.

Lemma rem_4_cases (variation : Z) :
  0 <= variation ->
  rem variation 4 = 0 \/ rem variation 4 = 1 \/ rem variation 4 = 2
  \/ rem variation 4 = 3.
Proof.
  intros H. unfold rem. rewrite Z.rem_mod_nonneg by lia.
  pose proof (Z.mod_pos_bound variation 4 ltac:(lia)). lia.
Qed.

(** X5: a variation keeps a motif usable.  Whatever the variation number,
    [varyMotif] returns as many degrees as it was given, and when every
    degree of the motif is an index into the scale, so is every degree of
    the variation. *)
Theorem varyMotif_in_scale (motif : list Z) (variation scaleLength : Z) :
  0 < scaleLength ->
  Forall (fun d => 0 <= d < scaleLength) motif ->
  List.length (varyMotif motif variation scaleLength) = List.length motif
  /\ Forall (fun d => 0 <= d < scaleLength)
       (varyMotif motif variation scaleLength).
Proof.
  intros Hlen Hm. unfold varyMotif.
  assert (Hup : Forall (fun d => 0 <= d < scaleLength)
                  (map (fun n => Z.min (scaleLength - 1) (n + 2)) motif)).
  { apply Forall_map. eapply Forall_impl; [|exact Hm]. cbv beta. lia. }
  assert (Hinv : Forall (fun d => 0 <= d < scaleLength)
                   (map (fun n => Z.max 0 (scaleLength - 1 - n)) motif)).
  { apply Forall_map. eapply Forall_impl; [|exact Hm]. cbv beta. lia. }
  destruct (rem variation 4) as [|q|q];
    [split; [reflexivity|exact Hm]| |split; [reflexivity|exact Hm]].
  destruct q as [q|q|];
    try (destruct q); rewrite ?length_map, ?length_rev;
    (split; [reflexivity|]); try assumption; now apply Forall_rev.
Qed.

Lemma varyMotif_in_scale_witness :
  List.length (varyMotif [2; 3; 4; 6] 5 7) = List.length [2; 3; 4; 6]
  /\ Forall (fun d => 0 <= d < 7) (varyMotif [2; 3; 4; 6] 5 7).
Proof.
  apply (varyMotif_in_scale [2; 3; 4; 6] 5 7); [lia|].
  repeat (constructor; [lia|]). constructor.
Defined.

(** X6: the four variations.  The variation number counts modulo 4 from 0
    on; the retrograde (2) undoes itself on every motif and the inversion
    (3) undoes itself on a motif of scale indices, while the sequence up
    (1) cannot be undone, since it clamps at the top of the scale. *)
Theorem varyMotif_variations (motif : list Z) (variation scaleLength : Z) :
  0 <= variation ->
  Forall (fun d => 0 <= d < scaleLength) motif ->
  varyMotif motif (variation + 4) scaleLength
  = varyMotif motif variation scaleLength
  /\ varyMotif (varyMotif motif 2 scaleLength) 2 scaleLength = motif
  /\ varyMotif (varyMotif motif 3 scaleLength) 3 scaleLength = motif
  /\ varyMotif [scaleLength - 1] 1 scaleLength
     = varyMotif [scaleLength - 2] 1 scaleLength.
Proof.
  intros Hv Hm. split; [|split; [|split]].
  - unfold varyMotif, rem.
    rewrite !Z.rem_mod_nonneg by lia.
    replace (variation + 4) with (variation + 1 * 4) by lia.
    now rewrite Z.mod_add by lia.
  - unfold varyMotif. cbn. apply rev_involutive.
  - unfold varyMotif. cbn. rewrite map_map.
    rewrite <- (map_id motif) at 2. apply map_ext_Forall.
    eapply Forall_impl; [|exact Hm]. cbv beta. lia.
  - unfold varyMotif. cbn. f_equal. lia.
Qed.

Lemma varyMotif_variations_witness :
  varyMotif [2; 3; 4; 6] (1 + 4) 7 = varyMotif [2; 3; 4; 6] 1 7
  /\ varyMotif (varyMotif [2; 3; 4; 6] 2 7) 2 7 = [2; 3; 4; 6]
  /\ varyMotif (varyMotif [2; 3; 4; 6] 3 7) 3 7 = [2; 3; 4; 6]
  /\ varyMotif [7 - 1] 1 7 = varyMotif [7 - 2] 1 7.
Proof.
  apply (varyMotif_variations [2; 3; 4; 6] 1 7); [lia|].
  repeat (constructor; [lia|]). constructor.
Defined.

End MotifVariations.

(* ================================================================== *)
(** ** Song sections and dynamics *)

Section SongSections.

(** A comparison of [barNumber / totalBars] with a fraction, in integers. *)
Lemma progress_below (b T p : Z) (q : positive) :
  0 < T ->
  Qltb (inject_Z b / inject_Z T) (p # q) = (b * Z.pos q <? p * T).
Proof.
  intros HT.
  assert (HT' : (0 < inject_Z T)%Q)
    by (change 0%Q with (inject_Z 0); now rewrite <- Zlt_Qlt).
  destruct (Z.ltb_spec (b * Z.pos q) (p * T)) as [Hlt|Hge].
  - apply Qltb_true. apply Qlt_shift_div_r; [exact HT'|].
    unfold Qlt. simpl. nia.
  - apply Qltb_false. apply Qle_shift_div_l; [exact HT'|].
    unfold Qle. simpl. nia.
Qed.

(** X7: the arc of a segment.  For a segment of at least one bar, the first
    bar of a first segment (no bars before it) is in the intro section and,
    from seven bars on, its last bar is in the outro; and both in a first
    segment and in an extension whose direction is not [continue], the
    section never moves back along the arc intro, verse, build, climax,
    outro as the bars advance. *)
Theorem section_arc (barNumber barNumber' totalBars totalBarsOffset : Z)
    (extensionDirection : ExtensionDirection) :
  0 < totalBars -> 0 <= barNumber <= barNumber' ->
  (totalBarsOffset <= 0 ->
   getSongSection 0 totalBars totalBarsOffset extensionDirection = intro
   /\ (7 <= totalBars ->
       getSongSection (totalBars - 1) totalBars totalBarsOffset
         extensionDirection = outro))
  /\ (totalBarsOffset <= 0 \/ extensionDirection <> continue ->
      arc_position
        (getSongSection barNumber totalBars totalBarsOffset
           extensionDirection)
      <= arc_position
           (getSongSection barNumber' totalBars totalBarsOffset
              extensionDirection)).
Proof.
  intros HT Hb. unfold getSongSection. split.
  - intros Hoff. destruct (Z.ltb_spec 0 totalBarsOffset) as [?|_]; [lia|].
    rewrite !progress_below by exact HT. split.
    + destruct (Z.ltb_spec (0 * 10) (1 * totalBars)); [reflexivity|lia].
    + intros H7.
      repeat match goal with
             | |- context [?x <? ?y] => destruct (Z.ltb_spec x y)
             end; try reflexivity; lia.
  - intros Hcase.
    destruct (Z.ltb_spec 0 totalBarsOffset) as [Hoff|Hoff].
    + destruct extensionDirection; [destruct Hcase; [lia|congruence]| | | |];
        rewrite !progress_below by exact HT;
        repeat match goal with
               | |- context [?x <? ?y] => destruct (Z.ltb_spec x y)
               end; simpl; lia.
    + rewrite !progress_below by exact HT.
      repeat match goal with
             | |- context [?x <? ?y] => destruct (Z.ltb_spec x y)
             end; simpl; lia.
Qed.

Lemma section_arc_witness :
  (0 <= 0 ->
   getSongSection 0 16 0 continue = intro
   /\ (7 <= 16 -> getSongSection (16 - 1) 16 0 continue = outro))
  /\ (0 <= 0 \/ continue <> continue ->
      arc_position (getSongSection 3 16 0 continue)
      <= arc_position (getSongSection 9 16 0 continue)).
Proof.
  apply (section_arc 3 9 16 0 continue); lia.
Defined.

End SongSections.

Section SegmentState.

Variable Math_random : nat -> Q.
Variable Math_sin : Q -> Q.

Ltac split_bind H :=
  let a := fresh "a" in
  let n := fresh "n" in
  let E := fresh "E" in
  apply bind_inv in H; destruct H as (a & n & E & H); cbv beta in H.

Ltac split_binds H :=
  repeat first
    [ split_bind H
    | match type of H with
      | (let '(_, _) := ?x in _) _ = _ => destruct x; cbv beta iota in H
      end ].

(** What [evolveDynamics] returns, read off the bar's progress. *)
Lemma evolveDynamics_inv dynamics currentBar totalBars n d n' :
  evolveDynamics Math_random dynamics currentBar totalBars n = Ok (d, n') ->
  0 < totalBars ->
  (-1 <= velocityTrend d <= 12 # 10)%Q
  /\ level d = level_of_trend (velocityTrend d)
  /\ direction d
     = (if currentBar * 10 <? 2 * totalBars then building
        else if currentBar * 10 <? 7 * totalBars then stable
        else if currentBar * 10 <? 9 * totalBars then building
        else fading).
Proof.
  unfold evolveDynamics. intros H HT. split_bind H.
  apply ret_inv in H. destruct H as [-> _].
  cbn [velocityTrend level direction].
  split; [|split; [reflexivity|]].
  - split; [apply Q.le_max_l|].
    apply Q.max_lub; [discriminate|apply Q.le_min_l].
  - rewrite !progress_below in E by exact HT.
    destruct (currentBar * 10 <? 2 * totalBars);
      [apply ret_inv in E; destruct E as [-> _]; reflexivity|].
    destruct (currentBar * 10 <? 7 * totalBars).
    { split_bind E. apply ret_inv in E. destruct E as [-> _]. reflexivity. }
    destruct (currentBar * 10 <? 9 * totalBars);
      apply ret_inv in E; destruct E as [-> _]; reflexivity.
Qed.

(** The dynamics a round of the bar loop leaves are those [evolveDynamics]
    makes of the dynamics it found. *)
Lemma generateSegment_bar_dynamics bars key mode style totalBarsOffset
    extensionDirection styleParams scale progression motif st bar n st' n' :
  generateSegment_bar Math_random Math_sin bars key mode style
    totalBarsOffset extensionDirection styleParams scale progression motif
    st bar n = Ok (st', n') ->
  exists n1 n2,
    evolveDynamics Math_random (ls_dynamics st) bar bars n1
    = Ok (ls_dynamics st', n2).
Proof.
  unfold generateSegment_bar. intros H. split_binds H.
  apply ret_inv in H. destruct H as [-> ->]. cbn [ls_dynamics]. eauto.
Qed.

(** The last round of a counting loop of at least one round. *)
Lemma foldM_upto_last {St} (f : St -> Z -> M St) (bars : Z) s n s' n' :
  0 < bars ->
  foldM f (upto bars) s n = Ok (s', n') ->
  exists s1 n1,
    foldM f (upto (bars - 1)) s n = Ok (s1, n1)
    /\ f s1 (bars - 1) n1 = Ok (s', n').
Proof.
  intros Hbars H.
  replace bars with (bars - 1 + 1) in H at 1 by lia.
  rewrite upto_succ, foldM_app in H by lia.
  apply bind_inv in H. destruct H as (s1 & n1 & E1 & E2).
  exists s1, n1. split; [exact E1|].
  simpl in E2. apply bind_inv in E2. destruct E2 as (s2 & n2 & E2 & E3).
  apply ret_inv in E3. destruct E3 as [-> ->]. exact E2.
Qed.

(** X8: the dynamics a segment ends with.  After a segment of at least one
    bar, the velocity trend in the returned [SegmentInfo] lies between -1
    and 1.2, the level is the one the trend decides (loud above 0.6, soft
    below -0.2, medium between), and the direction is read off the length of
    the segment alone: building after one bar, stable after two or three,
    building again up to nine and fading from ten bars on. *)
Theorem segment_dynamics options continuationContext n res n' :
  generateSegment Math_random Math_sin options continuationContext n
  = Ok (res, n') ->
  let bars := or_default (opt_bars options) 16 in
  let d := dynamics (segmentInfo res) in
  0 < bars ->
  (-1 <= velocityTrend d <= 12 # 10)%Q
  /\ level d
     = (if Qltb (6 # 10) (velocityTrend d) then loud
        else if Qltb (velocityTrend d) (- (2 # 10)) then soft
        else medium)
  /\ direction d
     = (if bars =? 1 then building
        else if bars <? 4 then stable
        else if bars <? 10 then building
        else fading).
Proof.
  intros H bars d Hbars. subst d.
  apply generateSegment_inv in H. cbv zeta in H.
  destruct H as (scale & p & m & st0 & n1 & st & n2 & fc & fcn & first & H).
  destruct H as (_ & _ & _ & Hloop & _ & _ & _ & -> & _).
  cbn [dynamics]. fold bars in Hloop.
  apply foldM_upto_last in Hloop; [|exact Hbars].
  destruct Hloop as (s1 & n3 & _ & Hlast).
  apply generateSegment_bar_dynamics in Hlast.
  destruct Hlast as (n4 & n5 & Hevolve).
  apply evolveDynamics_inv in Hevolve; [|exact Hbars].
  destruct Hevolve as (Htrend & Hlevel & Hdirection).
  split; [exact Htrend|]. split; [exact Hlevel|].
  rewrite Hdirection.
  repeat match goal with
         | |- context [?x <? ?y] => destruct (Z.ltb_spec x y)
         | |- context [?x =? ?y] => destruct (Z.eqb_spec x y)
         end; try reflexivity; lia.
Qed.


(** X10: a segment without bars.  A call for zero bars (or fewer) that
    returns has made no note: each track holds the events it was set up
    with (the tempo and the program change on the melody track, the program
    change on the chord, bass and pad tracks, nothing on the drum track),
    the ending notes are empty, and the progression position and the
    dynamics are those of the continuation context, or 0 and the initial
    dynamics without one. *)
Theorem zero_bar_segment options continuationContext n res n' :
  generateSegment Math_random Math_sin options continuationContext n
  = Ok (res, n') ->
  let tempo := or_default (opt_tempo options) 90%Q in
  let instruments :=
    getInstrumentsForStyle (or_default (opt_style options) "ambient"%string) in
  or_default (opt_bars options) 16 <= 0 ->
  melodyTrack res
  = [TempoEvent tempo;
     ProgramChangeEvent (instrument_field i_melody instruments)]
  /\ chordTrack res
     = [ProgramChangeEvent (instrument_field i_chords instruments)]
  /\ bassTrack res
     = [ProgramChangeEvent (instrument_field i_bass instruments)]
  /\ padTrack res
     = [ProgramChangeEvent (instrument_field i_pad instruments)]
  /\ drumTrack res = []
  /\ endingNotes (segmentInfo res)
     = {| melody := []; bass := []; chords := [] |}
  /\ progressionPosition (segmentInfo res)
     = match continuationContext with
       | Some c => ctx_progressionPosition c
       | None => 0
       end
  /\ dynamics (segmentInfo res)
     = match continuationContext with
       | Some c => ctx_dynamics c
       | None => default_dynamics
       end.
Proof.
  intros H tempo instruments Hbars.
  apply generateSegment_inv in H. cbv zeta in H.
  destruct H as (scale & p & m & st0 & n1 & st & n2 & fc & fcn & first & H).
  destruct H as (_ & _ & Hinit & Hloop & _ & _ & _ & -> & -> & -> & -> & ->
                 & ->).
  rewrite upto_nonpos in Hloop by exact Hbars.
  apply ret_inv in Hloop. destruct Hloop as [-> _].
  cbn [endingNotes progressionPosition dynamics].
  pose proof (generateSegment_init_inv _ _ _ _ _ _ _ _ _ Hinit)
    as (Hpos & Hdyn & Hending & _).
  unfold generateSegment_init in Hinit.
  apply bind_inv in Hinit. destruct Hinit as (m' & n3 & _ & Hret).
  apply ret_inv in Hret. destruct Hret as [Hret _].
  injection Hret as _ Hst0.
  repeat split; try assumption; rewrite Hst0; reflexivity.
Qed.

End SegmentState.

Lemma segment_dynamics_witness :
  match
    generateSegment (constant_random (1 # 2)) rational_sin
      (bars_and_style 2 "lofi") None 0%nat
  with
  | Ok (res, _) =>
      (-1 <= velocityTrend (dynamics (segmentInfo res)) <= 12 # 10)%Q
      /\ direction (dynamics (segmentInfo res)) = stable
  | Throw _ => False
  end.
Proof.
  destruct (generateSegment _ _ _ _ _) as [[res n']|e] eqn:E.
  - assert (Hbars : 0 < 2) by lia.
    pose proof (segment_dynamics _ _ _ _ _ _ _ E) as W.
    cbv zeta in W. destruct (W Hbars) as (Wtrend & _ & Wdirection).
    split; [exact Wtrend|exact Wdirection].
  - vm_compute in E. discriminate.
Defined.


Lemma zero_bar_segment_witness :
  match
    generateSegment (constant_random (1 # 2)) rational_sin
      (bars_and_style 0 "jazz")
      (Some (context_at "jazz" 3 default_dynamics None)) 0%nat
  with
  | Ok (res, _) =>
      drumTrack res = [] /\ progressionPosition (segmentInfo res) = 3
  | Throw _ => False
  end.
Proof.
  destruct (generateSegment _ _ _ _ _) as [[res n']|e] eqn:E.
  - assert (Hbars : 0 <= 0) by lia.
    pose proof (zero_bar_segment _ _ _ _ _ _ _ E) as W.
    cbv zeta in W.
    destruct (W Hbars) as (_ & _ & _ & _ & Wdrums & _ & Wposition & _).
    split; [exact Wdrums|exact Wposition].
  - vm_compute in E. discriminate.
Defined.

(* ================================================================== *)
(** ** The note events of a segment *)

Section Events.

Variable Math_random : nat -> Q.
Variable Math_sin : Q -> Q.
Hypothesis Math_random_range : forall k, (0 <= Math_random k < 1)%Q.

Lemma appends_refl P track : appends P track track.
Proof. exists []. split; [now rewrite app_nil_r|constructor]. Qed.

Lemma appends_trans P t1 t2 t3 :
  appends P t1 t2 -> appends P t2 t3 -> appends P t1 t3.
Proof.
  intros (l & -> & Hl) (l' & -> & Hl'). exists (l ++ l').
  split; [now rewrite map_app, app_assoc|now apply Forall_app].
Qed.

Lemma appends_weaken (P P' : NoteEvent -> Prop) t t' :
  (forall e, P e -> P' e) -> appends P t t' -> appends P' t t'.
Proof.
  intros HP (l & -> & Hl). exists l. split; [reflexivity|].
  eapply Forall_impl; [exact HP|exact Hl].
Qed.

Lemma appends_addEvent P t0 t e :
  appends P t0 t -> P e -> appends P t0 (addEvent t (Note e)).
Proof.
  intros (l & -> & Hl) He. exists (l ++ [e]). unfold addEvent.
  split; [now rewrite map_app, app_assoc|].
  apply Forall_app. split; [exact Hl|now constructor].
Qed.

Lemma ensures_random :
  ensures (fun r => 0 <= r < 1)%Q (random Math_random).
Proof.
  intros n r n' E. unfold random in E. injection E as <- _.
  apply Math_random_range.
Qed.

(** [humanizeTiming] stays within [amount] of the tick it is given. *)
Lemma ensures_humanizeTiming_near tick amount :
  0 <= amount ->
  ensures (fun t => Z.max 0 (tick - amount) <= t <= Z.max 0 (tick + amount))
    (humanizeTiming Math_random tick amount).
Proof.
  intros Ha. unfold humanizeTiming.
  eapply ensures_bind; [apply ensures_random|]. intros r Hr.
  apply ensures_ret. pose proof (humanize_offset r amount Hr Ha). lia.
Qed.

Lemma ensures_add_humanized_event P track0 track p d vel vamount tick
    tamount ch :
  0 <= tamount ->
  appends P track0 track ->
  (forall v t,
      Z.max 0 (tick - tamount) <= t <= Z.max 0 (tick + tamount) ->
      P {| pitch := p; duration := d; velocity := v; startTick := t;
           channel := ch |}) ->
  ensures (appends P track0)
    (add_humanized Math_random track p d vel vamount tick tamount ch).
Proof.
  intros Ha Htrack HP. unfold add_humanized.
  apply ensures_bind_any. intros v.
  eapply ensures_bind; [now apply ensures_humanizeTiming_near|].
  intros t Ht. apply ensures_ret. apply appends_addEvent; auto.
Qed.

Lemma ensures_add_on_tick_event P track0 track p d vel vamount tick :
  appends P track0 track ->
  (forall v,
      P {| pitch := p; duration := d; velocity := v; startTick := tick;
           channel := None |}) ->
  ensures (appends P track0)
    (add_on_tick Math_random track p d vel vamount tick).
Proof.
  intros Htrack HP. unfold add_on_tick.
  apply ensures_bind_any. intros v.
  apply ensures_ret. apply appends_addEvent; auto.
Qed.

Lemma In_indexed_from {A} (l : list A) (a : A) (i k : Z) :
  In (a, i) (indexed_from k l) ->
  In a l /\ k <= i < k + Z.of_nat (List.length l).
Proof.
  revert k. induction l as [|b l IH]; intros k; simpl; [contradiction|].
  intros [[= <- <-]|H]; [split; [now left|lia]|].
  apply IH in H. split; [now right|lia].
Qed.

Lemma In_indexed {A} (l : list A) (a : A) (i : Z) :
  In (a, i) (indexed l) -> In a l /\ 0 <= i < Z.of_nat (List.length l).
Proof. intros H. apply In_indexed_from in H. simpl in H. exact H. Qed.

(** The steps shared by the track generators. *)
Ltac event_step :=
  match goal with
  | |- ensures _ (ret _) => apply ensures_ret; try assumption
  | |- ensures _ (bind (random _) _) => apply ensures_bind_any; intros ?
  | |- ensures (appends ?P ?t0) (bind _ _) =>
      eapply ensures_bind with (P := appends P t0); [|intros ? ?]
  | |- ensures (appends ?P ?t0) (foldM _ _ _) =>
      apply ensures_foldM_In with (I := appends P t0);
      [intros ? ? ? ?|try assumption]
  | |- ensures _ (add_humanized _ _ _ _ _ _ _ _ _) =>
      apply ensures_add_humanized_event; [lia|assumption|intros ? ? ?]
  | |- ensures _ (add_on_tick _ _ _ _ _ _ _) =>
      apply ensures_add_on_tick_event; [assumption|intros ?]
  | |- ensures _ (if ?b then _ else _) => destruct b
  | |- ensures _ (match ?x with _ => _ end) => destruct x
  | |- ensures _ (let '(_, _) := ?x in _) => destruct x
  end.

(** The positions a loop runs over, as bounds. *)
Ltac loop_bounds :=
  repeat match goal with
    | H : In _ (upto _) |- _ => apply In_upto in H
    | H : In (_, _) (indexed _) |- _ =>
        apply In_indexed in H; simpl in H; destruct H as [_ H]
    end.

Ltac in_window :=
  unfold starts_in_bar; cbn [startTick];
  repeat match goal with
    | H : context [512 / ?k] |- _ =>
        let v := eval vm_compute in (512 / k) in
        change (512 / k) with v in H
    | H : context [if ?b then _ else _] |- _ => destruct b
    end;
  lia.

Lemma ensures_generateDrums_events (P : NoteEvent -> Prop) track0 track
    barNumber style baseVelocity dir intensity addFill :
  0 <= barNumber ->
  (forall e, drum_event e -> starts_in_bar barNumber 5 511 e -> P e) ->
  appends P track0 track ->
  ensures (appends P track0)
    (generateDrums Math_random track barNumber style baseVelocity dir
       intensity addFill).
Proof.
  intros Hbar HP Htrack. unfold generateDrums.
  destruct (drum_pattern style); [|apply ensures_throw].
  apply ensures_foldM_In with (I := appends P track0); [|exact Htrack].
  intros t i Hi Ht. apply In_upto in Hi. unfold generateDrums_slot.
  repeat event_step;
    (apply HP;
     [split; [reflexivity|];
      eexists; split; [reflexivity|];
      repeat match goal with
             | |- context [if ?b then _ else _] => destruct b
             end;
      simpl; repeat (first [left; reflexivity | right])
     |in_window]).
Qed.

Lemma ensures_generatePad_events (P : NoteEvent -> Prop) track0 track
    chordNotes barNumber baseVelocity :
  (forall e, channel e = None -> starts_in_bar barNumber 0 0 e -> P e) ->
  appends P track0 track ->
  ensures (appends P track0)
    (generatePad Math_random track chordNotes barNumber baseVelocity).
Proof.
  intros HP Htrack. unfold generatePad.
  event_step. apply HP; [reflexivity|in_window].
Qed.

Lemma ensures_generateChords_events (P : NoteEvent -> Prop) track0 track
    chordNotes barNumber baseVelocity style styleParams section :
  0 <= barNumber ->
  (forall e, channel e = None ->
             starts_in_bar barNumber 10 (chord_late style) e -> P e) ->
  appends P track0 track ->
  ensures (appends P track0)
    (generateChords Math_random track chordNotes barNumber baseVelocity
       style styleParams section).
Proof.
  intros Hbar HP Htrack. unfold generateChords, chord_late in *.
  destruct (String.eqb style "ambient").
  - destruct section; repeat event_step; loop_bounds;
      (apply HP; [reflexivity|in_window]).
  - destruct (String.eqb style "electronic").
    + destruct section; repeat event_step; loop_bounds;
        (apply HP; [reflexivity|in_window]).
    + destruct (String.eqb style "lofi" || String.eqb style "jazz").
      * destruct section; repeat event_step;
          match goal with
          | H : In _ _ |- _ =>
              simpl in H; repeat (destruct H as [<-|H]); try contradiction
          end;
          (apply HP; [reflexivity|in_window]).
      * destruct section; repeat event_step; loop_bounds;
          (apply HP; [reflexivity|in_window]).
Qed.

Lemma ensures_generateBass_events (P : NoteEvent -> Prop) track0 track
    bassRoot chordNotes barNumber baseVelocity style progression
    progressionPos section :
  0 <= barNumber ->
  (forall e, channel e = None -> starts_in_bar barNumber 10 511 e -> P e) ->
  appends P track0 track ->
  ensures (appends P track0)
    (generateBass Math_random track bassRoot chordNotes barNumber
       baseVelocity style progression progressionPos section).
Proof.
  intros Hbar HP Htrack. unfold generateBass.
  do 2 (apply ensures_bind_any; intros ?).
  destruct section; cbn [SongSection_eqb orb];
    repeat event_step; loop_bounds;
    try match goal with
        | H : In _ (_ :: _) |- _ =>
            simpl in H;
            repeat (destruct H as [H|H]; [injection H as <- <- <-|]);
            try contradiction
        end;
    (apply HP; [reflexivity|in_window]).
Qed.

Lemma ensures_filterM_incl {A} (f : A -> M bool) (l : list A) :
  ensures (fun kept => incl kept l) (filterM f l).
Proof.
  induction l as [|a l IH]; simpl.
  - apply ensures_ret. apply incl_refl.
  - apply ensures_bind_any. intros keep.
    eapply ensures_bind; [exact IH|]. intros rest Hrest.
    apply ensures_ret. destruct keep.
    + apply incl_cons; [now left|now apply incl_tl].
    + now apply incl_tl.
Qed.

Lemma incl_removelast {A} (l : list A) : incl (removelast l) l.
Proof.
  induction l as [|a [|b l] IH]; simpl; [easy|easy|].
  apply incl_cons; [now left|]. apply incl_tl. exact IH.
Qed.

Lemma ensures_generateMelody_note_events (P : NoteEvent -> Prop) track0 scale
    chordNotes motif barNumber baseVelocity styleParams phrase style
    notePositions chordMidis isEndOfPhrase phraseTargetMidi st pos i :
  0 <= barNumber -> 0 <= pos <= 14 ->
  (forall e, channel e = None -> starts_in_bar barNumber 10 511 e -> P e) ->
  appends P track0 (ms_track st) ->
  ensures (fun st' => appends P track0 (ms_track st'))
    (generateMelody_note Math_random scale chordNotes motif barNumber
       baseVelocity styleParams phrase style notePositions chordMidis
       isEndOfPhrase phraseTargetMidi st (pos, i)).
Proof.
  intros Hbar Hpos HP Htrack. unfold generateMelody_note.
  apply ensures_bind_any. intros [[targetScaleDegree targetMidi] motifIdx].
  do 4 (apply ensures_bind_any; intros ?).
  eapply ensures_bind with (P := fun offset => 0 <= offset <= 8).
  { destruct (_ && _); [apply ensures_ret; lia|].
    destruct (String.eqb style "lofi"); [|apply ensures_ret; lia].
    eapply ensures_bind; [apply ensures_random|]. intros r Hr.
    apply ensures_ret.
    pose proof (floor_index r 6 Hr ltac:(lia)) as H6.
    unfold inject_Z in H6. lia. }
  intros timingOffset Hoffset.
  do 2 (apply ensures_bind_any; intros ?).
  eapply ensures_bind;
    [apply ensures_humanizeTiming_near; destruct (String.eqb style "lofi"); lia|].
  intros startTick HstartTick.
  apply ensures_ret. cbn [ms_track]. apply appends_addEvent; [exact Htrack|].
  apply HP; [reflexivity|].
  unfold starts_in_bar. cbn [Generator.startTick].
  destruct (String.eqb style "lofi"); lia.
Qed.

Lemma ensures_generateMelody_events (P : NoteEvent -> Prop) track0 track scale
    chordNotes motif barNumber baseVelocity styleParams lastNote phrase
    effectiveDensity style :
  0 <= barNumber ->
  (forall e, channel e = None -> starts_in_bar barNumber 10 511 e -> P e) ->
  appends P track0 track ->
  ensures (fun r => appends P track0 (fst r))
    (generateMelody Math_random track scale chordNotes motif barNumber
       baseVelocity styleParams lastNote phrase effectiveDensity style).
Proof.
  intros Hbar HP Htrack. unfold generateMelody.
  apply ensures_bind_any. intros midis.
  eapply ensures_bind; [apply ensures_filterM_incl|].
  intros kept Hkept.
  match goal with
  | |- context [if ?b then removelast kept else kept] =>
      set (notePositions := if b then removelast kept else kept)
  end.
  assert (Hpositions : incl notePositions allPositions).
  { unfold notePositions.
    match goal with |- context [if ?b then _ else _] => destruct b end;
      [|exact Hkept].
    eapply incl_tran; [apply incl_removelast|exact Hkept]. }
  apply ensures_bind_any. intros phraseTargetMidi.
  eapply ensures_bind.
  - apply ensures_foldM_In
      with (I := fun st => appends P track0 (ms_track st));
      [|exact Htrack].
    intros st [pos i] Hin Hst. apply In_indexed in Hin.
    destruct Hin as [Hin _]. apply Hpositions in Hin.
    apply ensures_generateMelody_note_events; try assumption.
    simpl in Hin. repeat (destruct Hin as [<-|Hin]; [lia|]). contradiction.
  - intros st Hst. now apply ensures_ret.
Qed.

(** One round of the bar loop adds, to each track, events of its bar. *)
Lemma ensures_generateSegment_bar_events bars key mode style totalBarsOffset
    extensionDirection styleParams scale progression motif st0 st bar :
  0 <= bar < bars ->
  segment_events bars totalBarsOffset extensionDirection style st0 st ->
  ensures (segment_events bars totalBarsOffset extensionDirection style st0)
    (generateSegment_bar Math_random Math_sin bars key mode style
       totalBarsOffset extensionDirection styleParams scale progression
       motif st bar).
Proof.
  intros Hbar [Hmelody Hchord Hbass Hpad Hdrum].
  unfold generateSegment_bar.
  apply ensures_bind_any. intros p.
  apply ensures_bind_any. intros [chordDegree chordType].
  do 4 (apply ensures_bind_any; intros ?).
  eapply ensures_bind.
  { destruct (sc_drums _) eqn:Hsection; [|apply ensures_ret; exact Hdrum].
    apply ensures_generateDrums_events; [lia| |exact Hdrum].
    intros e He Hwindow. exists bar. unfold bar_config. rewrite Hsection.
    split; [lia|]. split; [discriminate|]. split; assumption. }
  intros drumTrack HdrumTrack.
  eapply ensures_bind.
  { destruct (_ && _); [|apply ensures_ret; exact Hpad].
    apply ensures_generatePad_events; [|exact Hpad].
    intros e He Hwindow. exists bar. split; [lia|]. split; assumption. }
  intros padTrack HpadTrack.
  eapply ensures_bind.
  { destruct (sc_chords _) eqn:Hsection; [|apply ensures_ret; exact Hchord].
    apply ensures_generateChords_events; [lia| |exact Hchord].
    intros e He Hwindow. exists bar. unfold bar_config. rewrite Hsection.
    split; [lia|]. split; [reflexivity|]. split; assumption. }
  intros chordTrack HchordTrack.
  eapply ensures_bind.
  { destruct (sc_bass _); [|apply ensures_ret; exact Hbass].
    apply ensures_generateBass_events; [lia| |exact Hbass].
    intros e He Hwindow. exists bar. split; [lia|]. split; assumption. }
  intros bassTrack HbassTrack.
  eapply ensures_bind
    with (P := fun r => appends _ (ls_melodyTrack st0) (fst r)).
  { destruct (sc_melody _) eqn:Hsection; [|apply ensures_ret; exact Hmelody].
    apply ensures_generateMelody_events; [lia| |exact Hmelody].
    intros e He Hwindow. exists bar. unfold bar_config. rewrite Hsection.
    split; [lia|]. split; [reflexivity|]. split; assumption. }
  intros [melodyTrack lastMelodyNote] HmelodyTrack.
  apply ensures_bind_any. intros dynamics'.
  apply ensures_ret. constructor; assumption.
Qed.

(** The events of a returned segment: the tracks as they were set up,
    followed by note events of the segment's bars. *)
Lemma generateSegment_events options continuationContext n res n' :
  generateSegment Math_random Math_sin options continuationContext n
  = Ok (res, n') ->
  let bars := or_default (opt_bars options) 16 in
  let tempo := or_default (opt_tempo options) 90%Q in
  let style := or_default (opt_style options) "ambient"%string in
  let totalBarsOffset := or_default (opt_totalBarsOffset options) 0 in
  let extensionDirection :=
    or_default (opt_extensionDirection options) continue in
  let instruments := getInstrumentsForStyle style in
  exists st0 st,
    ls_melodyTrack st0
    = [TempoEvent tempo;
       ProgramChangeEvent (instrument_field i_melody instruments)]
    /\ ls_chordTrack st0
       = [ProgramChangeEvent (instrument_field i_chords instruments)]
    /\ ls_bassTrack st0
       = [ProgramChangeEvent (instrument_field i_bass instruments)]
    /\ ls_padTrack st0
       = [ProgramChangeEvent (instrument_field i_pad instruments)]
    /\ ls_drumTrack st0 = []
    /\ melodyTrack res = ls_melodyTrack st
    /\ chordTrack res = ls_chordTrack st
    /\ bassTrack res = ls_bassTrack st
    /\ padTrack res = ls_padTrack st
    /\ drumTrack res = ls_drumTrack st
    /\ segment_events bars totalBarsOffset extensionDirection style st0 st.
Proof.
  intros H. cbv zeta.
  apply generateSegment_inv in H. cbv zeta in H.
  destruct H as (scale & p & m & st0 & n1 & st & n2 & fc & fcn & first & H).
  destruct H as (_ & _ & Hinit & Hloop & _ & _ & _ & _ & -> & -> & -> & ->
                 & ->).
  exists st0, st.
  unfold generateSegment_init in Hinit.
  apply bind_inv in Hinit. destruct Hinit as (m' & n3 & _ & Hret).
  apply ret_inv in Hret. destruct Hret as [Hret _].
  injection Hret as _ Hst0.
  repeat (split; [rewrite Hst0; reflexivity|]).
  repeat (split; [reflexivity|]).
  eapply (ensures_foldM_In
            (segment_events _ _ _ _ st0)); [| |exact Hloop].
  - intros s bar Hin Hs. apply In_upto in Hin.
    now apply ensures_generateSegment_bar_events.
  - constructor; apply appends_refl.
Qed.

Lemma notes_of_app t t' : notes_of (t ++ t') = notes_of t ++ notes_of t'.
Proof. unfold notes_of. apply flat_map_app. Qed.

Lemma notes_of_map_Note l : notes_of (map Note l) = l.
Proof.
  unfold notes_of. induction l as [|e l IH]; simpl; [reflexivity|].
  now rewrite IH.
Qed.

(** The same, as a statement about the note events of each track. *)
Lemma track_events options continuationContext n res n' :
  generateSegment Math_random Math_sin options continuationContext n
  = Ok (res, n') ->
  let bars := or_default (opt_bars options) 16 in
  let style := or_default (opt_style options) "ambient"%string in
  let config :=
    bar_config bars (or_default (opt_totalBarsOffset options) 0)
      (or_default (opt_extensionDirection options) continue) in
  Forall (fun e => exists bar,
              0 <= bar < bars /\ sc_melody (config bar) = true
              /\ channel e = None /\ starts_in_bar bar 10 511 e)
    (notes_of (melodyTrack res))
  /\ Forall (fun e => exists bar,
                0 <= bar < bars /\ sc_chords (config bar) = true
                /\ channel e = None
                /\ starts_in_bar bar 10 (chord_late style) e)
       (notes_of (chordTrack res))
  /\ Forall (fun e => exists bar,
                0 <= bar < bars
                /\ channel e = None /\ starts_in_bar bar 10 511 e)
       (notes_of (bassTrack res))
  /\ Forall (fun e => exists bar,
                0 <= bar < bars
                /\ channel e = None /\ starts_in_bar bar 0 0 e)
       (notes_of (padTrack res))
  /\ Forall (fun e => exists bar,
                0 <= bar < bars /\ sc_drums (config bar) <> None
                /\ drum_event e /\ starts_in_bar bar 5 511 e)
       (notes_of (drumTrack res)).
Proof.
  intros H. cbv zeta.
  apply generateSegment_events in H. cbv zeta in H.
  destruct H as (st0 & st & Hm0 & Hc0 & Hb0 & Hp0 & Hd0
                 & -> & -> & -> & -> & -> & [Hm Hc Hb Hp Hd]).
  destruct Hm as (melodyNotes & -> & Hmelody).
  destruct Hc as (chordNotes & -> & Hchord).
  destruct Hb as (bassNotes & -> & Hbass).
  destruct Hp as (padNotes & -> & Hpad).
  destruct Hd as (drumNotes & -> & Hdrum).
  rewrite Hm0, Hc0, Hb0, Hp0, Hd0.
  rewrite !notes_of_app, !notes_of_map_Note. cbn.
  repeat split; assumption.
Qed.

(** X11: what the tracks hold.  In a returned segment the melody track is
    the tempo event, the program change of the style's melody instrument and
    then note events only; the chord, bass and pad tracks are their program
    change followed by note events only; the drum track holds note events
    only.  No note of the four pitched tracks names a MIDI channel, and every
    drum note is on channel 10 with a single pitch out of C2, D2, G2, F#2,
    A#2 and D#3. *)
Theorem track_layout options continuationContext n res n' :
  generateSegment Math_random Math_sin options continuationContext n
  = Ok (res, n') ->
  let tempo := or_default (opt_tempo options) 90%Q in
  let instruments :=
    getInstrumentsForStyle (or_default (opt_style options) "ambient"%string) in
  exists melodyNotes chordNotes bassNotes padNotes drumNotes,
    melodyTrack res
    = TempoEvent tempo
      :: ProgramChangeEvent (instrument_field i_melody instruments)
      :: map Note melodyNotes
    /\ chordTrack res
       = ProgramChangeEvent (instrument_field i_chords instruments)
         :: map Note chordNotes
    /\ bassTrack res
       = ProgramChangeEvent (instrument_field i_bass instruments)
         :: map Note bassNotes
    /\ padTrack res
       = ProgramChangeEvent (instrument_field i_pad instruments)
         :: map Note padNotes
    /\ drumTrack res = map Note drumNotes
    /\ Forall (fun e => channel e = None)
         (melodyNotes ++ chordNotes ++ bassNotes ++ padNotes)
    /\ Forall drum_event drumNotes.
Proof.
  intros H tempo instruments.
  apply generateSegment_events in H. cbv zeta in H.
  destruct H as (st0 & st & Hm0 & Hc0 & Hb0 & Hp0 & Hd0
                 & -> & -> & -> & -> & -> & [Hm Hc Hb Hp Hd]).
  destruct Hm as (melodyNotes & -> & Hmelody).
  destruct Hc as (chordNotes & -> & Hchord).
  destruct Hb as (bassNotes & -> & Hbass).
  destruct Hp as (padNotes & -> & Hpad).
  destruct Hd as (drumNotes & -> & Hdrum).
  exists melodyNotes, chordNotes, bassNotes, padNotes, drumNotes.
  rewrite Hm0, Hc0, Hb0, Hp0, Hd0.
  repeat (split; [reflexivity|]). split.
  - repeat (apply Forall_app; split);
      (eapply Forall_impl; [|eassumption]); cbv beta;
      intros e (bar & He); tauto.
  - eapply Forall_impl; [|exact Hdrum]. cbv beta.
    intros e (bar & He). tauto.
Qed.

(** X12: where the notes start.  A bar is 512 ticks long.  Every note of
    the melody, bass, pad and drum tracks of a returned segment starts
    before the end of the segment, tick [512 * bars]; so does every note of
    the chord track unless the style is ambient, whose slow arpeggios are
    laid out past the end of their bar and may start up to 266 ticks after
    the end of the segment.  Every pad note starts on the first tick of a
    bar of the segment. *)
Theorem note_start_ticks options continuationContext n res n' :
  generateSegment Math_random Math_sin options continuationContext n
  = Ok (res, n') ->
  let bars := or_default (opt_bars options) 16 in
  let style := or_default (opt_style options) "ambient"%string in
  Forall (fun e => startTick e < 512 * bars)
    (notes_of (melodyTrack res) ++ notes_of (bassTrack res)
     ++ notes_of (padTrack res) ++ notes_of (drumTrack res))
  /\ Forall
       (fun e =>
          startTick e
          < 512 * bars + (if String.eqb style "ambient" then 267 else 0))
       (notes_of (chordTrack res))
  /\ Forall (fun e => exists bar, 0 <= bar < bars /\ startTick e = 512 * bar)
       (notes_of (padTrack res)).
Proof.
  intros H bars style.
  destruct (track_events _ _ _ _ _ H) as (Hm & Hc & Hb & Hp & Hd).
  fold bars style in Hm, Hc, Hb, Hp, Hd.
  split; [|split].
  - repeat (apply Forall_app; split);
      (eapply Forall_impl; [|eassumption]); cbv beta;
      intros e (bar & Hbar & He); unfold starts_in_bar in He; lia.
  - eapply Forall_impl; [|exact Hc]. cbv beta.
    intros e (bar & Hbar & _ & _ & He).
    unfold starts_in_bar, chord_late in He.
    destruct (String.eqb style "ambient"); lia.
  - eapply Forall_impl; [|exact Hp]. cbv beta.
    intros e (bar & Hbar & _ & He). exists bar.
    unfold starts_in_bar in He. lia.
Qed.

(** X13: the sections, as the first segment plays them.  In a segment
    with no bars before it, every note of the melody and of the drums
    belongs to a bar past the intro (a bar from the tenth part of the
    segment on): the first bar has chords, bass and pad only.  Every note of
    the chord track belongs to a bar before the outro (a bar of the first
    85 hundredths of the segment). *)
Theorem first_segment_sections options continuationContext n res n' :
  generateSegment Math_random Math_sin options continuationContext n
  = Ok (res, n') ->
  let bars := or_default (opt_bars options) 16 in
  let style := or_default (opt_style options) "ambient"%string in
  or_default (opt_totalBarsOffset options) 0 <= 0 ->
  Forall (fun e => exists bar,
              0 <= bar < bars /\ bars <= 10 * bar
              /\ starts_in_bar bar 10 511 e)
    (notes_of (melodyTrack res))
  /\ Forall (fun e => exists bar,
                0 <= bar < bars /\ bars <= 10 * bar
                /\ starts_in_bar bar 5 511 e)
       (notes_of (drumTrack res))
  /\ Forall (fun e => exists bar,
                0 <= bar < bars /\ 100 * bar < 85 * bars
                /\ starts_in_bar bar 10 (chord_late style) e)
       (notes_of (chordTrack res)).
Proof.
  intros H bars style Hfirst.
  destruct (track_events _ _ _ _ _ H) as (Hm & Hc & _ & _ & Hd).
  fold bars style in Hm, Hc, Hd.
  assert (Hsection :
            forall bar, 0 <= bar < bars ->
              bar_config bars (or_default (opt_totalBarsOffset options) 0)
                (or_default (opt_extensionDirection options) continue) bar
              = SECTION_CONFIGS
                  (if bar * 10 <? 1 * bars then intro
                   else if bar * 100 <? 35 * bars then verse
                   else if bar * 10 <? 6 * bars then build
                   else if bar * 100 <? 85 * bars then climax
                   else outro)).
  { intros bar Hbar. unfold bar_config, getSongSection.
    destruct (Z.ltb_spec 0 (or_default (opt_totalBarsOffset options) 0));
      [lia|].
    now rewrite !progress_below by lia. }
  split; [|split].
  - eapply Forall_impl; [|exact Hm]. cbv beta.
    intros e (bar & Hbar & Hon & _ & He). exists bar.
    rewrite Hsection in Hon by exact Hbar.
    split; [exact Hbar|]. split; [|exact He].
    destruct (Z.ltb_spec (bar * 10) (1 * bars)); [discriminate|lia].
  - eapply Forall_impl; [|exact Hd]. cbv beta.
    intros e (bar & Hbar & Hon & _ & He). exists bar.
    rewrite Hsection in Hon by exact Hbar.
    split; [exact Hbar|]. split; [|exact He].
    destruct (Z.ltb_spec (bar * 10) (1 * bars)); [now contradiction Hon|lia].
  - eapply Forall_impl; [|exact Hc]. cbv beta.
    intros e (bar & Hbar & Hon & _ & He). exists bar.
    rewrite Hsection in Hon by exact Hbar.
    split; [exact Hbar|]. split; [|exact He].
    repeat match type of Hon with
           | context [?x <? ?y] => destruct (Z.ltb_spec x y)
           end; try lia; discriminate.
Qed.

End Events.

Lemma track_layout_witness :
  match
    generateSegment (constant_random (1 # 2)) rational_sin
      (bars_and_style 1 "jazz") None 0%nat
  with
  | Ok (res, _) =>
      exists bassNotes,
        bassTrack res = ProgramChangeEvent (Some 33) :: map Note bassNotes
  | Throw _ => False
  end.
Proof.
  destruct (generateSegment _ _ _ _ _) as [[res n']|e] eqn:E.
  - pose proof (track_layout _ _ constant_random_half_range _ _ _ _ _ E)
      as W.
    cbv zeta in W.
    destruct W as (melodyNotes & chordNotes & bassNotes & padNotes
                   & drumNotes & _ & _ & W & _).
    exists bassNotes. exact W.
  - vm_compute in E. discriminate.
Defined.

Lemma note_start_ticks_witness :
  match
    generateSegment (constant_random (1 # 2)) rational_sin
      (bars_and_style 1 "ambient") None 0%nat
  with
  | Ok (res, _) =>
      Forall (fun e => startTick e < 512 * 1 + 267)
        (notes_of (chordTrack res))
      /\ map startTick (notes_of (chordTrack res)) = [0; 256; 512; 768]
  | Throw _ => False
  end.
Proof.
  destruct (generateSegment _ _ _ _ _) as [[res n']|e] eqn:E.
  - pose proof (note_start_ticks _ _ constant_random_half_range _ _ _ _ _ E)
      as W.
    cbv zeta in W. destruct W as (_ & W & _). split; [exact W|].
    vm_compute in E. injection E as <- _. reflexivity.
  - vm_compute in E. discriminate.
Defined.

Lemma first_segment_sections_witness :
  match
    generateSegment (constant_random (1 # 2)) rational_sin
      (bars_and_style 2 "lofi") None 0%nat
  with
  | Ok (res, _) =>
      Forall (fun e => exists bar,
                  0 <= bar < 2 /\ 2 <= 10 * bar
                  /\ starts_in_bar bar 5 511 e)
        (notes_of (drumTrack res))
  | Throw _ => False
  end.
Proof.
  destruct (generateSegment _ _ _ _ _) as [[res n']|e] eqn:E.
  - assert (Hfirst : 0 <= 0) by lia.
    pose proof (first_segment_sections _ _ constant_random_half_range
                  _ _ _ _ _ E) as W.
    cbv zeta in W. destruct (W Hfirst) as (_ & W' & _). exact W'.
  - vm_compute in E. discriminate.
Defined.

(* ================================================================== *)
(** ** Properties of the maps *)

Section Maps.

Lemma Map_get_set_same {V} (m : Map V) k v :
  Map_get (Map_set m k v) k = Some v.
Proof.
  induction m as [|[k' v'] rest IH]; simpl.
  - now rewrite String.eqb_refl.
  - destruct (String.eqb k k') eqn:E; simpl; rewrite E; [reflexivity|exact IH].
Qed.

Lemma Map_get_set_other {V} (m : Map V) k k' v :
  k' <> k -> Map_get (Map_set m k v) k' = Map_get m k'.
Proof.
  intros Hne. induction m as [|[k0 v0] rest IH]; simpl.
  - destruct (String.eqb_spec k' k); [contradiction|reflexivity].
  - destruct (String.eqb_spec k k0) as [->|Hk]; simpl.
    + destruct (String.eqb_spec k' k0); [contradiction|reflexivity].
    + destruct (String.eqb k' k0); [reflexivity|exact IH].
Qed.

Lemma Map_set_keys {V} (m : Map V) k v :
  Map_get m k <> None -> map fst (Map_set m k v) = map fst m.
Proof.
  induction m as [|[k' v'] rest IH]; simpl; [congruence|].
  destruct (String.eqb k k'); simpl; [reflexivity|].
  intros H. now rewrite IH.
Qed.

Lemma Map_set_new_key {V} (m : Map V) k v :
  Map_get m k = None -> Map_set m k v = m ++ [(k, v)].
Proof.
  induction m as [|[k' v'] rest IH]; simpl; [reflexivity|].
  destruct (String.eqb k k'); [discriminate|].
  intros H. now rewrite IH.
Qed.

Lemma Map_get_In {V} (m : Map V) k v : Map_get m k = Some v -> In (k, v) m.
Proof.
  induction m as [|[k' v'] rest IH]; simpl; [discriminate|].
  destruct (String.eqb_spec k k') as [->|Hk].
  - intros [= ->]. now left.
  - intros H. right. now apply IH.
Qed.

Lemma Map_get_None {V} (m : Map V) k :
  Map_get m k = None -> ~ In k (map fst m).
Proof.
  induction m as [|[k' v'] rest IH]; simpl; [tauto|].
  destruct (String.eqb_spec k k') as [->|Hk]; [discriminate|].
  intros H [Heq|Hin]; [congruence|]. now apply IH.
Qed.

(** Setting a key keeps the keys distinct and a property of the entries
    that the new value has. *)
Lemma Map_set_kept {V} (P : string -> V -> Prop) (m : Map V) k v :
  NoDup (map fst m) ->
  Forall (fun entry => P (fst entry) (snd entry)) m ->
  P k v ->
  NoDup (map fst (Map_set m k v))
  /\ Forall (fun entry => P (fst entry) (snd entry)) (Map_set m k v).
Proof.
  intros Hkeys Hall Hv.
  destruct (Map_get m k) as [v0|] eqn:Hget.
  - split; [rewrite Map_set_keys by congruence; exact Hkeys|].
    clear Hkeys Hget.
    induction m as [|[k' v'] rest IH]; simpl;
      [constructor; [exact Hv|constructor]|].
    inversion Hall as [|? ? Hhead Htail]; subst.
    destruct (String.eqb_spec k k') as [->|Hk];
      constructor; auto.
  - rewrite Map_set_new_key by exact Hget. split.
    + rewrite map_app. cbn [map fst].
      apply NoDup_app; [exact Hkeys|repeat constructor; simpl; tauto|].
      intros k' Hin [<-|[]]. now apply Map_get_None in Hget.
    + apply Forall_app. split; [exact Hall|].
      constructor; [exact Hv|constructor].
Qed.

Lemma NoDup_map_fst_filter {A} (f : string * A -> bool)
    (l : list (string * A)) :
  NoDup (map fst l) -> NoDup (map fst (filter f l)).
Proof.
  induction l as [|a l IH]; simpl; [constructor|].
  intros H. inversion H as [|? ? Hnotin Hrest]; subst.
  destruct (f a); simpl; [|now apply IH].
  constructor; [|now apply IH].
  intros Hin. apply Hnotin. apply in_map_iff in Hin.
  destruct Hin as (x & Hx & Hin). apply filter_In in Hin.
  apply in_map_iff. exists x. tauto.
Qed.

Lemma Map_delete_kept {V} (P : string -> V -> Prop) (m : Map V) k :
  NoDup (map fst m) ->
  Forall (fun entry => P (fst entry) (snd entry)) m ->
  NoDup (map fst (Map_delete m k))
  /\ Forall (fun entry => P (fst entry) (snd entry)) (Map_delete m k).
Proof.
  intros Hkeys Hall.
  induction m as [|[k' v'] rest IH]; simpl; [split; constructor|].
  simpl in Hkeys. inversion Hkeys as [|? ? Hnotin Hrest]; subst.
  inversion Hall as [|? ? Hhead Htail]; subst.
  destruct (String.eqb k k'); [split; assumption|].
  destruct (IH Hrest Htail) as [IHkeys IHall].
  split; [|constructor; assumption].
  simpl. constructor; [|exact IHkeys].
  intros Hin. apply Hnotin. clear -Hin.
  induction rest as [|[k0 v0] rest IH]; simpl in *; [contradiction|].
  destruct (String.eqb k k0); [now right|].
  destruct Hin as [Hin|Hin]; [now left|right; now apply IH].
Qed.

End Maps.

(* ================================================================== *)
(** ** Properties of session.ts *)

Section Sessions.

Import Session.

Lemma sum_bars_app l seg : sum_bars (l ++ [seg]) = sum_bars l + seg_bars seg.
Proof. induction l as [|a l IH]; simpl; [lia|]. rewrite IH. lia. Qed.

Lemma sum_seconds_app l seg :
  sum_seconds (l ++ [seg])
  = Number_add (sum_seconds l) (seg_durationSeconds seg).
Proof. unfold sum_seconds. now rewrite fold_left_app. Qed.

(** The functions of session.ts keep the storage in order. *)
Lemma reachable_kept getTime sessions :
  reachable getTime sessions ->
  NoDup (map fst sessions)
  /\ Forall (fun entry => well_kept (fst entry) (snd entry)) sessions.
Proof.
  induction 1 as [|uuid now now' sessions project params _ [IHkeys IHall]
                  |uuid now now' sessions sessionId midi info sessions'
                     segment _ [IHkeys IHall] Hupdate
                  |now sessions sessionId step _ [IHkeys IHall]
                  |now sessions sessionId _ [IHkeys IHall]
                  |sessions sessionId _ [IHkeys IHall]
                  |now sessions maxAgeMs _ [IHkeys IHall]].
  - split; constructor.
  - unfold createSession. cbn [fst id].
    apply (Map_set_kept well_kept); try assumption.
    constructor; cbn; reflexivity.
  - unfold updateSessionWithSegment in Hupdate.
    destruct (Map_get sessions sessionId) as [session|] eqn:Hget;
      [|discriminate].
    injection Hupdate as <- _.
    apply Map_get_In in Hget. rewrite Forall_forall in IHall.
    destruct (IHall _ Hget) as [Hid Hbars Hseconds Hfiles]. cbn in *.
    apply (Map_set_kept well_kept); try assumption; [now apply Forall_forall|].
    constructor; cbn.
    + exact Hid.
    + rewrite sum_bars_app. cbn. lia.
    + unfold sum_seconds in *. rewrite fold_left_app. cbn.
      now rewrite Hseconds.
    + rewrite map_app, length_app, seq_app, map_app, Hfiles. reflexivity.
  - unfold addJourneyStep.
    destruct (Map_get sessions sessionId) as [session|] eqn:Hget;
      [|split; assumption].
    apply Map_get_In in Hget. rewrite Forall_forall in IHall.
    destruct (IHall _ Hget) as [Hid Hbars Hseconds Hfiles]. cbn in *.
    apply (Map_set_kept well_kept); try assumption; [now apply Forall_forall|].
    constructor; cbn; assumption.
  - unfold resetSession.
    destruct (Map_get sessions sessionId) as [session|] eqn:Hget;
      [|split; assumption].
    apply Map_get_In in Hget. rewrite Forall_forall in IHall.
    destruct (IHall _ Hget) as [Hid Hbars Hseconds Hfiles]. cbn in *.
    apply (Map_set_kept well_kept); try assumption; [now apply Forall_forall|].
    constructor; cbn; try reflexivity. exact Hid.
  - unfold deleteSession. cbn [fst]. now apply (Map_delete_kept well_kept).
  - unfold cleanupOldSessions. split.
    + now apply NoDup_map_fst_filter.
    + apply Forall_forall. intros entry Hin. apply filter_In in Hin.
      rewrite Forall_forall in IHall. apply IHall. tauto.
Qed.

(** X14: the totals of a session.  Whatever sequence of [createSession],
    [updateSessionWithSegment], [addJourneyStep], [resetSession],
    [deleteSession] and [cleanupOldSessions] calls has built the storage,
    the session [getSession] finds under an id carries that id, and its
    [totalBars] and [totalDurationSeconds] are the sums of the bars and of
    the seconds of its segment records, the seconds added as doubles in the
    order of the records. *)
Theorem session_totals getTime sessions sessionId session :
  reachable getTime sessions ->
  getSession sessions sessionId = Some session ->
  id session = sessionId
  /\ state_totalBars (state session) = sum_bars (segments session)
  /\ state_totalDurationSeconds (state session)
     = sum_seconds (segments session).
Proof.
  intros Hreach Hget.
  destruct (reachable_kept _ _ Hreach) as [_ Hall].
  rewrite Forall_forall in Hall.
  destruct (Hall _ (Map_get_In _ _ _ Hget)) as [Hid Hbars Hseconds _].
  cbn [fst snd] in *. repeat split; assumption.
Qed.

(** X15: the continuation context a session hands over.  After
    [updateSessionWithSegment] has recorded a segment, the context
    [getContinuationContext] builds for that session carries the key, mode,
    tempo and style the session was created with and, from the segment's
    [SegmentInfo], the progression position, the ending chord and its type,
    the ending notes and the dynamics; [totalBars] is the session's total
    with the new bars added.  It never carries a motif.  When the new total
    is 0 there is no context at all. *)
Theorem context_after_update uuid now now' sessions sessionId midiBase64 info
    sessions' segment :
  updateSessionWithSegment uuid now now' sessions sessionId midiBase64 info
  = Updated sessions' segment ->
  exists session,
    getSession sessions sessionId = Some session
    /\ getContinuationContext sessions' sessionId
       = (if state_totalBars (state session) + bars info =? 0 then None
          else
            Some {| ctx_key := state_key (state session);
                    ctx_mode := state_mode (state session);
                    ctx_tempo := state_tempo (state session);
                    ctx_style := state_style (state session);
                    ctx_progressionPosition := progressionPosition info;
                    ctx_currentChord := Some (endingChord info);
                    ctx_currentChordType := Some (endingChordType info);
                    ctx_lastNotes := endingNotes info;
                    ctx_dynamics := dynamics info;
                    ctx_totalBars :=
                      state_totalBars (state session) + bars info;
                    ctx_motif := None |}).
Proof.
  unfold updateSessionWithSegment, getSession, getContinuationContext.
  destruct (Map_get sessions sessionId) as [session|] eqn:Hget;
    [|discriminate].
  intros [= <- _]. exists session. split; [reflexivity|].
  rewrite Map_get_set_same. reflexivity.
Qed.

(** X16: a session with nothing to continue from.  A session that has just
    been created has no continuation context, and neither has a session
    that has just been reset: its next segment starts from scratch.  A reset
    keeps the id, the project name, the creation date and the key, mode,
    tempo and style of the session and empties its segments and its journey;
    for an id the storage does not know it changes nothing and returns
    [null]. *)
Theorem fresh_session_has_no_context uuid now now' sessions project params
    sessionId :
  getContinuationContext
    (fst (createSession uuid now now' sessions project params)) uuid = None
  /\ match getSession sessions sessionId with
     | Some session =>
         exists session',
           resetSession now sessions sessionId
           = (Map_set sessions sessionId session', Some session')
           /\ getSession (Map_set sessions sessionId session') sessionId
              = Some session'
           /\ getContinuationContext (Map_set sessions sessionId session')
                sessionId = None
           /\ (id session', projectName session', createdAt session')
              = (id session, projectName session, createdAt session)
           /\ (state_key (state session'), state_mode (state session'),
               state_tempo (state session'), state_style (state session'))
              = (state_key (state session), state_mode (state session),
                 state_tempo (state session), state_style (state session))
           /\ segments session' = [] /\ journey session' = []
     | None => resetSession now sessions sessionId = (sessions, None)
     end.
Proof.
  split.
  - unfold createSession, getContinuationContext. cbn [fst id].
    now rewrite Map_get_set_same.
  - unfold getSession, resetSession, getContinuationContext.
    destruct (Map_get sessions sessionId) as [session|]; [|reflexivity].
    eexists. split; [reflexivity|].
    rewrite Map_get_set_same. cbn. repeat split.
Qed.

Lemma skipn_app_split {A} (l : list A) (k : nat) :
  l = firstn k l ++ skipn k l.
Proof. symmetry. apply firstn_skipn. Qed.

(** X17: the journey summary.  For a session the storage knows and a
    positive [maxSteps], [getJourneySummary] returns the last [maxSteps]
    journey steps in their order, or all of them when there are fewer, and
    right after [addJourneyStep] its last element is the step just added,
    stamped with the time of the call.  With [maxSteps] 0 it returns the
    whole journey, not an empty list: [slice(-0)] is [slice(0)]. *)
Theorem journey_summary now sessions sessionId session step maxSteps :
  getSession sessions sessionId = Some session ->
  (0 < maxSteps ->
   (exists earlier,
      journey session
      = earlier ++ getJourneySummary sessions sessionId maxSteps)
   /\ List.length (getJourneySummary sessions sessionId maxSteps)
      = Nat.min (Z.to_nat maxSteps) (List.length (journey session))
   /\ exists before,
        getJourneySummary (addJourneyStep now sessions sessionId step)
          sessionId maxSteps
        = before ++ [{| step_fields := step; step_timestamp := now |}])
  /\ getJourneySummary sessions sessionId 0 = journey session.
Proof.
  unfold getSession, getJourneySummary. intros Hget. rewrite Hget. split.
  - intros Hmax. unfold slice_from.
    destruct (Z.ltb_spec (- maxSteps) 0) as [_|?]; [|lia].
    split; [eexists; apply skipn_app_split|].
    split; [rewrite length_skipn; lia|].
    unfold addJourneyStep. rewrite Hget, Map_get_set_same. cbn [journey].
    destruct (Z.ltb_spec (- maxSteps) 0) as [_|?]; [|lia].
    rewrite length_app. cbn [List.length].
    set (k := Z.to_nat _).
    assert (Hk : (k <= List.length (journey session))%nat)
      by (unfold k; lia).
    rewrite skipn_app.
    replace (k - List.length (journey session))%nat with 0%nat by lia.
    eexists. reflexivity.
  - unfold slice_from. cbn [Z.opp Z.ltb Z.compare].
    rewrite Z.min_l by lia. reflexivity.
Qed.

End Sessions.

Lemma session_totals_witness :
  match
    Session.updateSessionWithSegment "g1" "t2" "t3"
      (fst (Session.createSession "s1" "t0" "t1" [] "demo"
              {| Session.gp_key := "C"; Session.gp_mode := "major";
                 Session.gp_tempo := 90; Session.gp_style := "lofi";
                 Session.gp_bars := 8 |}))
      "s1" "TVRoZA=="
      {| bars := 8; durationSeconds := S754_finite false 6004799503160662 (-48);
         endingNotes := {| melody := []; bass := []; chords := [] |};
         endingChord := "C"; endingChordType := "maj7";
         progressionPosition := 0; dynamics := default_dynamics;
         motif := [2; 3] |}
  with
  | Session.Updated sessions' _ =>
      match Session.getSession sessions' "s1" with
      | Some session =>
          Session.state_totalBars (Session.state session)
          = sum_bars (Session.segments session)
      | None => False
      end
  | Session.SessionNotFound _ => False
  end.
Proof.
  destruct (Session.updateSessionWithSegment _ _ _ _ _ _ _)
    as [missing|sessions' segment] eqn:E.
  - vm_compute in E. discriminate.
  - assert (Hreach : reachable (fun _ => None) sessions').
    { eapply reach_update; [|exact E]. apply reach_create, reach_empty. }
    destruct (Session.getSession sessions' "s1") as [session|] eqn:Hget.
    + exact (proj1 (proj2 (session_totals _ _ _ _ Hreach Hget))).
    + vm_compute in E. injection E as <- _. vm_compute in Hget.
      discriminate.
Defined.

Lemma context_after_update_witness :
  exists session,
    Session.getSession
      (fst (Session.createSession "s1" "t0" "t1" [] "demo"
              {| Session.gp_key := "C"; Session.gp_mode := "major";
                 Session.gp_tempo := 90; Session.gp_style := "lofi";
                 Session.gp_bars := 8 |})) "s1" = Some session.
Proof.
  destruct (Session.updateSessionWithSegment "g1" "t2" "t3"
              (fst (Session.createSession "s1" "t0" "t1" [] "demo"
                      {| Session.gp_key := "C"; Session.gp_mode := "major";
                         Session.gp_tempo := 90; Session.gp_style := "lofi";
                         Session.gp_bars := 8 |}))
              "s1" "TVRoZA=="
              {| bars := 8; durationSeconds := S754_finite false 6004799503160662 (-48);
                 endingNotes := {| melody := []; bass := []; chords := [] |};
                 endingChord := "C"; endingChordType := "maj7";
                 progressionPosition := 0; dynamics := default_dynamics;
                 motif := [2; 3] |})
    as [missing|sessions' segment] eqn:E.
  - vm_compute in E. discriminate.
  - destruct (context_after_update _ _ _ _ _ _ _ _ _ E)
      as (session & W & _).
    exists session. exact W.
Defined.

Lemma journey_summary_witness :
  let sessions :=
    fst (Session.createSession "s1" "t0" "t1" [] "demo"
           {| Session.gp_key := "C"; Session.gp_mode := "major";
              Session.gp_tempo := 90; Session.gp_style := "lofi";
              Session.gp_bars := 8 |}) in
  Session.getJourneySummary sessions "s1" 0 = [].
Proof.
  intros sessions.
  assert (Hget : Session.getSession sessions "s1"
                 = Some {| Session.id := "s1"; Session.projectName := "demo";
                           Session.state :=
                             Session.createInitialState
                               {| Session.gp_key := "C";
                                  Session.gp_mode := "major";
                                  Session.gp_tempo := 90;
                                  Session.gp_style := "lofi";
                                  Session.gp_bars := 8 |};
                           Session.segments := []; Session.journey := [];
                           Session.createdAt := "t0";
                           Session.updatedAt := "t1" |})
    by reflexivity.
  exact (proj2 (journey_summary "t2" sessions "s1" _
                  {| Session.step_style := "lofi";
                     Session.step_mode := "major"; Session.step_key := "C";
                     Session.step_tempo := 90; Session.step_bars := 8;
                     Session.step_direction := continue |} 5 Hget)).
Defined.

Section FileNames.

Import Session.

Lemma parseInt_leading_zero (s : string) :
  parseInt (String "0" s) = parseInt s.
Proof.
  unfold parseInt. cbn [NilEmpty.uint_of_string].
  destruct (NilEmpty.uint_of_string s) as [u|]; reflexivity.
Qed.

Lemma parseInt_padStart (s : string) (n : nat) :
  parseInt (padStart s n "0") = parseInt s.
Proof.
  unfold padStart. induction (n - String.length s)%nat as [|k IH];
    [reflexivity|].
  cbn [repeat_char append]. now rewrite parseInt_leading_zero.
Qed.

Lemma append_length (s t : string) :
  String.length (s ++ t) = (String.length s + String.length t)%nat.
Proof. induction s as [|c s IH]; simpl; [reflexivity|now rewrite IH]. Qed.

Lemma append_inv_head (s t u : string) : (s ++ t = s ++ u)%string -> t = u.
Proof.
  induction s as [|c s IH]; simpl; [auto|]. intros [= H]. now apply IH.
Qed.

Lemma append_inv_tail (s t u : string) : (s ++ u = t ++ u)%string -> s = t.
Proof.
  intros H.
  assert (Hlen : String.length s = String.length t).
  { apply (f_equal String.length) in H. rewrite !append_length in H. lia. }
  revert t H Hlen. induction s as [|c s IH]; intros [|d t] H Hlen;
    simpl in *; try discriminate; [reflexivity|].
  injection H as -> H. f_equal. apply IH; [exact H|now injection Hlen].
Qed.

Lemma segment_filename_inj project a b :
  segment_filename project a = segment_filename project b -> a = b.
Proof.
  unfold segment_filename. intros H.
  apply append_inv_head in H. apply (append_inv_head "-") in H.
  apply append_inv_tail in H.
  apply (f_equal parseInt) in H.
  rewrite !parseInt_padStart, !parseInt_Number_toString in H by lia. lia.
Qed.

Lemma NoDup_map_injective {A B} (f : A -> B) (l : list A) :
  (forall a b, f a = f b -> a = b) -> NoDup l -> NoDup (map f l).
Proof.
  intros Hinj Hl. induction Hl as [|a l Hnotin _ IH]; simpl; constructor;
    [|exact IH].
  intros Hin. apply in_map_iff in Hin. destruct Hin as (b & Hb & Hin).
  apply Hinj in Hb. now subst b.
Qed.

(** X18: segment files.  In a storage built by the functions of
    session.ts, the segment record at position [k] of a session (counting
    from 0) names the file [<project>-<k + 1>.mid], the number written with
    at least three digits, and no two segment records of a session name the
    same file. *)
Theorem segment_files_distinct getTime sessions sessionId session :
  reachable getTime sessions ->
  getSession sessions sessionId = Some session ->
  map seg_filename (segments session)
  = map (segment_filename (projectName session))
      (seq 0 (List.length (segments session)))
  /\ NoDup (map seg_filename (segments session))
  /\ forall k,
       (3 <= String.length
               (padStart (Number_toString (Z.of_nat k + 1)) 3 "0"))%nat
       /\ parseInt (padStart (Number_toString (Z.of_nat k + 1)) 3 "0")
          = Z.of_nat k + 1.
Proof.
  intros Hreach Hget.
  destruct (reachable_kept _ _ Hreach) as [_ Hall].
  rewrite Forall_forall in Hall.
  destruct (Hall _ (Map_get_In _ _ _ Hget)) as [_ _ _ Hfiles].
  cbn [snd] in Hfiles.
  split; [exact Hfiles|]. split.
  - rewrite Hfiles. apply NoDup_map_injective; [|apply seq_NoDup].
    intros a b. apply segment_filename_inj.
  - intros k. split.
    + unfold padStart. rewrite append_length.
      assert (Hpad : forall n, String.length (repeat_char "0" n) = n)
        by (induction n as [|n IH]; simpl; congruence).
      rewrite Hpad. lia.
    + rewrite parseInt_padStart. apply parseInt_Number_toString. lia.
Qed.

End FileNames.

Lemma segment_files_distinct_witness :
  match
    Session.updateSessionWithSegment "g1" "t2" "t3"
      (fst (Session.createSession "s1" "t0" "t1" [] "demo"
              {| Session.gp_key := "C"; Session.gp_mode := "major";
                 Session.gp_tempo := 90; Session.gp_style := "lofi";
                 Session.gp_bars := 8 |}))
      "s1" "TVRoZA=="
      {| bars := 8; durationSeconds := S754_finite false 6004799503160662 (-48);
         endingNotes := {| melody := []; bass := []; chords := [] |};
         endingChord := "C"; endingChordType := "maj7";
         progressionPosition := 0; dynamics := default_dynamics;
         motif := [2; 3] |}
  with
  | Session.Updated sessions' _ =>
      match Session.getSession sessions' "s1" with
      | Some session =>
          NoDup (map Session.seg_filename (Session.segments session))
      | None => False
      end
  | Session.SessionNotFound _ => False
  end.
Proof.
  destruct (Session.updateSessionWithSegment _ _ _ _ _ _ _)
    as [missing|sessions' segment] eqn:E.
  - vm_compute in E. discriminate.
  - assert (Hreach : reachable (fun _ => None) sessions').
    { eapply reach_update; [|exact E]. apply reach_create, reach_empty. }
    destruct (Session.getSession sessions' "s1") as [session|] eqn:Hget.
    + exact (proj1 (proj2 (segment_files_distinct _ _ _ _ Hreach Hget))).
    + vm_compute in E. injection E as <- _. vm_compute in Hget.
      discriminate.
Defined.

Section Durations.

Import Session.

Lemma Qfloor_div_pos (x : Q) (m : positive) :
  Qfloor (x / inject_Z (Z.pos m)) = Qfloor x / Z.pos m.
Proof.
  destruct x as [a b]. unfold Qdiv, Qmult, Qinv. simpl.
  rewrite Z.mul_1_r, Pos2Z.inj_mul. symmetry. apply Z.div_div; lia.
Qed.

Lemma Qfloor_minus_Z (x : Q) (k : Z) :
  Qfloor (x - inject_Z k) = Qfloor x - k.
Proof.
  destruct x as [a b]. unfold Qminus, Qplus, Qopp. simpl.
  rewrite Z.mul_1_r, Pos.mul_1_r.
  replace (a + - k * Z.pos b) with (a + (- k) * Z.pos b) by lia.
  rewrite Z.div_add by lia. lia.
Qed.

Lemma padStart_two_digits (r : Z) :
  0 <= r < 100 -> padStart (Number_toString r) 2 "0" = two_digits r.
Proof.
  intros Hr.
  assert (Hall : forallb
                   (fun r => String.eqb (padStart (Number_toString r) 2 "0")
                               (two_digits r))
                   (upto 100) = true) by (vm_compute; reflexivity).
  rewrite forallb_forall in Hall. apply String.eqb_eq, Hall, In_upto, Hr.
Qed.

(** X19: durations on display.  For a number of seconds that is not
    negative and is below 2^53, where the whole minutes are a number that
    prints with all its digits, [formatDuration] prints the whole minutes,
    a colon and the remaining whole seconds, from 00 to 59, always with two
    digits.  A negative number is not refused: one second below zero prints
    as [-1:-1]. *)
Theorem formatDuration_minutes_seconds (seconds : Q) :
  (0 <= seconds)%Q ->
  (seconds < inject_Z (2 ^ 53))%Q ->
  formatDuration seconds
  = (Number_toString (Qfloor seconds / 60) ++ ":"
     ++ two_digits (Qfloor seconds mod 60))%string
  /\ 0 <= Qfloor seconds mod 60 < 60
  /\ 0 <= Qfloor seconds / 60 < 2 ^ 53
  /\ formatDuration (-1) = "-1:-1"%string.
Proof.
  intros Hs Hbound.
  assert (Hfloor : 0 <= Qfloor seconds < 2 ^ 53).
  { split.
    - change 0 with (Qfloor (inject_Z 0)). now apply Qfloor_resp_le.
    - apply Z.lt_nge. intros Hge.
      apply (Qlt_not_le _ _ Hbound).
      eapply Qle_trans; [|apply Qfloor_le]. now rewrite <- Zle_Qle. }
  split.
  2: { split; [apply Z.mod_pos_bound; lia|]. split; [|reflexivity].
       split; [apply Z.div_pos; lia|]. apply Z.div_lt_upper_bound; lia. }
  unfold formatDuration, Math_floor.
  change 60%Q with (inject_Z 60) at 1.
  rewrite Qfloor_div_pos. do 2 f_equal.
  assert (Hq : (0 <= seconds / inject_Z 60)%Q).
  { apply Qle_shift_div_l; [reflexivity|]. now rewrite Qmult_0_l. }
  unfold Number_rem.
  replace (Qltb (seconds / inject_Z 60) 0) with false
    by (symmetry; now apply Qltb_false).
  rewrite <- inject_Z_mult, Qfloor_minus_Z, Qfloor_div_pos.
  rewrite <- Z.mod_eq by lia.
  apply padStart_two_digits.
  pose proof (Z.mod_pos_bound (Qfloor seconds) 60 ltac:(lia)). lia.
Qed.

Lemma formatDuration_minutes_seconds_witness :
  Session.formatDuration (251 # 2) = "2:05"%string.
Proof.
  assert (Hs : (0 <= 251 # 2)%Q) by discriminate.
  assert (Hbound : (251 # 2 < inject_Z (2 ^ 53))%Q) by reflexivity.
  exact (proj1 (formatDuration_minutes_seconds (251 # 2) Hs Hbound)).
Defined.

End Durations.

Section ExtendingASession.

Variable Math_random : nat -> Q.
Variable Math_sin : Q -> Q.
Hypothesis Math_random_range : forall k, (0 <= Math_random k < 1)%Q.

Import Session.


End ExtendingASession.


(* ================================================================== *)
(** ** Properties of feedback-manager.ts *)

Section Votes.

Import Feedback.

Lemma Set_has_In s x : Set_has s x = true <-> In x s.
Proof.
  unfold Set_has. rewrite existsb_exists. split.
  - intros (y & Hin & Heq). apply String.eqb_eq in Heq. now subst.
  - intros Hin. exists x. split; [exact Hin|apply String.eqb_refl].
Qed.

Lemma Set_has_not_In s x : Set_has s x = false <-> ~ In x s.
Proof.
  rewrite <- Set_has_In. destruct (Set_has s x); split; congruence.
Qed.

Lemma Set_delete_In s x y : In y (Set_delete s x) <-> In y s /\ y <> x.
Proof.
  unfold Set_delete. rewrite filter_In, negb_true_iff.
  split; intros [Hin H]; (split; [exact Hin|]).
  - intros ->. now rewrite String.eqb_refl in H.
  - destruct (String.eqb_spec x y); congruence.
Qed.

Lemma Set_has_delete_same s x : Set_has (Set_delete s x) x = false.
Proof. apply Set_has_not_In. rewrite Set_delete_In. tauto. Qed.

Lemma Set_has_delete_other s x y :
  y <> x -> Set_has (Set_delete s x) y = Set_has s y.
Proof.
  intros Hne. destruct (Set_has s y) eqn:E.
  - apply Set_has_In. apply Set_delete_In. split; [|exact Hne].
    now apply Set_has_In.
  - apply Set_has_not_In. rewrite Set_delete_In.
    apply Set_has_not_In in E. tauto.
Qed.

Lemma Set_add_after_delete s x :
  Set_add (Set_delete s x) x = Set_delete s x ++ [x].
Proof. unfold Set_add. now rewrite Set_has_delete_same. Qed.

Lemma Set_has_app s x y :
  Set_has (s ++ [x]) y = Set_has s y || String.eqb y x.
Proof. unfold Set_has. rewrite existsb_app. simpl. now rewrite orb_false_r. Qed.

Lemma NoDup_Set_delete s x : NoDup s -> NoDup (Set_delete s x).
Proof. apply NoDup_filter. Qed.

Lemma NoDup_snoc (s : list string) x : NoDup s -> ~ In x s -> NoDup (s ++ [x]).
Proof.
  intros Hs Hx. apply NoDup_app; [exact Hs|repeat constructor; simpl; tauto|].
  intros y Hy [<-|[]]. contradiction.
Qed.

Lemma Set_size_delete s x :
  NoDup s ->
  Set_size (Set_delete s x) = Set_size s - (if Set_has s x then 1 else 0).
Proof.
  unfold Set_size, Set_delete, Set_has. intros Hs.
  induction Hs as [|y s Hnotin Hs IH]; cbn [filter existsb List.length];
    [reflexivity|].
  destruct (String.eqb_spec x y) as [->|Hne]; cbn [negb orb].
  - assert (Hsame : filter (fun z => negb (String.eqb y z)) s = s).
    { apply forallb_filter_id. apply forallb_forall. intros z Hz.
      apply negb_true_iff. destruct (String.eqb_spec y z); congruence. }
    rewrite Hsame. lia.
  - cbn [List.length]. rewrite !Nat2Z.inj_succ, IH.
    destruct (existsb (String.eqb x) s); lia.
Qed.

Lemma one_vote_each_delete r listenerId :
  one_vote_each r ->
  one_vote_each
    {| upvotes := Set_delete (upvotes r) listenerId;
       downvotes := Set_delete (downvotes r) listenerId |}.
Proof.
  intros (Hup & Hdown & Hdisjoint). cbn.
  split; [now apply NoDup_Set_delete|].
  split; [now apply NoDup_Set_delete|].
  intros x Hx Hx'. apply Set_delete_In in Hx, Hx'.
  apply (Hdisjoint x); tauto.
Qed.

(** The record [recordVote] leaves for a pattern. *)
Lemma one_vote_each_vote r listenerId (value : Z) :
  one_vote_each r ->
  one_vote_each
    (if value =? 1
     then {| upvotes := Set_add (Set_delete (upvotes r) listenerId) listenerId;
             downvotes := Set_delete (downvotes r) listenerId |}
     else {| upvotes := Set_delete (upvotes r) listenerId;
             downvotes :=
               Set_add (Set_delete (downvotes r) listenerId) listenerId |}).
Proof.
  intros (Hup & Hdown & Hdisjoint).
  assert (Hself : forall s, ~ In listenerId (Set_delete s listenerId))
    by (intros s H; apply Set_delete_In in H; tauto).
  destruct (value =? 1); rewrite Set_add_after_delete; cbn;
    (split; [|split]);
    try (apply NoDup_snoc; [|apply Hself]);
    try now apply NoDup_Set_delete.
  - intros x Hx Hx'. apply in_app_or in Hx. apply Set_delete_In in Hx'.
    destruct Hx as [Hx|[<-|[]]]; [|tauto].
    apply Set_delete_In in Hx. apply (Hdisjoint x); tauto.
  - intros x Hx Hx'. apply in_app_or in Hx'. apply Set_delete_In in Hx.
    destruct Hx' as [Hx'|[<-|[]]]; [|tauto].
    apply Set_delete_In in Hx'. apply (Hdisjoint x); tauto.
Qed.

Lemma findIndex_from_found {A} (f : A -> bool) (l : list A) (k : Z) :
  (findIndex_from (fun a _ => f a) l k = -1
   /\ forall a, In a l -> f a = false)
  \/ exists before a after,
       l = before ++ a :: after /\ f a = true
       /\ findIndex_from (fun a _ => f a) l k
          = k + Z.of_nat (List.length before).
Proof.
  revert k. induction l as [|a l IH]; intros k; simpl.
  - left. split; [reflexivity|contradiction].
  - destruct (f a) eqn:E.
    + right. exists [], a, l. simpl. repeat split; [exact E|lia].
    + destruct (IH (k + 1)) as [[Hnone Hall]|(b & x & c & -> & Hx & Hi)].
      * left. split; [exact Hnone|]. intros y [<-|Hy]; auto.
      * right. exists (a :: b), x, c. simpl. repeat split; [exact Hx|lia].
Qed.

Lemma set_at_middle {A} (before after : list A) (a x : A) :
  set_at (before ++ a :: after) (List.length before) x
  = before ++ x :: after.
Proof. induction before as [|b before IH]; simpl; [reflexivity|now rewrite IH]. Qed.

(** What [updateHistory] does to the history: the entry of the pattern is
    replaced where it stands, or put last, the oldest entry leaving when
    there are more than twenty. *)
Lemma updateHistory_cases history feedback :
  (exists before old after,
      history = before ++ old :: after
      /\ patternId old = patternId feedback
      /\ updateHistory history feedback = before ++ feedback :: after)
  \/ ((forall fb, In fb history -> patternId fb <> patternId feedback)
      /\ updateHistory history feedback
         = (if 20 <? Z.of_nat (List.length (history ++ [feedback]))
            then tl (history ++ [feedback]) else history ++ [feedback])).
Proof.
  unfold updateHistory, findIndex.
  destruct (findIndex_from_found
              (fun fb => String.eqb (patternId fb) (patternId feedback))
              history 0)
    as [[-> Hall]|(before & old & after & -> & Hold & ->)].
  - right. split; [|reflexivity].
    intros fb Hin Heq. apply Hall in Hin.
    rewrite Heq, String.eqb_refl in Hin. discriminate.
  - left. exists before, old, after.
    split; [reflexivity|]. split; [now apply String.eqb_eq|].
    destruct (Z.leb_spec 0 (0 + Z.of_nat (List.length before))); [|lia].
    replace (Z.to_nat (0 + Z.of_nat (List.length before)))
      with (List.length before) by lia.
    apply set_at_middle.
Qed.

Lemma NoDup_tl {A} (l : list A) : NoDup l -> NoDup (tl l).
Proof. destruct l; simpl; [auto|]. intros H. now inversion H. Qed.

Lemma Forall_tl {A} (P : A -> Prop) (l : list A) :
  Forall P l -> Forall P (tl l).
Proof. destruct l; simpl; [auto|]. intros H. now inversion H. Qed.

Lemma updateHistory_kept history feedback :
  (List.length history <= 20)%nat ->
  NoDup (map patternId history) ->
  Forall (fun fb => 0 <= fb_upvotes fb /\ 0 <= fb_downvotes fb) history ->
  0 <= fb_upvotes feedback /\ 0 <= fb_downvotes feedback ->
  (List.length (updateHistory history feedback) <= 20)%nat
  /\ NoDup (map patternId (updateHistory history feedback))
  /\ Forall (fun fb => 0 <= fb_upvotes fb /\ 0 <= fb_downvotes fb)
       (updateHistory history feedback)
  /\ In feedback (updateHistory history feedback).
Proof.
  intros Hlen Hids Hcounts Hfeedback.
  destruct (updateHistory_cases history feedback)
    as [(before & old & after & -> & Hold & ->)|[Hnew ->]].
  - rewrite !length_app in *. cbn [List.length] in *.
    rewrite !map_app in *. cbn [map] in *. rewrite <- Hold.
    split; [exact Hlen|]. split; [exact Hids|].
    split; [|apply in_or_app; right; now left].
    apply Forall_app in Hcounts. destruct Hcounts as [Hb Ha].
    apply Forall_app. split; [exact Hb|].
    inversion Ha; subst. now constructor.
  - assert (Hids' : NoDup (map patternId (history ++ [feedback]))).
    { rewrite map_app. cbn [map]. apply NoDup_snoc; [exact Hids|].
      intros Hin. apply in_map_iff in Hin.
      destruct Hin as (fb & Heq & Hin). now apply (Hnew fb). }
    assert (Hcounts' : Forall (fun fb => 0 <= fb_upvotes fb
                                         /\ 0 <= fb_downvotes fb)
                         (history ++ [feedback])).
    { apply Forall_app. split; [exact Hcounts|].
      constructor; [exact Hfeedback|constructor]. }
    destruct (Z.ltb_spec 20 (Z.of_nat (List.length (history ++ [feedback]))))
      as [Hfull|Hroom].
    + rewrite length_app in Hfull. cbn [List.length] in Hfull.
      destruct history as [|oldest history]; [simpl in Hfull; lia|].
      cbn [app tl].
      split; [rewrite length_app; simpl in *; lia|].
      split; [now apply NoDup_tl in Hids'|].
      split; [now apply Forall_tl in Hcounts'|].
      apply in_or_app. right. now left.
    + split; [lia|]. split; [exact Hids'|]. split; [exact Hcounts'|].
      apply in_or_app. right. now left.
Qed.

Lemma getFeedback_counts m pattern :
  0 <= fb_upvotes (getFeedback m pattern)
  /\ 0 <= fb_downvotes (getFeedback m pattern).
Proof.
  unfold getFeedback, Set_size. cbn.
  destruct (Map_get (votes m) pattern); lia.
Qed.

(** The record of a pattern, or the empty one, has one vote each. *)
Lemma record_one_vote_each m pattern :
  Forall (fun entry => one_vote_each (snd entry)) (votes m) ->
  one_vote_each
    match Map_get (votes m) pattern with
    | Some r => r
    | None => {| upvotes := []; downvotes := [] |}
    end.
Proof.
  intros Hall. destruct (Map_get (votes m) pattern) as [r|] eqn:Hget.
  - apply Map_get_In in Hget. rewrite Forall_forall in Hall.
    apply (Hall _ Hget).
  - repeat split; cbn; try constructor. intros x [].
Qed.

(** The methods of the manager keep its state in order. *)
Lemma feedback_state (m : FeedbackManager) : voted m -> votes_in_order m.
Proof.
  induction 1 as [|m pattern listenerId value _ IH
                  |m listenerId _ IH|m active _ IH].
  - constructor; cbn; first [lia|constructor].
  - destruct IH as [Hkeys Hvotes Hlen Hids Hcounts].
    unfold recordVote. cbv zeta. cbn [fst votes feedbackHistory].
    match goal with
    | |- votes_in_order
           {| votes := Map_set _ _ ?record;
              feedbackHistory := updateHistory _ ?fb |} =>
        destruct (Map_set_kept (fun _ r => one_vote_each r) (votes m)
                    pattern record Hkeys Hvotes) as [Hkeys' Hvotes'];
        [apply one_vote_each_vote, record_one_vote_each, Hvotes|];
        assert (Hfb : 0 <= fb_upvotes fb /\ 0 <= fb_downvotes fb)
          by apply getFeedback_counts;
        destruct (updateHistory_kept (feedbackHistory m) fb Hlen Hids
                    Hcounts Hfb)
          as (Hlen' & Hids' & Hcounts' & _)
    end.
    constructor; cbn [votes feedbackHistory]; eassumption.
  - destruct IH as [Hkeys Hvotes Hlen Hids Hcounts].
    constructor; cbn [removeListener votes feedbackHistory]; try assumption.
    + rewrite map_map. cbn [fst]. exact Hkeys.
    + apply Forall_map. eapply Forall_impl; [|exact Hvotes].
      intros entry Hentry. cbn [snd]. now apply one_vote_each_delete.
  - destruct IH as [Hkeys Hvotes Hlen Hids Hcounts].
    constructor; cbn [cleanup votes feedbackHistory]; try assumption.
    + now apply NoDup_map_fst_filter.
    + apply Forall_forall. intros entry Hin. apply filter_In in Hin.
      rewrite Forall_forall in Hvotes. apply Hvotes. tauto.
Qed.

(** X21: every listener counts once.  Whatever votes have been recorded,
    listeners removed and patterns cleaned up since the manager was created,
    the upvotes and downvotes [getFeedback] reports for a pattern add up to
    the number of listeners who have a vote on it, each counted once; and
    the feedback history holds at most twenty entries, at most one for each
    pattern. *)
Theorem listeners_counted_once (m : FeedbackManager) (pattern : string) :
  voted m ->
  (exists voters,
     NoDup voters
     /\ (forall listenerId,
           In listenerId voters
           <-> getListenerVote m pattern listenerId <> None)
     /\ fb_upvotes (getFeedback m pattern)
        + fb_downvotes (getFeedback m pattern)
        = Z.of_nat (List.length voters))
  /\ (List.length (getRecentFeedback m) <= 20)%nat
  /\ NoDup (map patternId (getRecentFeedback m)).
Proof.
  intros Hm.
  destruct (feedback_state m Hm) as [Hkeys Hvotes Hlen Hids Hcounts].
  split; [|split; assumption].
  unfold getFeedback, getListenerVote. cbn [fb_upvotes fb_downvotes].
  destruct (Map_get (votes m) pattern) as [record|] eqn:Hget.
  - apply Map_get_In in Hget. rewrite Forall_forall in Hvotes.
    destruct (Hvotes _ Hget) as (Hup & Hdown & Hdisjoint). cbn [snd] in *.
    exists (upvotes record ++ downvotes record).
    split; [now apply NoDup_app|]. split.
    + intros listenerId. rewrite in_app_iff, <- !Set_has_In.
      destruct (Set_has (upvotes record) listenerId),
        (Set_has (downvotes record) listenerId);
        intuition congruence.
    + unfold Set_size. rewrite length_app. lia.
  - exists []. split; [constructor|]. split; [|reflexivity].
    intros listenerId. simpl. tauto.
Qed.

(** X22: a vote, once recorded.  In any state of the manager, after
    [recordVote] the listener's vote on the pattern is the one just cast
    (an upvote for the value 1, a downvote for any other value), and the
    feedback returned is the feedback of the pattern in the new state and
    an entry of the history.  The votes of the other listeners and on the
    other patterns are as before.  A listener who changes a vote is not
    counted again: the votes of the pattern grow by one for a first vote and
    stay as many otherwise. *)
Theorem recorded_vote (m : FeedbackManager) (pattern listenerId : string)
    (value : Z) :
  voted m ->
  let m' := fst (recordVote m pattern listenerId value) in
  let feedback := snd (recordVote m pattern listenerId value) in
  getListenerVote m' pattern listenerId
  = Some (if value =? 1 then 1 else -1)
  /\ feedback = getFeedback m' pattern
  /\ In feedback (getRecentFeedback m')
  /\ fb_upvotes feedback + fb_downvotes feedback
     = fb_upvotes (getFeedback m pattern)
       + fb_downvotes (getFeedback m pattern)
       + match getListenerVote m pattern listenerId with
         | Some _ => 0
         | None => 1
         end
  /\ (forall other, other <> listenerId ->
      getListenerVote m' pattern other = getListenerVote m pattern other)
  /\ (forall pattern' other, pattern' <> pattern ->
      getListenerVote m' pattern' other = getListenerVote m pattern' other).
Proof.
  intros Hm m' feedback.
  destruct (feedback_state m Hm) as [Hkeys Hvotes Hlen Hids Hcounts].
  pose proof (record_one_vote_each m pattern Hvotes)
    as (Hup & Hdown & Hdisjoint).
  subst m' feedback. unfold recordVote. cbv zeta.
  cbn [fst snd]. unfold getListenerVote, getFeedback, getRecentFeedback.
  cbn [votes feedbackHistory fb_upvotes fb_downvotes].
  rewrite !Map_get_set_same.
  set (record := match Map_get (votes m) pattern with
                 | Some r => r
                 | None => {| upvotes := []; downvotes := [] |}
                 end) in *.
  assert (Hcount :
            fb_upvotes (getFeedback m pattern) = Set_size (upvotes record)
            /\ fb_downvotes (getFeedback m pattern)
               = Set_size (downvotes record)
            /\ forall listener,
                 getListenerVote m pattern listener
                 = (if Set_has (upvotes record) listener then Some 1
                    else if Set_has (downvotes record) listener
                         then Some (-1) else None)).
  { unfold getFeedback, getListenerVote, record. cbn.
    destruct (Map_get (votes m) pattern); repeat split. }
  destruct Hcount as (Hcu & Hcd & Hvote).
  unfold getFeedback in Hcu, Hcd. cbn in Hcu, Hcd.
  unfold getListenerVote in Hvote. rewrite Hcu, Hcd, Hvote.
  split; [|split; [reflexivity|split; [|split; [|split]]]].
  - destruct (value =? 1); cbn [upvotes downvotes];
      rewrite Set_add_after_delete, ?Set_has_app, ?Set_has_delete_same,
        ?String.eqb_refl; reflexivity.
  - match goal with
    | |- In ?fb (updateHistory _ _) =>
        assert (Hfb : 0 <= fb_upvotes fb /\ 0 <= fb_downvotes fb)
          by (cbn; unfold Set_size; destruct (value =? 1); cbn; lia);
        apply (updateHistory_kept (feedbackHistory m) fb Hlen Hids Hcounts
                 Hfb)
    end.
  - assert (Hboth : Set_has (upvotes record) listenerId = true ->
                    Set_has (downvotes record) listenerId = false).
    { intros H. apply Set_has_not_In. apply Hdisjoint.
      now apply Set_has_In. }
    destruct (value =? 1); cbn [upvotes downvotes];
      rewrite Set_add_after_delete;
      unfold Set_size at 1 2; rewrite length_app; cbn [List.length];
      fold (Set_size (Set_delete (upvotes record) listenerId));
      fold (Set_size (Set_delete (downvotes record) listenerId));
      rewrite Nat2Z.inj_add; cbn [Z.of_nat Pos.of_succ_nat];
      repeat match goal with
             | |- context [Z.of_nat (List.length ?l)] =>
                 fold (Set_size l)
             end;
      rewrite !Set_size_delete by assumption;
      destruct (Set_has (upvotes record) listenerId) eqn:Eu;
      destruct (Set_has (downvotes record) listenerId) eqn:Ed;
      try (specialize (Hboth eq_refl); discriminate); lia.
  - intros other Hother. rewrite Hvote.
    destruct (value =? 1); cbn [upvotes downvotes];
      rewrite Set_add_after_delete, ?Set_has_app,
        !Set_has_delete_other by exact Hother;
      destruct (String.eqb_spec other listenerId); try contradiction;
      rewrite ?orb_false_r; reflexivity.
  - intros pattern' other Hpattern.
    now rewrite Map_get_set_other by exact Hpattern.
Qed.

(** X23: a listener who leaves.  After [removeListener] the listener has
    no vote on any pattern, the votes of the other listeners are as before,
    and the feedback history is not touched: it goes on counting the votes
    removed.  After one upvote and the removal of its listener, the history
    still shows one upvote for a pattern whose feedback shows none. *)
Theorem removed_listener (m : FeedbackManager)
    (listenerId pattern other : string) :
  getListenerVote (removeListener m listenerId) pattern listenerId = None
  /\ (other <> listenerId ->
      getListenerVote (removeListener m listenerId) pattern other
      = getListenerVote m pattern other)
  /\ getRecentFeedback (removeListener m listenerId) = getRecentFeedback m
  /\ (let m1 := fst (recordVote new_FeedbackManager pattern listenerId 1) in
      getRecentFeedback (removeListener m1 listenerId)
      = [{| patternId := pattern; fb_upvotes := 1; fb_downvotes := 0 |}]
      /\ getFeedback (removeListener m1 listenerId) pattern
         = {| patternId := pattern; fb_upvotes := 0; fb_downvotes := 0 |}).
Proof.
  assert (Hget : forall p,
            Map_get (votes (removeListener m listenerId)) p
            = option_map
                (fun r =>
                   {| upvotes := Set_delete (upvotes r) listenerId;
                      downvotes := Set_delete (downvotes r) listenerId |})
                (Map_get (votes m) p)).
  { intros p. unfold removeListener. cbn [votes].
    induction (votes m) as [|[k r] rest IH]; cbn; [reflexivity|].
    destruct (String.eqb p k); [reflexivity|exact IH]. }
  split; [|split; [|split; [reflexivity|]]].
  - unfold getListenerVote. rewrite Hget.
    destruct (Map_get (votes m) pattern);
      cbn [option_map upvotes downvotes]; [|reflexivity].
    now rewrite !Set_has_delete_same.
  - intros Hother. unfold getListenerVote. rewrite Hget.
    destruct (Map_get (votes m) pattern);
      cbn [option_map upvotes downvotes]; [|reflexivity].
    now rewrite !Set_has_delete_other by exact Hother.
  - cbv zeta. unfold recordVote, getRecentFeedback, getFeedback,
      removeListener, updateHistory, findIndex.
    cbn. rewrite ?String.eqb_refl. cbn. rewrite ?String.eqb_refl. cbn.
    rewrite ?String.eqb_refl. split; reflexivity.
Qed.

Lemma sentiment_sums (history : list PatternFeedback) :
  Forall (fun fb => 0 <= fb_upvotes fb /\ 0 <= fb_downvotes fb) history ->
  forall score total,
    Z.abs score <= total ->
    Z.abs
      (fold_left (fun t fb => t + (fb_upvotes fb - fb_downvotes fb))
         history score)
    <= fold_left (fun t fb => t + (fb_upvotes fb + fb_downvotes fb))
         history total.
Proof.
  induction 1 as [|fb history Hfb _ IH]; intros score total Hst; simpl;
    [exact Hst|].
  apply IH. lia.
Qed.

(** X24: the overall sentiment.  In any state of the manager the score
    [getOverallSentiment] returns lies between -1 and 1; the sentiment is
    positive exactly when the score is above 0.2 and negative exactly when
    it is below -0.2; with no vote in the history the answer is neutral with
    score 0.  (The score is the exact quotient.) *)
Theorem overall_sentiment (m : FeedbackManager) :
  voted m ->
  let sentiment := fst (getOverallSentiment m) in
  let score := snd (getOverallSentiment m) in
  (-1 <= score <= 1)%Q
  /\ (sentiment = positive <-> (2 # 10 < score)%Q)
  /\ (sentiment = negative <-> (score < - (2 # 10))%Q)
  /\ (feedbackHistory m = [] -> getOverallSentiment m = (neutral, 0%Q)).
Proof.
  intros Hm sentiment score. subst sentiment score.
  destruct (feedback_state m Hm) as [_ _ _ _ Hcounts].
  pose proof (sentiment_sums _ Hcounts 0 0 ltac:(lia)) as Hsums.
  unfold getOverallSentiment. cbv zeta.
  set (totalScore :=
         fold_left (fun t fb => t + (fb_upvotes fb - fb_downvotes fb))
           (feedbackHistory m) 0) in *.
  set (totalVotes :=
         fold_left (fun t fb => t + (fb_upvotes fb + fb_downvotes fb))
           (feedbackHistory m) 0) in *.
  split; [|split; [|split]].
  - destruct (Z.eqb_spec totalVotes 0) as [Hzero|Hvotes];
      [cbn [snd]; split; apply Qle_bool_imp_le; reflexivity|].
    assert (Hv : (0 < inject_Z totalVotes)%Q)
      by (change 0%Q with (inject_Z 0); rewrite <- Zlt_Qlt; lia).
    assert (Hbound : (-1 <= inject_Z totalScore / inject_Z totalVotes <= 1)%Q).
    { split.
      - apply Qle_shift_div_l; [exact Hv|].
        unfold Qle, Qmult, inject_Z. cbn [Qnum Qden]. lia.
      - apply Qle_shift_div_r; [exact Hv|].
        rewrite Qmult_1_l, <- Zle_Qle. lia. }
    destruct (Qltb _ _); [exact Hbound|].
    destruct (Qltb _ _); exact Hbound.
  - destruct (Z.eqb_spec totalVotes 0) as [Hzero|Hvotes]; cbn [fst snd].
    + split; [discriminate|]. intros H. apply Qlt_not_le in H.
      exfalso. apply H. apply Qle_bool_imp_le. reflexivity.
    + destruct (Qltb (2 # 10) _) eqn:E; cbn [fst snd].
      * split; [intros _; now apply Qltb_true|reflexivity].
      * apply Qltb_false in E.
        destruct (Qltb _ _); cbn [fst snd];
          (split; [discriminate|]);
          intros H; apply Qlt_not_le in H; contradiction.
  - destruct (Z.eqb_spec totalVotes 0) as [Hzero|Hvotes]; cbn [fst snd].
    + split; [discriminate|]. intros H. apply Qlt_not_le in H.
      exfalso. apply H. apply Qle_bool_imp_le. reflexivity.
    + destruct (Qltb (2 # 10) _) eqn:E; cbn [fst snd].
      * apply Qltb_true in E.
        split; [discriminate|]. intros H.
        assert (Hcontra : (2 # 10 < - (2 # 10))%Q)
          by (eapply Qlt_trans; eassumption).
        apply Qlt_not_le in Hcontra. exfalso. apply Hcontra.
        apply Qle_bool_imp_le. reflexivity.
      * destruct (Qltb _ (- (2 # 10))) eqn:E'; cbn [fst snd].
        -- split; [intros _; now apply Qltb_true|reflexivity].
        -- apply Qltb_false in E'.
           split; [discriminate|].
           intros H. apply Qlt_not_le in H. contradiction.
  - intros Hempty. subst totalScore totalVotes. rewrite Hempty. reflexivity.
Qed.

End Votes.

Lemma listeners_counted_once_witness :
  (List.length
     (Feedback.getRecentFeedback
        (fst (Feedback.recordVote Feedback.new_FeedbackManager "p1" "ann" 1)))
   <= 20)%nat.
Proof.
  assert (Hm : voted (fst (Feedback.recordVote Feedback.new_FeedbackManager
                             "p1" "ann" 1)))
    by apply voted_recordVote, voted_new.
  exact (proj1 (proj2 (listeners_counted_once _ "p1" Hm))).
Defined.

Lemma recorded_vote_witness :
  Feedback.getListenerVote
    (fst (Feedback.recordVote
            (fst (Feedback.recordVote Feedback.new_FeedbackManager
                    "p1" "ann" 1))
            "p1" "ann" (-1)))
    "p1" "ann"
  = Some (-1).
Proof.
  assert (Hm : voted (fst (Feedback.recordVote Feedback.new_FeedbackManager
                             "p1" "ann" 1)))
    by apply voted_recordVote, voted_new.
  exact (proj1 (recorded_vote _ "p1" "ann" (-1) Hm)).
Defined.

Lemma overall_sentiment_witness :
  (-1 <= snd (Feedback.getOverallSentiment
                (fst (Feedback.recordVote Feedback.new_FeedbackManager
                        "p1" "ann" 1))) <= 1)%Q.
Proof.
  assert (Hm : voted (fst (Feedback.recordVote Feedback.new_FeedbackManager
                             "p1" "ann" 1)))
    by apply voted_recordVote, voted_new.
  exact (proj1 (overall_sentiment _ Hm)).
Defined.

(* ================================================================== *)
(** ** The next melodic note and the approach note *)

Section MelodicMotion.

Import NextNotes.

Variable Math_random : nat -> Q.
Hypothesis Math_random_range : forall k, (0 <= Math_random k < 1)%Q.

Lemma weighted_selection_some (weighted : list (Z * Z)) (x : Q) :
  weighted <> [] ->
  (x <= inject_Z (fold_right (fun w sum => (snd w + sum)%Z) 0%Z weighted))%Q ->
  exists midi,
    weighted_selection weighted x = Some midi /\ In midi (map fst weighted).
Proof.
  revert x. induction weighted as [|[midi weight] rest IH]; intros x Hne Hx;
    [contradiction|].
  cbn [weighted_selection].
  destruct (Qle_bool (x - inject_Z weight) 0) eqn:E.
  - exists midi. split; [reflexivity|now left].
  - assert (Hpos : ~ (x - inject_Z weight <= 0)%Q).
    { intros H. apply Qle_bool_iff in H. congruence. }
    cbn [fold_right snd] in Hx. rewrite inject_Z_plus in Hx.
    assert (Hrest : (x - inject_Z weight
                     <= inject_Z (fold_right (fun w sum => (snd w + sum)%Z) 0%Z
                                    rest))%Q) by lra.
    destruct rest as [|w rest'].
    + exfalso. apply Hpos. cbn in Hrest. exact Hrest.
    + destruct (IH _ ltac:(discriminate) Hrest) as (m & Hsel & Hin).
      exists m. split; [exact Hsel|now right].
Qed.

Lemma fold_left_sum (weighted : list (Z * Z)) (start : Z) :
  fold_left (fun sum w => sum + snd w) weighted start
  = start + fold_right (fun w sum => (snd w + sum)%Z) 0%Z weighted.
Proof.
  revert start. induction weighted as [|w rest IH]; intros start; simpl;
    [lia|].
  rewrite IH. lia.
Qed.

Lemma weighted_selection_In (weighted : list (Z * Z)) (x : Q) (midi : Z) :
  weighted_selection weighted x = Some midi -> In midi (map fst weighted).
Proof.
  revert x. induction weighted as [|[m w] rest IH]; intros x; simpl;
    [discriminate|].
  destruct (Qle_bool _ _).
  - intros [= ->]. now left.
  - intros H. right. eapply IH. exact H.
Qed.

(** X25: the next melodic note.  With [Math.random()] in [0, 1),
    [getNextMelodicNote] draws one random number and does not throw.  For
    an empty scale it returns the current note.  For any other scale it
    returns the name of a MIDI number at most twelve semitones from the
    current note's, with the pitch class of one of the notes of the scale:
    the fallback to the current note is never reached.  The number is not
    negative, so the name is a string and not [NaN]. *)
Theorem next_melodic_note (currentNote : string) (scale chord : list string)
    (direction : Z) (leap : bool) (n : nat) :
  exists note,
    getNextMelodicNote Math_random currentNote scale chord direction leap n
    = Ok (note, S n)
    /\ (scale = [] -> note = PitchName currentNote)
    /\ (scale <> [] ->
        exists midi,
          note = midiToNote midi
          /\ 0 <= midi
          /\ defined_note note
          /\ Z.abs (midi - noteToMidi currentNote) <= 12
          /\ exists s, In s scale /\ midi mod 12 = noteToMidi s mod 12).
Proof.
  unfold getNextMelodicNote, bind, random. cbv zeta.
  set (currentMidi := noteToMidi currentNote).
  set (nearbyNotes := filter _ _).
  set (weighted := map _ nearbyNotes).
  assert (Hnearby : forall midi, In midi nearbyNotes ->
            0 <= midi
            /\ Z.abs (midi - currentMidi) <= 12
            /\ exists s, In s scale /\ midi mod 12 = noteToMidi s mod 12).
  { intros midi Hin. apply filter_In in Hin. destruct Hin as [Hin Hsome].
    apply in_map_iff in Hin. destruct Hin as (k & <- & Hk).
    apply In_upto in Hk.
    apply existsb_exists in Hsome. destruct Hsome as (m & Hm & Heq).
    apply in_map_iff in Hm. destruct Hm as (s & <- & Hs).
    apply Z.eqb_eq in Heq. unfold rem in Heq.
    pose proof (noteToMidi_lower s) as Hlow.
    rewrite (Z.rem_mod_nonneg (noteToMidi s)) in Heq by lia.
    pose proof (Z.mod_pos_bound (noteToMidi s) 12 ltac:(lia)) as Hb.
    destruct (Z.le_gt_cases 0 (currentMidi + (k - 12))) as [Hnn|Hneg].
    - split; [exact Hnn|]. split; [lia|]. exists s. split; [exact Hs|].
      now rewrite Z.rem_mod_nonneg in Heq by lia.
    - exfalso. pose proof (Z.rem_nonpos (currentMidi + (k - 12)) 12 ltac:(lia)
                    ltac:(lia)) as Hr.
      pose proof (noteToMidi_lower currentNote) as Hc. fold currentMidi in Hc.
      assert (Hk' : currentMidi + (k - 12) = -1) by lia.
      rewrite Hk' in Heq. change (Z.rem (-1) 12) with (-1) in Heq. lia. }
  assert (Hfst : map fst weighted = nearbyNotes).
  { unfold weighted. rewrite map_map. cbn [fst]. apply map_id. }
  destruct (weighted_selection weighted _) as [midi|] eqn:Hsel.
  - exists (midiToNote midi). split; [reflexivity|]. split.
    + intros ->. apply weighted_selection_In in Hsel. rewrite Hfst in Hsel.
      destruct (Hnearby _ Hsel) as (_ & _ & s & [] & _).
    + intros _. exists midi. split; [reflexivity|].
      apply weighted_selection_In in Hsel. rewrite Hfst in Hsel.
      destruct (Hnearby _ Hsel) as (Hmidi & Habs & Hclass).
      split; [exact Hmidi|]. split; [now apply midiToNote_defined|].
      split; [exact Habs|exact Hclass].
  - exists (PitchName currentNote). split; [reflexivity|]. split; [reflexivity|].
    intros Hscale. exfalso.
    destruct scale as [|s rest]; [contradiction|].
    pose proof (noteToMidi_lower s) as Hs.
    pose proof (noteToMidi_lower currentNote) as Hc. fold currentMidi in Hc.
    set (offset := (noteToMidi s - currentMidi) mod 12).
    pose proof (Z.mod_pos_bound (noteToMidi s - currentMidi) 12 ltac:(lia))
      as Hoffset. fold offset in Hoffset.
    assert (Hin : In (currentMidi + offset) nearbyNotes).
    { apply filter_In. split.
      - apply in_map_iff. exists (offset + 12). split; [lia|].
        apply In_upto. lia.
      - apply existsb_exists. exists (noteToMidi s).
        split; [now left|]. apply Z.eqb_eq. unfold rem.
        rewrite !Z.rem_mod_nonneg by lia. unfold offset.
        rewrite Zplus_mod_idemp_r. f_equal. lia. }
    assert (Hne : weighted <> []).
    { intros Hnil. rewrite <- Hfst, Hnil in Hin. exact Hin. }
    assert (Hweights : Forall (fun w => 1 <= snd w) weighted).
    { unfold weighted. apply Forall_forall. intros w Hw.
      apply in_map_iff in Hw. destruct Hw as (midi & <- & _).
      cbn [snd]. unfold note_weight. cbv zeta.
      repeat match goal with
             | |- context [if ?b then _ else _] => destruct b
             end; lia. }
    assert (Htotal : 0 <= fold_right (fun w sum => (snd w + sum)%Z) 0%Z weighted).
    { clear -Hweights. induction Hweights; simpl; lia. }
    destruct (weighted_selection_some weighted
                (Math_random n
                 * inject_Z (fold_left (fun sum w => (sum + snd w)%Z)
                               weighted 0%Z))%Q) as (midi & Hsome & _);
      [exact Hne| |congruence].
    rewrite fold_left_sum, Z.add_0_l.
    destruct (Math_random_range n) as [H0 H1].
    assert (Ht : (0 <= inject_Z
                         (fold_right (fun w sum => (snd w + sum)%Z) 0%Z weighted))%Q)
      by (change 0%Q with (inject_Z 0); rewrite <- Zle_Qle; exact Htotal).
    nra.
Qed.

Lemma last_kept_In (f : Z -> bool) (arr : list Z) (m : Z) :
  last_kept f arr = Some m -> In m arr /\ f m = true.
Proof.
  unfold last_kept. intros H. apply filter_In.
  induction (filter f arr) as [|a kept IH]; [discriminate|].
  destruct kept as [|b kept'].
  - injection H as ->. now left.
  - right. apply IH. exact H.
Qed.

(** X26: the approach note.  [getApproachNote] never throws, draws at most
    one random number and never returns the target itself: a chromatic
    approach and an enclosure are one semitone from the target, any other
    approach type but [scale] is the semitone below, and a [scale] approach
    is a note of the scale or two semitones from the target. *)
Theorem approach_note (targetMidi : Z) (scale : list string)
    (approachType : string) (n : nat) :
  exists note n',
    getApproachNote Math_random targetMidi scale approachType n
    = Ok (note, n')
    /\ (n <= n' <= S n)%nat
    /\ note <> targetMidi
    /\ (approachType <> "scale"%string -> Z.abs (note - targetMidi) = 1)
    /\ (approachType = "scale"%string ->
        In note (map noteToMidi scale) \/ Z.abs (note - targetMidi) = 2).
Proof.
  unfold getApproachNote, bind, random, ret. cbv zeta.
  destruct (String.eqb_spec approachType "chromatic") as [->|Hchromatic].
  { eexists _, _. split; [reflexivity|]. split; [lia|].
    destruct (Qltb _ _); repeat split; try lia; discriminate. }
  destruct (String.eqb_spec approachType "scale") as [->|Hscale].
  { eexists _, _. split; [reflexivity|]. split; [lia|].
    assert (Hbelow :
              let below :=
                number_or
                  (last_kept (fun m => m <? targetMidi)
                     (map noteToMidi scale)) (targetMidi - 2) in
              (In below (map noteToMidi scale) /\ below < targetMidi)
              \/ below = targetMidi - 2).
    { cbv zeta. unfold number_or.
      destruct (last_kept _ _) as [m|] eqn:E; [|now right].
      apply last_kept_In in E. destruct E as [Hin Hm].
      apply Z.ltb_lt in Hm.
      destruct (m =? 0); [now right|left; now split]. }
    assert (Habove :
              let above :=
                number_or
                  (find (fun m => targetMidi <? m) (map noteToMidi scale))
                  (targetMidi + 2) in
              (In above (map noteToMidi scale) /\ targetMidi < above)
              \/ above = targetMidi + 2).
    { cbv zeta. unfold number_or.
      destruct (find _ _) as [m|] eqn:E; [|now right].
      apply find_some in E. destruct E as [Hin Hm].
      apply Z.ltb_lt in Hm.
      destruct (m =? 0); [now right|left; now split]. }
    cbv zeta in Hbelow, Habove.
    destruct (Qltb _ _).
    - destruct Hbelow as [[Hin Hlt]| ->].
      + split; [lia|]. split; [congruence|]. intros _. now left.
      + split; [lia|]. split; [congruence|]. intros _. right. lia.
    - destruct Habove as [[Hin Hlt]| ->].
      + split; [lia|]. split; [congruence|]. intros _. now left.
      + split; [lia|]. split; [congruence|]. intros _. right. lia. }
  destruct (String.eqb approachType "enclosure").
  - eexists _, _. split; [reflexivity|]. split; [lia|].
    split; [lia|]. split; [intros _; lia|]. intros H. contradiction.
  - eexists _, _. split; [reflexivity|]. split; [lia|].
    split; [lia|]. split; [intros _; lia|]. intros H. contradiction.
Qed.

End MelodicMotion.

Lemma next_melodic_note_witness :
  exists note,
    NextNotes.getNextMelodicNote (constant_random (1 # 2)) "C4"
      ["C4"; "D4"; "E4"; "G4"; "A4"]%string ["C4"; "E4"; "G4"]%string 1 false
      0%nat
    = Ok (note, 1%nat)
    /\ note = PitchName "D4".
Proof.
  destruct (next_melodic_note _ constant_random_half_range "C4"
              ["C4"; "D4"; "E4"; "G4"; "A4"]%string
              ["C4"; "E4"; "G4"]%string 1 false 0%nat)
    as (note & Hrun & _ & _).
  exists note. split; [exact Hrun|].
  vm_compute in Hrun. injection Hrun as <-. reflexivity.
Defined.

Lemma note_events_in_range_witness :
  match
    generateSegment (constant_random (1 # 2)) rational_sin
      (bars_and_style 2 "jazz") None 0%nat
  with
  | Ok (res, _) =>
      Forall in_range (notes_of (melodyTrack res))
      /\ Forall well_formed (notes_of (drumTrack res))
  | Throw _ => False
  end.
Proof.
  destruct (generateSegment _ _ _ _ _) as [[res n']|e] eqn:E.
  - pose proof (note_events_in_range _ _ _ _ _ _ _ E) as W.
    destruct W as (Wmelody & _ & _ & _ & Wdrums). split; assumption.
  - vm_compute in E. discriminate.
Defined.
